(** * LArPandoraShowerAlg: shower geometry, charge and dE/dx utilities

    A shallow embedding of
    [larpandora/LArPandoraEventBuilding/LArPandoraShower/Algs/LArPandoraShowerAlg.cxx]
    (the [shower::LArPandoraShowerAlg] member functions and the
    [ShowerRecoTools::ShowerTrajPointdEdx] tool that ends the file).

    Numbers are the program's own: a C++ [double] is an IEEE-754 binary64
    value and a C++ [float] a binary32 value, both carried by [spec_float]
    and computed with the reference operations of [SpecFloat] at precision
    (53, 1024) and (24, 128).  Every implicit conversion of the source
    (float to double, double to float, integer to float) is written out. *)

From Stdlib Require Import ZArith List Bool Arith Lia Sorted Permutation FinFun.
From Stdlib Require String.
From Stdlib Require Import Floats.SpecFloat.
Import ListNotations.
Import String.StringSyntax.
Local Open Scope string_scope.
Local Open Scope nat_scope.

Set Implicit Arguments.

(** ** IEEE-754 arithmetic of the two C++ floating types *)

Module IEEE.

Definition double := spec_float.
Definition float := spec_float.

Definition NaN : spec_float := S754_nan.

(** Re-round a value to the format (prec, emax), to nearest even.  Every
    binary32 value is a binary64 value, so towards (53, 1024) this is the
    exact widening conversion; towards (24, 128) it is the narrowing one. *)
Definition renorm (prec emax : Z) (x : spec_float) : spec_float :=
  match x with
  | S754_finite s m e => binary_normalize prec emax (cond_Zopp s (Zpos m)) e s
  | _ => x
  end.

Definition float_to_double (x : float) : double := renorm 53 1024 x.
Definition double_to_float (x : double) : float := renorm 24 128 x.

(** Integer to floating conversions, [(double)n] and [(float)n]. *)
Definition D_of_Z (z : Z) : double := binary_normalize 53 1024 z 0 false.
Definition F_of_Z (z : Z) : float := binary_normalize 24 128 z 0 false.
Definition D_of_nat (n : nat) : double := D_of_Z (Z.of_nat n).
Definition F_of_nat (n : nat) : float := F_of_Z (Z.of_nat n).

Definition Dadd : double -> double -> double := SFadd 53 1024.
Definition Dsub : double -> double -> double := SFsub 53 1024.
Definition Dmul : double -> double -> double := SFmul 53 1024.
Definition Ddiv : double -> double -> double := SFdiv 53 1024.
Definition Dsqrt : double -> double := SFsqrt 53 1024.

Definition Fadd : float -> float -> float := SFadd 24 128.
Definition Fsub : float -> float -> float := SFsub 24 128.
Definition Fmul : float -> float -> float := SFmul 24 128.
Definition Fdiv : float -> float -> float := SFdiv 24 128.
Definition Fsqrt : float -> float := SFsqrt 24 128.

(** Comparisons: the same for both formats, false as soon as a NaN is
    involved. *)
Definition flt (x y : spec_float) : bool := SFltb x y.
Definition fgt (x y : spec_float) : bool := SFltb y x.
Definition feq (x y : spec_float) : bool := SFeqb x y.

Definition is_nan (x : spec_float) : bool :=
  match x with S754_nan => true | _ => false end.

#[global] Arguments renorm : simpl never.
#[global] Arguments float_to_double : simpl never.
#[global] Arguments double_to_float : simpl never.
#[global] Arguments D_of_Z : simpl never.
#[global] Arguments F_of_Z : simpl never.
#[global] Arguments D_of_nat : simpl never.
#[global] Arguments F_of_nat : simpl never.
#[global] Arguments Dadd : simpl never.
#[global] Arguments Dsub : simpl never.
#[global] Arguments Dmul : simpl never.
#[global] Arguments Ddiv : simpl never.
#[global] Arguments Dsqrt : simpl never.
#[global] Arguments Fadd : simpl never.
#[global] Arguments Fsub : simpl never.
#[global] Arguments Fmul : simpl never.
#[global] Arguments Fdiv : simpl never.
#[global] Arguments Fsqrt : simpl never.
#[global] Arguments flt : simpl never.
#[global] Arguments fgt : simpl never.
#[global] Arguments feq : simpl never.

End IEEE.

Import IEEE.

(** ** Outcomes of fallible code

    A call either returns, throws a [cet::exception] / [std::out_of_range],
    or leaves the behaviour the C++ standard defines (an access outside a
    vector, [front()] of an empty vector, an out-of-range conversion to
    [int]). *)

Inductive outcome (A : Type) : Type :=
| Value (a : A)
| Exception (what : String.string)
| Undefined.

Arguments Value {A} a.
Arguments Exception {A} what.
Arguments Undefined {A}.

Definition bind {A B : Type} (c : outcome A) (k : A -> outcome B) : outcome B :=
  match c with
  | Value a => k a
  | Exception w => Exception w
  | Undefined => Undefined
  end.

Notation "x <- c1 ;; c2" := (bind c1 (fun x => c2))
  (at level 61, c1 at next level, right associativity).

(** ** Data model *)

(** [art::Ptr<T>]: the key into the data product and the object behind it. *)
Record Ptr (T : Type) : Type := mkPtr { key : nat; get : T }.

(** [geo::WireID] and the [geo::PlaneID] it contains. *)
Record WireID : Type := mkWireID
  { Cryostat : nat; TPC : nat; Plane : nat; Wire : nat }.

Definition PlaneID : Type := (nat * nat * nat)%type.

Definition asPlaneID (w : WireID) : PlaneID := (Cryostat w, TPC w, Plane w).

(** [operator!=] of [geo::PlaneID]: cryostat, TPC and plane numbers. *)
Definition PlaneID_neq (a b : PlaneID) : bool :=
  let '(c1, t1, p1) := a in
  let '(c2, t2, p2) := b in
  negb ((c1 =? c2) && (t1 =? t2) && (p1 =? p2)).

Inductive SigType : Type := kInduction | kCollection | kMysteryType.

Definition SigType_eqb (a b : SigType) : bool :=
  match a, b with
  | kInduction, kInduction | kCollection, kCollection
  | kMysteryType, kMysteryType => true
  | _, _ => false
  end.

(** [recob::Hit], the attributes this file reads. *)
Record Hit : Type := mkHit
  { hit_WireID : WireID;
    StartTick : Z;
    EndTick : Z;
    PeakTime : float;
    Integral : float;
    SignalType : SigType }.

(** ** Vectors, points and the two projection utilities

    Written once over the arithmetic they use, and read below at [double],
    the arithmetic of the program. *)

Record Arith (T : Type) : Type := mkArith
  { plus_of : T -> T -> T;
    minus_of : T -> T -> T;
    times_of : T -> T -> T;
    sqrt_of : T -> T }.

(** [geo::Point_t] and [geo::Vector_t] (ROOT GenVector, Cartesian). *)
Record XYZ (T : Type) : Type := mkXYZ { fX : T; fY : T; fZ : T }.

(** [recob::SpacePoint], of which only the position is read. *)
Record SpacePoint (T : Type) : Type := mkSpacePoint { position : XYZ T }.

Section Geometry.

Context {T : Type} (A : Arith T).

Local Abbreviation add := (plus_of A).
Local Abbreviation sub := (minus_of A).
Local Abbreviation mul := (times_of A).

(** Point minus point, vector minus vector: componentwise. *)
Definition Minus (a b : XYZ T) : XYZ T :=
  mkXYZ (sub (fX a) (fX b)) (sub (fY a) (fY b)) (sub (fZ a) (fZ b)).

(** Scalar times vector. *)
Definition Scale (k : T) (v : XYZ T) : XYZ T :=
  mkXYZ (mul k (fX v)) (mul k (fY v)) (mul k (fZ v)).

Definition Dot (a b : XYZ T) : T :=
  add (add (mul (fX a) (fX b)) (mul (fY a) (fY b))) (mul (fZ a) (fZ b)).

Definition Mag2 (v : XYZ T) : T := Dot v v.

(** The length of a vector, [R()] in the source. *)
Definition Mag (v : XYZ T) : T := sqrt_of A (Mag2 v).

Definition SpacePointProjection (sp : Ptr (SpacePoint T))
  (vertex direction : XYZ T) : T :=
  let pos := Minus (position (get sp)) vertex in
  Dot pos direction.

(** The four-argument overload, with the projection already known. *)
Definition SpacePointPerpendicular_proj (sp : Ptr (SpacePoint T))
  (vertex direction : XYZ T) (proj : T) : T :=
  let pos := Minus (position (get sp)) vertex in
  let pos := Minus pos (Scale proj direction) in
  Mag pos.


Definition DistanceBetweenSpacePoints (sp_a sp_b : Ptr (SpacePoint T)) : T :=
  Mag (Minus (position (get sp_a)) (position (get sp_b))).

End Geometry.

Definition double_arith : Arith double := mkArith Dadd Dsub Dmul Dsqrt.

Definition Point_t : Type := XYZ double.
Definition Vector_t : Type := XYZ double.

Definition SpacePointPtr : Type := Ptr (SpacePoint double).
Definition HitPtr : Type := Ptr Hit.

(** ** std::map

    A [std::map<K, V>] is its sequence of entries in ascending key order.
    [m[k]] looks for the first entry whose key is not less than [k]
    (the lower bound); the entry is the one for [k] unless [k] is less than
    its key, in which case a new entry is put in front of it.  An entry
    that is found keeps the key it was created with. *)

Section StdMap.

Context {K V : Type} (less : K -> K -> bool).

Definition std_map : Type := list (K * V).

(** [m[k] = f(m[k])], where [None] stands for the value-initialised entry
    that [operator[]] creates for a new key. *)
Fixpoint subscript_update (k : K) (f : option V -> V) (m : std_map) : std_map :=
  match m with
  | [] => [(k, f None)]
  | (k', v') :: m' =>
    if less k' k then (k', v') :: subscript_update k f m'
    else if less k k' then (k, f None) :: (k', v') :: m'
    else (k', f (Some v')) :: m'
  end.

(** [m[k] = v]. *)
Definition subscript_assign (k : K) (v : V) (m : std_map) : std_map :=
  subscript_update k (fun _ => v) m.

(** [m.find(k)], by the same lower-bound search. *)
Fixpoint map_find (k : K) (m : std_map) : option V :=
  match m with
  | [] => None
  | (k', v') :: m' =>
    if less k' k then map_find k m'
    else if less k k' then None
    else Some v'
  end.

Definition mapped_values (m : std_map) : list V := map snd m.

(** The invariant of the representation: keys in strictly ascending
    order. *)
Definition keys_ascending (m : std_map) : Prop :=
  StronglySorted (fun a b => less (fst a) (fst b) = true) m.

End StdMap.

(** ** OrderShowerSpacePoints and its two siblings *)

Section OrderShowerSpacePoints.

Variables (vertex : Point_t) (direction : Vector_t).

(** The loop [OrderedSpacePoints[len] = sp] run over [showersps] with the
    ordering key [len_of]. *)
Definition order_by (len_of : SpacePointPtr -> double)
  (showersps : list SpacePointPtr) : std_map (K := double) (V := SpacePointPtr) :=
  fold_left (fun OrderedSpacePoints sp =>
               subscript_assign flt (len_of sp) sp OrderedSpacePoints)
            showersps [].

(** Ordered by projected length along the shower direction; the result is
    the new content of [showersps]. *)
Definition OrderShowerSpacePoints (showersps : list SpacePointPtr)
  : list SpacePointPtr :=
  mapped_values
    (order_by (fun sp => SpacePointProjection double_arith sp vertex direction)
              showersps).


(** Ordered by distance from the vertex (the overload without direction). *)
Definition OrderShowerSpacePoints_vertex (showersps : list SpacePointPtr)
  : list SpacePointPtr :=
  mapped_values
    (order_by (fun sp => Mag double_arith
                           (Minus double_arith (position (get sp)) vertex))
              showersps).

End OrderShowerSpacePoints.

(** ** OrderShowerHits *)

(** [TVector2] of ROOT, with the operators the function uses. *)
Definition TVector2 : Type := (double * double)%type.

Definition TVector2_minus (a b : TVector2) : TVector2 :=
  (Dsub (fst a) (fst b), Dsub (snd a) (snd b)).

(** [a * b], the scalar product. *)
Definition TVector2_dot (a b : TVector2) : double :=
  Dadd (Dmul (fst a) (fst b)) (Dmul (snd a) (snd b)).

Definition TVector2_Mod2 (a : TVector2) : double := TVector2_dot a a.

(** [Unit()]: [(Mod2()) ? *this / Mod() : TVector2()]; a [double] used as a
    condition is true unless it compares equal to zero. *)
Definition TVector2_Unit (a : TVector2) : TVector2 :=
  if feq (TVector2_Mod2 a) (D_of_Z 0) then (D_of_Z 0, D_of_Z 0)
  else let m := Dsqrt (TVector2_Mod2 a) in (Ddiv (fst a) m, Ddiv (snd a) m).

Definition Dabs (x : double) : double := SFabs x.

Section OrderShowerHits.

(** The geometry service and the detector properties, as the function
    queries them. *)
Variable WirePitch : PlaneID -> double.
Variable WireCoordinate : Point_t -> PlaneID -> double.
Variable GetIncreasingWireDirection : PlaneID -> Vector_t.
Variable ConvertTicksToX : float -> PlaneID -> double.

(** The hit position in cm, along the wire direction and along x. *)
Definition HitCoordinates (hit : HitPtr) : TVector2 :=
  let WireID := hit_WireID (get hit) in
  let planeid := asPlaneID WireID in
  let pitch := WirePitch planeid in
  (Dmul (D_of_nat (Wire WireID)) pitch,
   ConvertTicksToX (PeakTime (get hit)) planeid).

(** The [for (auto const& hit : hits)] loop, which stops at the first hit
    that is not on the plane of the first one. *)
Fixpoint OrderShowerHits_loop (startPlane : PlaneID)
  (Shower2DStartPosition Shower2DDirection : TVector2)
  (hits : list HitPtr) (OrderedHits : std_map (K := double) (V := HitPtr))
  : std_map (K := double) (V := HitPtr) :=
  match hits with
  | [] => OrderedHits
  | hit :: rest =>
    if PlaneID_neq (asPlaneID (hit_WireID (get hit))) startPlane then OrderedHits
    else
      let hitcoord := HitCoordinates hit in
      let pos := TVector2_minus hitcoord Shower2DStartPosition in
      OrderShowerHits_loop startPlane Shower2DStartPosition Shower2DDirection rest
        (subscript_assign flt (TVector2_dot pos Shower2DDirection) hit OrderedHits)
  end.

(** The result is the new content of [hits]. *)
Definition OrderShowerHits (hits : list HitPtr)
  (ShowerStartPosition : Point_t) (ShowerDirection : Vector_t)
  : outcome (list HitPtr) :=
  match hits with
  | [] => Undefined
  | startHit :: _ =>
    let startWireID := hit_WireID (get startHit) in
    let planeid := asPlaneID startWireID in
    let pitch := WirePitch planeid in
    let Shower2DStartPosition : TVector2 :=
      (Dmul (WireCoordinate ShowerStartPosition planeid) pitch,
       fX ShowerStartPosition) in
    let PlaneDirection := GetIncreasingWireDirection planeid in
    let Shower2DDirection : TVector2 :=
      (Dot double_arith ShowerDirection PlaneDirection, fX ShowerDirection) in
    let Shower2DDirection := TVector2_Unit Shower2DDirection in
    let OrderedHits :=
      OrderShowerHits_loop planeid Shower2DStartPosition Shower2DDirection hits [] in
    let showerHits := mapped_values OrderedHits in
    match showerHits, rev showerHits with
    | frontHit :: _, backHit :: _ =>
      let frontpos := TVector2_minus (HitCoordinates frontHit) Shower2DStartPosition in
      let backpos := TVector2_minus (HitCoordinates backHit) Shower2DStartPosition in
      let frontproj := TVector2_dot frontpos Shower2DDirection in
      let backproj := TVector2_dot backpos Shower2DDirection in
      if flt (Dabs backproj) (Dabs frontproj)
      then Value (rev showerHits)
      else Value showerHits
    | _, _ => Undefined
    end
  end.

End OrderShowerHits.

(** ** The hits of a spacepoint

    [art::FindManyP<recob::Hit>]: one hit list per spacepoint key; [at]
    throws [std::out_of_range] beyond the last key. *)

Definition FindManyP : Type := list (list HitPtr).

Definition fmh_at (fmh : FindManyP) (k : nat) : outcome (list HitPtr) :=
  match nth_error fmh k with
  | Some hits => Value hits
  | None => Exception "out_of_range"
  end.

(** ** ShowerCentre *)

(** The plain centroid of the spacepoints. *)
Definition ShowerCentre_plain (showersps : list SpacePointPtr) : Point_t :=
  match showersps with
  | [] => mkXYZ (D_of_Z 0) (D_of_Z 0) (D_of_Z 0)
  | _ =>
    let sum :=
      fold_left (fun acc sp =>
                   let pos := position (get sp) in
                   mkXYZ (Dadd (fX acc) (fX pos)) (Dadd (fY acc) (fY pos))
                         (Dadd (fZ acc) (fZ pos)))
                showersps (mkXYZ (D_of_Z 0) (D_of_Z 0) (D_of_Z 0)) in
    Scale double_arith (Ddiv (D_of_Z 1) (D_of_nat (length showersps))) sum
  end.

Section ShowerCentre.

Variable fUseCollectionOnly : bool.
(** [sampling_rate(clockData)], [detProp.ElectronLifetime()] and [std::exp]. *)
Variable sampling_rate : double.
Variable ElectronLifetime : double.
Variable std_exp : double -> double.

Definition no_points_warning : String.string :=
  "no points used to make the charge value. ".
Definition zero_charge_warning : String.string :=
  "Averaged charge, within 2 sigma, for a spacepoint is zero, Maybe this not a good method. ".

(** [std::exp((sampling_rate(clockData) * hit->PeakTime()) /
              (detProp.ElectronLifetime() * 1e3))]. *)
Definition lifetimecorrection (hit : HitPtr) : double :=
  std_exp (Ddiv (Dmul sampling_rate (float_to_double (PeakTime (get hit))))
                (Dmul ElectronLifetime (D_of_Z 1000))).

(** The lifetime-corrected integral of a hit, a [double]. *)
Definition corrected_integral (hit : HitPtr) : double :=
  Dmul (float_to_double (Integral (get hit))) (lifetimecorrection hit).

(** First loop over the hits of a spacepoint: [charge] and [charge2] are
    [float] accumulators; in collection-only mode the first collection hit
    ends the loop. *)
Fixpoint ShowerCentre_sums (hits : list HitPtr) (charge charge2 : float)
  : float * float :=
  match hits with
  | [] => (charge, charge2)
  | hit :: rest =>
    if fUseCollectionOnly then
      if SigType_eqb (SignalType (get hit)) kCollection then
        let charge := Integral (get hit) in
        (double_to_float (Dmul (float_to_double charge) (lifetimecorrection hit)),
         charge2)
      else ShowerCentre_sums rest charge charge2
    else
      let Q := corrected_integral hit in
      ShowerCentre_sums rest
        (double_to_float (Dadd (float_to_double charge) Q))
        (double_to_float (Dadd (float_to_double charge2) (Dmul Q Q)))
  end.

(** The spread [rms] computed from the two sums. *)
Definition ShowerCentre_rms (size : nat) (charge charge2 : float) : float :=
  if 1 <? size
  then Fsqrt (Fdiv (Fsub charge2 (Fmul charge charge)) (F_of_nat (size - 1)))
  else F_of_Z 1.

(** Second loop: the hits strictly within two [rms] of [mean]. *)
Fixpoint ShowerCentre_trim (mean rms : float) (hits : list HitPtr)
  (charge : float) (n : nat) : float * nat :=
  match hits with
  | [] => (charge, n)
  | hit :: rest =>
    let q := corrected_integral hit in
    if fgt q (float_to_double (Fsub mean (Fmul (F_of_Z 2) rms))) &&
       flt q (float_to_double (Fadd mean (Fmul (F_of_Z 2) rms)))
    then ShowerCentre_trim mean rms rest
           (double_to_float (Dadd (float_to_double charge) q)) (S n)
    else ShowerCentre_trim mean rms rest charge n
  end.

(** The spread that the all-plane policy uses for the hits of one
    spacepoint. *)
Definition ShowerCentre_spread (hits : list HitPtr) : float :=
  let '(charge, charge2) := ShowerCentre_sums hits (F_of_Z 0) (F_of_Z 0) in
  ShowerCentre_rms (length hits) charge charge2.

(** The number of hits that pass the trim. *)
Definition ShowerCentre_trimmed_count (hits : list HitPtr) : nat :=
  let '(charge, charge2) := ShowerCentre_sums hits (F_of_Z 0) (F_of_Z 0) in
  let mean := Fdiv charge (F_of_nat (length hits)) in
  let rms := ShowerCentre_rms (length hits) charge charge2 in
  snd (ShowerCentre_trim mean rms hits (F_of_Z 0) 0).

(** The charge of one spacepoint and the warnings logged on the way. *)
Definition ShowerCentre_charge (hits : list HitPtr) : float * list String.string :=
  let '(charge, charge2) := ShowerCentre_sums hits (F_of_Z 0) (F_of_Z 0) in
  if fUseCollectionOnly then (charge, [])
  else
    let mean := Fdiv charge (F_of_nat (length hits)) in
    let rms := ShowerCentre_rms (length hits) charge charge2 in
    let '(charge, n) := ShowerCentre_trim mean rms hits (F_of_Z 0) 0 in
    (Fdiv charge (F_of_nat n),
     if n =? 0 then [no_points_warning] else []).

(** The loop over the spacepoints. *)
Fixpoint ShowerCentre_loop (fmh : FindManyP) (showersps : list SpacePointPtr)
  (chargePoint : Point_t) (totalCharge : float) (log : list String.string)
  : outcome (Point_t * float * list String.string) :=
  match showersps with
  | [] => Value (chargePoint, totalCharge, log)
  | sp :: rest =>
    hits <- fmh_at fmh (key sp) ;;
    let '(charge, warned) := ShowerCentre_charge hits in
    let pos := position (get sp) in
    let c := float_to_double charge in
    let chargePoint :=
      mkXYZ (Dadd (fX chargePoint) (Dmul c (fX pos)))
            (Dadd (fY chargePoint) (Dmul c (fY pos)))
            (Dadd (fZ chargePoint) (Dmul c (fZ pos))) in
    let totalCharge := Fadd totalCharge charge in
    let warned0 := if feq charge (F_of_Z 0) then [zero_charge_warning] else [] in
    ShowerCentre_loop fmh rest chargePoint totalCharge (log ++ warned ++ warned0)
  end.

(** The charge-weighted centre, the total charge (an in/out parameter) and
    the warnings. *)
Definition ShowerCentre (showersps : list SpacePointPtr) (fmh : FindManyP)
  (totalCharge : float) : outcome (Point_t * float * list String.string) :=
  r <- ShowerCentre_loop fmh showersps
         (mkXYZ (D_of_Z 0) (D_of_Z 0) (D_of_Z 0)) totalCharge [] ;;
  let '(chargePoint, totalCharge, log) := r in
  let intotalcharge := float_to_double (Fdiv (F_of_Z 1) totalCharge) in
  Value (Scale double_arith intotalcharge chargePoint, totalCharge, log).

End ShowerCentre.

(** ** SpacePointCharge and SpacePointTime *)

Definition SpacePointCharge (sp : SpacePointPtr) (fmh : FindManyP) : outcome double :=
  hits <- fmh_at fmh (key sp) ;;
  let Charge :=
    fold_left (fun Charge hit => Dadd Charge (float_to_double (Integral (get hit))))
              hits (D_of_Z 0) in
  Value (Ddiv Charge (float_to_double (F_of_nat (length hits)))).

Definition SpacePointTime (sp : SpacePointPtr) (fmh : FindManyP) : outcome double :=
  hits <- fmh_at fmh (key sp) ;;
  let Time :=
    fold_left (fun Time hit => Dadd Time (float_to_double (PeakTime (get hit))))
              hits (D_of_Z 0) in
  Value (Ddiv Time (float_to_double (F_of_nat (length hits)))).

(** ** RMSShowerGradient and CalculateRMS *)

(** [std::numeric_limits<double>::lowest()], [std::numeric_limits<double>::epsilon()]
    and [std::numeric_limits<float>::epsilon()]. *)
Definition double_lowest : double := S754_finite true (2 ^ 53 - 1) 971.
Definition double_epsilon : double := S754_finite false (2 ^ 52) (-104).
Definition float_epsilon : float := S754_finite false (2 ^ 23) (-46).

(** The value of [std::round] (halfway cases away from zero) as an integer;
    there is none for an infinity or a NaN. *)
Definition std_round (x : double) : option Z :=
  match x with
  | S754_zero _ => Some 0%Z
  | S754_finite s m e =>
    let a :=
      match e with
      | Zneg p => let d := Z.pow_pos 2 p in ((2 * Zpos m + d) / (2 * d))%Z
      | _ => (Zpos m * 2 ^ e)%Z
      end in
    Some (cond_Zopp s a)
  | _ => None
  end.

(** A value stored in an [int]: outside the range of the type neither the
    conversion from [double] nor a product is defined. *)
Definition to_int (z : Z) : outcome Z :=
  if ((- 2 ^ 31 <=? z) && (z <=? 2 ^ 31 - 1))%Z then Value z else Undefined.

Definition CalculateRMS (perps : list float) : double :=
  if length perps <? 2 then double_lowest
  else
    let sum := fold_left (fun sum perp => Fadd sum (Fmul perp perp)) perps (F_of_Z 0) in
    float_to_double (Fsqrt (Fdiv sum (F_of_nat (length perps - 1)))).

Section RMSShowerGradient.

Variables (ShowerCentre : Point_t) (Direction : Vector_t).

(** Splitting the spacepoints into segments,
    [len_segment_map[sg_len].push_back(len_perp)]. *)
Fixpoint segment_loop (segmentsize : double) (sps : list SpacePointPtr)
  (len_segment_map : std_map (K := Z) (V := list float))
  : outcome (std_map (K := Z) (V := list float)) :=
  match sps with
  | [] => Value len_segment_map
  | sp :: rest =>
    let len := SpacePointProjection double_arith sp ShowerCentre Direction in
    let len_perp :=
      SpacePointPerpendicular_proj double_arith sp ShowerCentre Direction len in
    match std_round (Ddiv len segmentsize) with
    | None => Undefined
    | Some z =>
      sg_len <- to_int z ;;
      segment_loop segmentsize rest
        (subscript_update Z.ltb sg_len
           (fun v => match v with
                     | Some perps => perps ++ [double_to_float len_perp]
                     | None => [double_to_float len_perp]
                     end)
           len_segment_map)
    end
  end.

(** The regression sums over the segments, in ascending segment order. *)
Fixpoint regression_loop (segments : list (Z * list float)) (counter : nat)
  (sumx sumy sumx2 sumxy : float)
  : outcome (nat * (float * float * float * float)) :=
  match segments with
  | [] => Value (counter, (sumx, sumy, sumx2, sumxy))
  | segment :: rest =>
    if length (snd segment) <? 2
    then regression_loop rest counter sumx sumy sumx2 sumxy
    else
      let RMS := double_to_float (CalculateRMS (snd segment)) in
      if flt RMS (F_of_Z 0)
      then regression_loop rest counter sumx sumy sumx2 sumxy
      else
        square <- to_int (fst segment * fst segment) ;;
        regression_loop rest (S counter)
          (Fadd sumx (F_of_Z (fst segment)))
          (Fadd sumy RMS)
          (Fadd sumx2 (F_of_Z square))
          (Fadd sumxy (Fmul RMS (F_of_Z (fst segment))))
  end.

(** The gradient, and [sps] as the call leaves it. *)
Definition RMSShowerGradient (sps : list SpacePointPtr) (nSegments : nat)
  : outcome (double * list SpacePointPtr) :=
  if nSegments =? 0
  then Exception "Unable to calculate RMS Shower Gradient with 0 segments"
  else if length sps <? 3 then Value (D_of_Z 0, sps)
  else
    let sps := OrderShowerSpacePoints ShowerCentre Direction sps in
    match nth_error sps 0, nth_error sps (length sps - 1) with
    | Some sps_first, Some sps_last =>
      let minProj := SpacePointProjection double_arith sps_first ShowerCentre Direction in
      let maxProj := SpacePointProjection double_arith sps_last ShowerCentre Direction in
      let length := Dsub maxProj minProj in
      let segmentsize := Ddiv length (D_of_nat nSegments) in
      if flt segmentsize double_epsilon then Value (D_of_Z 0, sps)
      else
        len_segment_map <- segment_loop segmentsize sps [] ;;
        sums <- regression_loop len_segment_map 0
                  (F_of_Z 0) (F_of_Z 0) (F_of_Z 0) (F_of_Z 0) ;;
        let '(counter, (sumx, sumy, sumx2, sumxy)) := sums in
        let denom := Fsub (Fmul (F_of_nat counter) sumx2) (Fmul sumx sumx) in
        Value
          (float_to_double
             (if flt (SFabs denom) float_epsilon then F_of_Z 0
              else Fdiv (Fsub (Fmul (F_of_nat counter) sumxy) (Fmul sumx sumy)) denom),
           sps)
    | _, _ => Undefined
    end.

End RMSShowerGradient.

(** ** OrganizeHits *)

(** The local [struct HitIdentifier]. *)
Record HitIdentifier : Type := mkHitIdentifier
  { startTick : Z; endTick : Z; wire : Z; integral : float }.

Definition HitIdentifier_of (hit : Hit) : HitIdentifier :=
  mkHitIdentifier (StartTick hit) (EndTick hit)
                  (Z.of_nat (Wire (hit_WireID hit))) (Integral hit).

(** [operator==]: the two hits are on the same snippet. *)
Definition HitIdentifier_eq (lhs rhs : HitIdentifier) : bool :=
  ((startTick lhs =? startTick rhs) && (endTick lhs =? endTick rhs)
   && (wire lhs =? wire rhs))%Z.

(** [operator>]: which of two hits of a snippet is picked. *)
Definition HitIdentifier_gt (lhs rhs : HitIdentifier) : bool :=
  fgt (integral lhs) (integral rhs).

(** [std::pair<unsigned, std::vector<unsigned>>]: the index of the primary
    hit and the indices of its secondaries. *)
Definition OrganizedHits : Type := (nat * list nat)%type.

(** [hits_org[plane]] and [hit_idents[plane]] grow and change together, so
    one plane is a single vector of pairs. *)
Definition PlaneSnippets : Type := list (OrganizedHits * HitIdentifier).

Definition nplanes : nat := 6.

(** The [for (j ...)] search through the snippets of one plane; [None] when
    the loop ends with [found_snippet] still false. *)
Fixpoint find_snippet (i : nat) (this_ident : HitIdentifier)
  (snippets : PlaneSnippets) : option PlaneSnippets :=
  match snippets with
  | [] => None
  | (hit_org, ident) :: rest =>
    if HitIdentifier_eq this_ident ident then
      if HitIdentifier_gt this_ident ident
      then Some (((i, snd hit_org ++ [fst hit_org]), this_ident) :: rest)
      else Some (((fst hit_org, snd hit_org ++ [i]), ident) :: rest)
    else option_map (cons (hit_org, ident)) (find_snippet i this_ident rest)
  end.

(** One turn of the [for (i ...)] loop. *)
Definition organize_hit (i : nat) (hit : HitPtr) (org : list PlaneSnippets)
  : outcome (list PlaneSnippets) :=
  let plane := Plane (hit_WireID (get hit)) in
  let this_ident := HitIdentifier_of (get hit) in
  match nth_error org plane with
  | None => Undefined
  | Some snippets =>
    let snippets :=
      match find_snippet i this_ident snippets with
      | Some found => found
      | None => snippets ++ [((i, []), this_ident)]
      end in
    Value (firstn plane org ++ snippets :: skipn (S plane) org)
  end.

Fixpoint organize_loop (i : nat) (hits : list HitPtr) (org : list PlaneSnippets)
  : outcome (list PlaneSnippets) :=
  match hits with
  | [] => Value org
  | hit :: rest =>
    org <- organize_hit i hit org ;;
    organize_loop (S i) rest org
  end.

(** [art::Ptr] values are ordered by their key. *)
Definition Ptr_less {T : Type} (a b : Ptr T) : bool := key a <? key b.

(** [hits[i]] for each index of a list. *)
Fixpoint hits_at (hits : list HitPtr) (ids : list nat) : outcome (list HitPtr) :=
  match ids with
  | [] => Value []
  | i :: rest =>
    match nth_error hits i with
    | None => Undefined
    | Some h => hs <- hits_at hits rest ;; Value (h :: hs)
    end
  end.

(** Filling [ret] from the snippets of all planes in turn. *)
Fixpoint organize_ret (hits : list HitPtr) (snippets : list OrganizedHits)
  (ret : std_map (K := HitPtr) (V := list HitPtr))
  : outcome (std_map (K := HitPtr) (V := list HitPtr)) :=
  match snippets with
  | [] => Value ret
  | hit_org :: rest =>
    secondaryHits <- hits_at hits (snd hit_org) ;;
    match nth_error hits (fst hit_org) with
    | None => Undefined
    | Some primary =>
      organize_ret hits rest (subscript_assign Ptr_less primary secondaryHits ret)
    end
  end.

(** The snippets found, as index pairs, plane after plane. *)
Definition OrganizeHits_indices (hits : list HitPtr) : outcome (list OrganizedHits) :=
  org <- organize_loop 0 hits (repeat [] nplanes) ;;
  Value (map fst (concat org)).

Definition OrganizeHits (hits : list HitPtr)
  : outcome (std_map (K := HitPtr) (V := list HitPtr)) :=
  snippets <- OrganizeHits_indices hits ;;
  organize_ret hits snippets [].

(** ** ShowerTrajPointdEdx::FinddEdxLength *)

Section FinddEdxLength.

(** The configured cut, a [float] data member. *)
Variable fdEdxCut : float.

(** [dEdx_vec[i]]; every access of the source is in range. *)
Definition dEdx_at (dEdx_vec : list double) (i : nat) : double :=
  nth i dEdx_vec NaN.

Definition above_cut (dEdx : double) : bool := fgt dEdx (float_to_double fdEdxCut).
Definition below_cut (dEdx : double) : bool := flt dEdx (float_to_double fdEdxCut).

(** The [for (dEdx_iter = 2; dEdx_iter < dEdx_vec.size(); ++dEdx_iter)]
    loop; [n] counts the iterations still to run.  A recursive call is a
    [continue], returning [dEdx_val] is the [break]. *)
Fixpoint FinddEdxLength_loop (upperbound : bool) (dEdx_vec : list double)
  (n dEdx_iter : nat) (dEdx_val : list double) : list double :=
  match n with
  | O => dEdx_val
  | S n' =>
    let dEdx := dEdx_at dEdx_vec dEdx_iter in
    let size := length dEdx_vec in
    if (if upperbound then above_cut dEdx else below_cut dEdx) then
      FinddEdxLength_loop upperbound dEdx_vec n' (S dEdx_iter) (dEdx_val ++ [dEdx])
    else if (dEdx_iter <? size - 1) && above_cut (dEdx_at dEdx_vec (dEdx_iter + 1)) then
      FinddEdxLength_loop upperbound dEdx_vec n' (S dEdx_iter) dEdx_val
    else if (dEdx_iter <? size - 2) && above_cut (dEdx_at dEdx_vec (dEdx_iter + 2)) then
      FinddEdxLength_loop upperbound dEdx_vec n' (S dEdx_iter) dEdx_val
    else dEdx_val
  end.

(** [dEdx_val] is an in/out parameter: the two early exits assign to it,
    the main path appends to what it already holds.  The result is its
    final content. *)
Definition FinddEdxLength (dEdx_vec dEdx_val : list double) : list double :=
  if fgt fdEdxCut (F_of_Z 10) then dEdx_vec
  else if length dEdx_vec <? 4 then dEdx_vec
  else
    let upperbound_int :=
      (if above_cut (dEdx_at dEdx_vec 0) then 1 else 0) +
      (if above_cut (dEdx_at dEdx_vec 1) then 1 else 0) +
      (if above_cut (dEdx_at dEdx_vec 2) then 1 else 0) in
    let upperbound := 1 <? upperbound_int in
    let dEdx_val :=
      ((dEdx_val ++ [dEdx_at dEdx_vec 0]) ++ [dEdx_at dEdx_vec 1])
        ++ [dEdx_at dEdx_vec 2] in
    FinddEdxLength_loop upperbound dEdx_vec (length dEdx_vec - 2) 2 dEdx_val.

End FinddEdxLength.

(** ** ShowerTrajPointdEdx::CalculateElement, from the trimming on

    What the function does once the per-plane sequences [dEdx_vec] are
    filled: trim every plane, then reduce every trimmed plane to one value. *)

Section CalculateElement.

Variable fdEdxCut : float.
Variable fUseMedian : bool.
(** [TMath::Median] of ROOT, over the elements of a vector. *)
Variable TMath_Median : list double -> double.

Definition PlaneProfile : Type := std_map (K := Z) (V := list double).

(** [dEdx_vec_cut], with an empty entry for every plane of the geometry and
    then [FinddEdxLength] run on every plane of [dEdx_vec]. *)
Definition trim_planes (planes : list Z) (dEdx_vec : PlaneProfile) : PlaneProfile :=
  let dEdx_vec_cut :=
    fold_left (fun cut plane => subscript_assign Z.ltb plane [] cut) planes [] in
  fold_left
    (fun cut dEdx_plane =>
       subscript_update Z.ltb (fst dEdx_plane)
         (fun dEdx_val =>
            FinddEdxLength fdEdxCut (snd dEdx_plane)
              (match dEdx_val with Some v => v | None => [] end))
         cut)
    dEdx_vec dEdx_vec_cut.

(** The [else] branch: the values above 10 or below 0 are left out of the
    sum, which is then divided by the number of values of the plane. *)
Definition dEdx_mean_value (dEdx_plane : list double) : double :=
  let dEdx_mean :=
    fold_left (fun dEdx_mean dEdx =>
                 if fgt dEdx (D_of_Z 10) || flt dEdx (D_of_Z 0) then dEdx_mean
                 else Dadd dEdx_mean dEdx)
              dEdx_plane (D_of_Z 0) in
  Ddiv dEdx_mean (float_to_double (F_of_nat (length dEdx_plane))).

(** The loop over [dEdx_vec_cut] that fills [dEdx_val] and [dEdx_valErr]. *)
Fixpoint dEdx_values (dEdx_vec_cut : PlaneProfile) (dEdx_val dEdx_valErr : list double)
  : list double * list double :=
  match dEdx_vec_cut with
  | [] => (dEdx_val, dEdx_valErr)
  | dEdx_plane :: rest =>
    match snd dEdx_plane with
    | [] => dEdx_values rest (dEdx_val ++ [D_of_Z (-999)]) (dEdx_valErr ++ [D_of_Z (-999)])
    | _ =>
      if fUseMedian
      then dEdx_values rest (dEdx_val ++ [TMath_Median (snd dEdx_plane)]) dEdx_valErr
      else dEdx_values rest (dEdx_val ++ [dEdx_mean_value (snd dEdx_plane)]) dEdx_valErr
    end
  end.

(** [dEdx_val], [dEdx_valErr] and [dEdx_vec_cut] as the function stores
    them. *)
Definition CalculateElement_dEdx (planes : list Z) (dEdx_vec : PlaneProfile)
  : list double * list double * PlaneProfile :=
  let dEdx_vec_cut := trim_planes planes dEdx_vec in
  (dEdx_values dEdx_vec_cut [] [], dEdx_vec_cut).

End CalculateElement.


(** ** ShowerTrajPointdEdx::CalculateElement: the best plane *)

Definition INT_MAX : Z := 2 ^ 31 - 1.

(** The loop over [num_hits], a [std::map<int, int>] from plane number to
    the number of hits used on the plane: the state is [max_hits] and
    [best_plane]. *)
Definition best_plane_loop (num_hits : std_map (K := Z) (V := Z))
  (max_hits best_plane : Z) : Z * Z :=
  fold_left (fun state entry =>
               let numHits := snd entry in
               if (numHits >? fst state)%Z then (numHits, fst entry) else state)
            num_hits (max_hits, best_plane).

(** The plane stored as best plane; [None] where the function logs
    that no plane has hits and returns 1. *)
Definition best_plane (num_hits : std_map (K := Z) (V := Z)) : option Z :=
  let best_plane := snd (best_plane_loop num_hits 0 (- INT_MAX)) in
  if (best_plane <? 0)%Z then None else Some best_plane.

(** ** ShowerTrajPointdEdx::CalculateElement: the closest trajectory point *)

(** One trajectory point of the initial track: the [NoPoint] flag, the
    location and the direction. *)
Record TrajectoryPoint : Type := mkTrajectoryPoint
  { NoPoint : bool; LocationAtPoint : Point_t; DirectionAtPoint : Vector_t }.

(** [(pos - TrajPosition).R()]. *)
Definition traj_dist (pos : Point_t) (point : TrajectoryPoint) : double :=
  Mag double_arith (Minus double_arith pos (LocationAtPoint point)).

(** The search through the trajectory points, [reach] being
    [MaxDist * wirepitch]; the state is [index] and [MinDist]. *)
Fixpoint closest_loop (pos : Point_t) (reach : double)
  (track : list TrajectoryPoint) (traj index : nat) (MinDist : double)
  : nat * double :=
  match track with
  | [] => (index, MinDist)
  | point :: rest =>
    if NoPoint point then closest_loop pos reach rest (S traj) index MinDist
    else
      let dist := traj_dist pos point in
      if flt dist MinDist && flt dist reach
      then closest_loop pos reach rest (S traj) traj dist
      else closest_loop pos reach rest (S traj) index MinDist
  end.

(** The index of the trajectory point that the spacepoint is matched with;
    [None] where the loop over the spacepoints goes on to the next one
    because [index] is still 999.  [MaxDist] is a [float] data member,
    [wirepitch] a [double].  The track has fewer points than an
    [unsigned int] can count. *)
Definition closest_trajectory_point (MaxDist : float) (wirepitch : double)
  (pos : Point_t) (track : list TrajectoryPoint) : option nat :=
  let index :=
    fst (closest_loop pos (Dmul (float_to_double MaxDist) wirepitch) track
                      0 999 (D_of_Z 999)) in
  if index =? 999 then None else Some index.

(** ** SCECorrectPitch and SCECorrectEField *)

(** Point plus vector: componentwise. *)
Definition Plus (a b : XYZ double) : XYZ double :=
  mkXYZ (Dadd (fX a) (fX b)) (Dadd (fY a) (fY b)) (Dadd (fZ a) (fZ b)).

(** What the functions ask of the space charge service; the second
    argument of an offset function is the TPC number of [geo::TPCID{0,TPC}]. *)
Record SpaceCharge : Type := mkSpaceCharge
  { EnableCalSpatialSCE : bool;
    EnableSimEfieldSCE : bool;
    GetPosOffsets : Point_t -> nat -> Vector_t;
    GetCalPosOffsets : Point_t -> nat -> Vector_t;
    GetEfieldOffsets : Point_t -> nat -> Vector_t }.

Section SCECorrect.

(** The service pointer [fSCE], which may be null. *)
Variable fSCE : option SpaceCharge.

Definition SCECorrectPitch (pitch : double) (pos : Point_t) (dir : Vector_t)
  (TPC : nat) : outcome double :=
  match fSCE with
  | Some sce =>
    if EnableCalSpatialSCE sce then
      let uncorrectedPos := Plus pos (GetPosOffsets sce pos TPC) in
      let posOffset := GetCalPosOffsets sce uncorrectedPos TPC in
      let nextPos := Plus uncorrectedPos (Scale double_arith pitch dir) in
      let nextPosOffset := GetCalPosOffsets sce nextPos TPC in
      let pitchVec :=
        mkXYZ (Dadd (Dmul pitch (fX dir)) (Dsub (fX nextPosOffset) (fX posOffset)))
              (Dadd (Dmul pitch (fY dir)) (Dsub (fY nextPosOffset) (fY posOffset)))
              (Dadd (Dmul pitch (fZ dir)) (Dsub (fZ nextPosOffset) (fZ posOffset))) in
      Value (Mag double_arith pitchVec)
    else Exception "Trying to correct SCE pitch when service is not configured"
  | None => Exception "Trying to correct SCE pitch when service is not configured"
  end.

(** [NomEfieldDir] is [detProp.NomEfieldDir(geo::TPCID{0,TPC})]. *)
Definition SCECorrectEField (EField : double) (pos : Point_t)
  (NomEfieldDir : nat -> Vector_t) (TPC : nat) : outcome double :=
  match fSCE with
  | Some sce =>
    if EnableSimEfieldSCE sce then
      let EFieldOffsets := GetEfieldOffsets sce pos TPC in
      let EFieldOffsets := Plus EFieldOffsets (NomEfieldDir TPC) in
      let EFieldOffsets :=
        mkXYZ (Dmul (fX EFieldOffsets) EField) (Dmul (fY EFieldOffsets) EField)
              (Dmul (fZ EFieldOffsets) EField) in
      Value (Mag double_arith EFieldOffsets)
    else Exception "Trying to correct SCE EField when service is not configured"
  | None => Exception "Trying to correct SCE EField when service is not configured"
  end.

End SCECorrect.

(** ** The value OrderShowerHits orders by *)

Section hit_projection.

Variable WirePitch : PlaneID -> double.
Variable WireCoordinate : Point_t -> PlaneID -> double.
Variable GetIncreasingWireDirection : PlaneID -> Vector_t.
Variable ConvertTicksToX : float -> PlaneID -> double.

(** The projection of a hit onto the 2D shower direction, from the 2D start
    position, both taken in the plane of [startHit]: the key under which
    [OrderShowerHits] enters the hit, and what it compares at the end. *)
Definition hit_projection (startHit : HitPtr)
  (ShowerStartPosition : Point_t) (ShowerDirection : Vector_t) (hit : HitPtr)
  : double :=
  let planeid := asPlaneID (hit_WireID (get startHit)) in
  let pitch := WirePitch planeid in
  let Shower2DStartPosition : TVector2 :=
    (Dmul (WireCoordinate ShowerStartPosition planeid) pitch,
     fX ShowerStartPosition) in
  let Shower2DDirection : TVector2 :=
    TVector2_Unit
      (Dot double_arith ShowerDirection (GetIncreasingWireDirection planeid),
       fX ShowerDirection) in
  TVector2_dot
    (TVector2_minus (HitCoordinates WirePitch ConvertTicksToX hit)
                    Shower2DStartPosition)
    Shower2DDirection.

End hit_projection.

(** ** Reference notions the properties compare the code with *)

(** A finite number: neither an infinity nor a NaN. *)
Definition is_finite (x : spec_float) : bool :=
  match x with
  | S754_zero _ | S754_finite _ _ _ => true
  | _ => false
  end.

(** Not below zero as far as the sign goes: a zero of either sign, a
    positive number, the positive infinity or a NaN. *)
Definition not_negative (x : spec_float) : bool :=
  match x with
  | S754_infinity true | S754_finite true _ _ => false
  | _ => true
  end.



(** The arithmetic mean of a sequence of [double]s, summed in order. *)
Definition arithmetic_mean (values : list double) : double :=
  Ddiv (fold_left Dadd values (D_of_Z 0))
       (float_to_double (F_of_nat (length values))).

(** A dE/dx value is physical when it is neither below 0 nor above 10. *)
Definition physical (dEdx : double) : bool :=
  negb (fgt dEdx (D_of_Z 10) || flt dEdx (D_of_Z 0)).

(** The mean of the physical values of a sequence. *)
Definition physical_mean (dEdx_plane : list double) : double :=
  arithmetic_mean (filter physical dEdx_plane).

(** The unbiased sample standard deviation of a sequence: the square root
    of the sum of the squared deviations from the mean, over [n - 1]. *)
Definition unbiased_sample_sd (values : list double) : double :=
  let mean := arithmetic_mean values in
  let squares :=
    fold_left (fun acc q => Dadd acc (Dmul (Dsub q mean) (Dsub q mean)))
              values (D_of_Z 0) in
  Dsqrt (Ddiv squares (D_of_nat (length values - 1))).

(** Two hits lie on the same snippet: same plane, wire, start and end tick. *)
Definition same_snippet (a b : Hit) : Prop :=
  Plane (hit_WireID a) = Plane (hit_WireID b) /\
  Wire (hit_WireID a) = Wire (hit_WireID b) /\
  StartTick a = StartTick b /\
  EndTick a = EndTick b.

(** ** The invariant of the OrganizeHits loop *)

(** The part of a [HitIdentifier] that [operator==] compares. *)
Definition snippet_key (id : HitIdentifier) : Z * Z * Z :=
  (startTick id, endTick id, wire id).

(** What identifies the snippet of a hit: its plane and the key of its
    identifier. *)
Definition hit_key (h : Hit) : nat * (Z * Z * Z) :=
  (Plane (hit_WireID h), snippet_key (HitIdentifier_of h)).

(** The hits of one snippet, primary first. *)
Definition members (snippet : OrganizedHits) : list nat :=
  fst snippet :: snd snippet.

Section organize_invariant.

(** The hit list of the call, and the number of hits already organised. *)
Variables (hits : list HitPtr) (i : nat).

(** The hit at index [k] lies on plane [pl] and on the snippet of [ident]. *)
Definition on_snippet (pl : nat) (ident : HitIdentifier) (k : nat) : Prop :=
  exists hk, nth_error hits k = Some hk
             /\ Plane (hit_WireID (get hk)) = pl
             /\ snippet_key (HitIdentifier_of (get hk)) = snippet_key ident.

(** One snippet of plane [pl]: the identifier is that of the primary; the
    primary and the secondaries are, without repetition, the hits seen so
    far on the snippet; no secondary has a greater integral than the
    primary, and one with an equal integral came later. *)
Definition snippet_invariant (pl : nat) (e : OrganizedHits * HitIdentifier) : Prop :=
  let '((primary, secondaries), ident) := e in
  (exists hp, nth_error hits primary = Some hp /\ ident = HitIdentifier_of (get hp))
  /\ NoDup (primary :: secondaries)
  /\ (forall k, In k (primary :: secondaries) <-> k < i /\ on_snippet pl ident k)
  /\ (forall s hs, In s secondaries -> nth_error hits s = Some hs ->
                   fgt (Integral (get hs)) (integral ident) = false
                   /\ (feq (Integral (get hs)) (integral ident) = true -> primary < s)).

(** The snippets of plane [pl]: each is as above, no two have the same key,
    and every hit seen so far on the plane has its snippet. *)
Definition plane_invariant (pl : nat) (snippets : PlaneSnippets) : Prop :=
  Forall (snippet_invariant pl) snippets
  /\ NoDup (map (fun e => snippet_key (snd e)) snippets)
  /\ (forall k hk, k < i -> nth_error hits k = Some hk ->
                   Plane (hit_WireID (get hk)) = pl ->
                   In (snippet_key (HitIdentifier_of (get hk)))
                      (map (fun e => snippet_key (snd e)) snippets)).

Definition organize_invariant (org : list PlaneSnippets) : Prop :=
  length org = nplanes
  /\ forall pl snippets, nth_error org pl = Some snippets -> plane_invariant pl snippets.

End organize_invariant.

(** ** Sample data for the worked examples *)

(** A collection hit on wire 7 of plane 0, ticks 100 to 120. *)
Definition hit_with (k : nat) (integral peak : Z) : HitPtr :=
  mkPtr k (mkHit (mkWireID 0 0 0 7) 100 120 (F_of_Z peak) (F_of_Z integral) kCollection).

(** A hit on a given plane and wire, with its peak time. *)
Definition hit_on (k plane wire_no : nat) (peak : Z) : HitPtr :=
  mkPtr k (mkHit (mkWireID 0 0 plane wire_no) 100 120 (F_of_Z peak) (F_of_Z 50)
                 (if plane =? 2 then kCollection else kInduction)).

(** A spacepoint at integer coordinates. *)
Definition spacepoint_at (k : nat) (x y z : Z) : SpacePointPtr :=
  mkPtr k (mkSpacePoint (mkXYZ (D_of_Z x) (D_of_Z y) (D_of_Z z))).



(** * Properties *)

Unset Implicit Arguments.

(** ** Order facts of IEEE comparison *)

Ltac cmp_split :=
  repeat match goal with
  | H : context [Z.compare ?a ?b] |- _ => destruct (Z.compare_spec a b)
  | |- context [Z.compare ?a ?b] => destruct (Z.compare_spec a b)
  | H : context [Pos.compare_cont Eq ?a ?b] |- _ =>
      change (Pos.compare_cont Eq a b) with (Pos.compare a b) in H;
      destruct (Pos.compare_spec a b)
  | |- context [Pos.compare_cont Eq ?a ?b] =>
      change (Pos.compare_cont Eq a b) with (Pos.compare a b);
      destruct (Pos.compare_spec a b)
  end.

Ltac float_cases :=
  unfold fgt, flt, feq, is_nan, SFltb, SFeqb, SFcompare;
  intros;
  repeat match goal with
  | x : spec_float |- _ => destruct x
  | x : double |- _ => destruct x
  | x : float |- _ => destruct x
  | s : bool |- _ => destruct s
  end;
  simpl in *; try discriminate; try reflexivity;
  cmp_split; simpl in *; subst; try discriminate; try reflexivity; try lia.

Lemma flt_trans x y z : flt x y = true -> flt y z = true -> flt x z = true.
Proof. float_cases. Qed.

Lemma flt_irrefl x : flt x x = false.
Proof. float_cases. Qed.

Lemma flt_asym x y : flt x y = true -> flt y x = false.
Proof. float_cases. Qed.

Lemma flt_not_feq x y : flt x y = true -> feq x y = false.
Proof. float_cases. Qed.

Lemma feq_sym x y : feq x y = true -> feq y x = true.
Proof. float_cases. Qed.

Lemma feq_trans x y z : feq x y = true -> feq y z = true -> feq x z = true.
Proof. float_cases. Qed.

Lemma feq_flt_trans x y z : feq x y = true -> flt y z = true -> flt x z = true.
Proof. float_cases. Qed.

Lemma flt_feq_trans x y z : flt x y = true -> feq y z = true -> flt x z = true.
Proof. float_cases. Qed.

Lemma feq_refl x : is_nan x = false -> feq x x = true.
Proof. float_cases. Qed.

Lemma feq_not_nan x y : feq x y = true -> is_nan x = false /\ is_nan y = false.
Proof. float_cases; split; reflexivity. Qed.

(** Two numbers neither of which is less than the other are equal. *)
Lemma feq_of_not_flt x y :
  is_nan x = false -> is_nan y = false ->
  flt x y = false -> flt y x = false -> feq x y = true.
Proof. float_cases. Qed.

Lemma fgt_flt x y : fgt x y = flt y x.
Proof. reflexivity. Qed.

(** ** Rounding never turns a non-zero number above the smallest exponent
       into zero *)

Local Open Scope Z_scope.

Lemma digits2_pos_lower (p : positive) :
  2 ^ (Zpos (digits2_pos p) - 1) <= Zpos p.
Proof.
  induction p as [p IH|p IH|]; cbn [digits2_pos].
  - rewrite Pos2Z.inj_succ.
    replace (Z.succ (Zpos (digits2_pos p)) - 1) with (Z.succ (Zpos (digits2_pos p) - 1)) by lia.
    rewrite Z.pow_succ_r by lia. lia.
  - rewrite Pos2Z.inj_succ.
    replace (Z.succ (Zpos (digits2_pos p)) - 1) with (Z.succ (Zpos (digits2_pos p) - 1)) by lia.
    rewrite Z.pow_succ_r by lia. lia.
  - simpl. lia.
Qed.

Lemma shr_1_lower (mrs : shr_record) (k : Z) :
  0 <= k -> 2 ^ (1 + k) <= shr_m mrs -> 2 ^ k <= shr_m (shr_1 mrs).
Proof.
  intros Hk H. destruct mrs as [m r s]. cbn [shr_m] in H.
  replace (1 + k) with (Z.succ k) in H by lia.
  rewrite Z.pow_succ_r in H by lia.
  assert (0 < 2 ^ k) by (apply Z.pow_pos_nonneg; lia).
  destruct m as [|[p|p|]|p]; cbn [shr_1 shr_m]; lia.
Qed.

Lemma iter_shr_1_lower (p : positive) :
  forall (mrs : shr_record) (k : Z),
    0 <= k -> 2 ^ (Zpos p + k) <= shr_m mrs ->
    2 ^ k <= shr_m (iter_pos shr_1 p mrs).
Proof.
  induction p as [p IH|p IH|]; intros mrs k Hk H; cbn [iter_pos].
  - apply IH; [lia|]. apply IH; [lia|]. apply shr_1_lower; [lia|].
    replace (1 + (Z.pos p + (Z.pos p + k))) with (Z.pos p~1 + k) by lia. exact H.
  - apply IH; [lia|]. apply IH; [lia|].
    replace (Z.pos p + (Z.pos p + k)) with (Z.pos p~0 + k) by lia. exact H.
  - apply shr_1_lower; [lia|]. exact H.
Qed.

Section Rounding.

Variables prec emax : Z.
Hypothesis prec_pos : 0 < prec.

Lemma shr_record_of_loc_m m l : shr_m (shr_record_of_loc m l) = m.
Proof. destruct l as [|[]]; reflexivity. Qed.

Lemma shr_fexp_lower (m e : Z) (l : location) :
  0 < m -> emin prec emax <= e ->
  0 < shr_m (fst (shr_fexp prec emax m e l)) /\
  emin prec emax <= snd (shr_fexp prec emax m e l).
Proof.
  intros Hm He. unfold shr_fexp, shr.
  destruct m as [|p|p]; try lia. cbn [Zdigits2].
  destruct (fexp prec emax (Z.pos (digits2_pos p) + e) - e) as [|n|n] eqn:Hn;
    cbn [fst snd]; rewrite ?shr_record_of_loc_m; try (split; lia).
  split; [|lia].
  assert (Hd : Zpos n = Zpos (digits2_pos p) - prec).
  { unfold fexp in Hn. lia. }
  assert (2 ^ 0 <= shr_m (iter_pos shr_1 n (shr_record_of_loc (Z.pos p) l))).
  { apply iter_shr_1_lower; [lia|]. rewrite shr_record_of_loc_m.
    pose proof (digits2_pos_lower p).
    assert (2 ^ (Zpos n + 0) <= 2 ^ (Zpos (digits2_pos p) - 1)).
    { apply Z.pow_le_mono_r; lia. }
    lia. }
  simpl in H. lia.
Qed.

Lemma round_nearest_even_lower (m : Z) (l : location) :
  m <= round_nearest_even m l.
Proof. destruct l as [|[]]; cbn [round_nearest_even]; try lia. destruct (Z.even m); lia. Qed.

Lemma binary_round_aux_not_zero (s : bool) (m e : Z) (l : location) :
  0 < m -> emin prec emax <= e ->
  match binary_round_aux prec emax s m e l with
  | S754_finite _ _ e' => emin prec emax <= e'
  | S754_infinity _ => True
  | _ => False
  end.
Proof.
  intros Hm He. unfold binary_round_aux.
  pose proof (shr_fexp_lower m e l Hm He) as [H1 H2].
  destruct (shr_fexp prec emax m e l) as [mrs' e']. cbn [fst snd] in H1, H2.
  pose proof (round_nearest_even_lower (shr_m mrs') (loc_of_shr_record mrs')) as Hr.
  pose proof (shr_fexp_lower (round_nearest_even (shr_m mrs') (loc_of_shr_record mrs')) e' loc_Exact ltac:(lia) H2) as [H3 H4].
  destruct (shr_fexp prec emax _ e' loc_Exact) as [mrs'' e'']. cbn [fst snd] in H3, H4.
  destruct (shr_m mrs'') as [|q|q]; try lia.
  destruct (e'' <=? emax - prec); [exact H4|exact I].
Qed.

Lemma binary_round_not_zero (s : bool) (m : positive) (e : Z) :
  emin prec emax <= e ->
  match binary_round prec emax s m e with
  | S754_finite _ _ e' => emin prec emax <= e'
  | S754_infinity _ => True
  | _ => False
  end.
Proof.
  intros He. unfold binary_round, shl_align.
  assert (Hf : emin prec emax <= fexp prec emax (Z.pos (digits2_pos m) + e)).
  { unfold fexp. lia. }
  destruct (fexp prec emax (Z.pos (digits2_pos m) + e) - e);
    apply binary_round_aux_not_zero; lia.
Qed.

End Rounding.

Local Close Scope Z_scope.

(** [(float)n], widened to [double], is zero exactly when [n] is. *)
Lemma F_of_nat_zero_iff (n : nat) :
  feq (float_to_double (F_of_nat n)) (D_of_Z 0) = true <-> n = 0.
Proof.
  split.
  - intros H. destruct n as [|n]; [reflexivity|exfalso].
    unfold F_of_nat, F_of_Z, binary_normalize in H.
    cbn [Z.of_nat] in H.
    pose proof (binary_round_not_zero 24 128 eq_refl false
                  (Pos.of_succ_nat n) 0 ltac:(vm_compute; discriminate)) as H1.
    destruct (binary_round 24 128 false (Pos.of_succ_nat n) 0)
      as [|s1|  |s1 m1 e1] eqn:E1; try contradiction.
    + destruct s1; discriminate H.
    + unfold float_to_double, renorm, binary_normalize in H.
      assert (He : (emin 53 1024 <= e1)%Z).
      { unfold emin in *. lia. }
      pose proof (binary_round_not_zero 53 1024 eq_refl s1 m1 e1 He) as H2.
      destruct s1; cbn [cond_Zopp Z.opp] in H;
        destruct (binary_round 53 1024 _ m1 e1) as [|s2| |s2 m2 e2];
        try contradiction; destruct s2; discriminate H.
  - intros ->. reflexivity.
Qed.

(** ** FinddEdxLength *)

(** C1, as the code runs it.  With a cut of 10 the loop starts at index 2
    although indices 0, 1 and 2 were already appended, so the third value is
    kept twice: [1,1,1,1,1] comes back with six entries and [1,1,1,20,21]
    as [1,1,1,1]. *)
Theorem FinddEdxLength_cut10_examples :
  FinddEdxLength (F_of_Z 10) (map D_of_Z [1; 1; 1; 1; 1]%Z) []
    = map D_of_Z [1; 1; 1; 1; 1; 1]%Z
  /\ FinddEdxLength (F_of_Z 10) (map D_of_Z [1; 1; 1; 20; 21]%Z) []
    = map D_of_Z [1; 1; 1; 1]%Z.
Proof. split; vm_compute; reflexivity. Qed.

Lemma skipn_dEdx_at (dEdx_vec : list double) (i : nat) :
  i < length dEdx_vec ->
  skipn i dEdx_vec = dEdx_at dEdx_vec i :: skipn (S i) dEdx_vec.
Proof.
  revert i; induction dEdx_vec as [|d v IH]; intros i Hi; simpl in Hi.
  - lia.
  - destruct i as [|i]; [reflexivity|].
    simpl. rewrite IH by lia. reflexivity.
Qed.

(** As long as the values stay below the cut the loop keeps them all. *)
Lemma FinddEdxLength_loop_all_below (cut : float) (dEdx_vec : list double) :
  forall n dEdx_iter dEdx_val,
    dEdx_iter + n <= length dEdx_vec ->
    (forall i, dEdx_iter <= i < dEdx_iter + n ->
               below_cut cut (dEdx_at dEdx_vec i) = true) ->
    FinddEdxLength_loop cut false dEdx_vec n dEdx_iter dEdx_val
      = dEdx_val ++ firstn n (skipn dEdx_iter dEdx_vec).
Proof.
  induction n as [|n IH]; intros it acc Hlen Hbelow; simpl.
  - now rewrite app_nil_r.
  - rewrite (Hbelow it) by lia.
    rewrite IH; [|lia|intros i Hi; apply Hbelow; lia].
    rewrite (skipn_dEdx_at dEdx_vec it) by lia.
    simpl. now rewrite <- app_assoc.
Qed.

(** Every sequence of four or more values that all lie below a cut of at
    most 10 comes back one entry longer: its first three values, then the
    sequence again from its third value on. *)
Lemma FinddEdxLength_all_below (cut : float) (dEdx_vec : list double) :
  fgt cut (F_of_Z 10) = false ->
  4 <= length dEdx_vec ->
  (forall i, i < length dEdx_vec -> below_cut cut (dEdx_at dEdx_vec i) = true) ->
  FinddEdxLength cut dEdx_vec [] = firstn 3 dEdx_vec ++ skipn 2 dEdx_vec.
Proof.
  intros Hcut Hlen Hbelow.
  unfold FinddEdxLength. rewrite Hcut.
  destruct (Nat.ltb_spec (length dEdx_vec) 4) as [?|_]; [lia|].
  assert (Habove : forall i, i < length dEdx_vec ->
                             above_cut cut (dEdx_at dEdx_vec i) = false).
  { intros i Hi. unfold above_cut. rewrite fgt_flt.
    apply flt_asym. apply (Hbelow i Hi). }
  rewrite !Habove by lia. simpl (1 <? _).
  rewrite FinddEdxLength_loop_all_below; [|lia|intros i Hi; apply Hbelow; lia].
  rewrite firstn_all2 by (rewrite length_skipn; lia).
  f_equal.
  destruct dEdx_vec as [|a [|b [|c v]]]; simpl in Hlen; try lia.
  reflexivity.
Qed.

(** ** The dE/dx value of a plane *)

(** What the aggregation loop appends for one plane. *)
Lemma dEdx_values_per_plane (fUseMedian : bool) (median : list double -> double)
  (dEdx_vec_cut : PlaneProfile) :
  forall dEdx_val dEdx_valErr,
    fst (dEdx_values fUseMedian median dEdx_vec_cut dEdx_val dEdx_valErr)
    = dEdx_val ++
      map (fun dEdx_plane =>
             match snd dEdx_plane with
             | [] => D_of_Z (-999)
             | _ => if fUseMedian then median (snd dEdx_plane)
                    else dEdx_mean_value (snd dEdx_plane)
             end) dEdx_vec_cut.
Proof.
  induction dEdx_vec_cut as [|[plane v] rest IH]; intros val err; simpl.
  - now rewrite app_nil_r.
  - destruct v as [|d v]; [|destruct fUseMedian];
      rewrite IH, <- app_assoc; reflexivity.
Qed.

(** The sum of the mean leaves the unphysical values out. *)
Lemma dEdx_mean_sum_filter (dEdx_plane : list double) :
  forall acc,
    fold_left (fun dEdx_mean dEdx =>
                 if fgt dEdx (D_of_Z 10) || flt dEdx (D_of_Z 0) then dEdx_mean
                 else Dadd dEdx_mean dEdx) dEdx_plane acc
    = fold_left Dadd (filter physical dEdx_plane) acc.
Proof.
  induction dEdx_plane as [|d v IH]; intros acc; cbn [fold_left filter];
    [reflexivity|].
  unfold physical at 1.
  destruct (fgt d (D_of_Z 10) || flt d (D_of_Z 0)); cbn [negb fold_left];
    apply IH.
Qed.

(** What the mean mode reports: the sum of the physical values over the
    number of all values of the plane. *)
Lemma dEdx_mean_value_sum_over_all (dEdx_plane : list double) :
  dEdx_mean_value dEdx_plane
  = Ddiv (fold_left Dadd (filter physical dEdx_plane) (D_of_Z 0))
         (float_to_double (F_of_nat (length dEdx_plane))).
Proof. unfold dEdx_mean_value. now rewrite dEdx_mean_sum_filter. Qed.

(** When every value of the plane is physical, the reported value is the
    mean of the plane. *)
Lemma dEdx_mean_value_all_physical (dEdx_plane : list double) :
  forallb physical dEdx_plane = true ->
  dEdx_mean_value dEdx_plane = physical_mean dEdx_plane.
Proof.
  intros Hall. unfold dEdx_mean_value, physical_mean, arithmetic_mean.
  rewrite dEdx_mean_sum_filter.
  assert (Hf : filter physical dEdx_plane = dEdx_plane).
  { induction dEdx_plane as [|d v IH]; simpl in *; [reflexivity|].
    apply andb_true_iff in Hall. destruct Hall as [Hd Hv].
    rewrite Hd, IH by assumption. reflexivity. }
  now rewrite Hf.
Qed.

(** C4, as the code runs it.  With a cut of 999 nothing is
    trimmed, and for the plane [2, 20] the mean mode reports 2 / 2 = 1: the
    value 20 is left out of the sum but still counted in the divisor.  The
    mean of the physical values is 2.  A plane without values gets -999. *)
Theorem CalculateElement_mean_divides_by_all_values (median : list double -> double) :
  CalculateElement_dEdx (F_of_Z 999) false median [0; 1]%Z
                        [(0%Z, map D_of_Z [2; 20]%Z)]
    = ([D_of_Z 1; D_of_Z (-999)], [D_of_Z (-999)],
       [(0%Z, map D_of_Z [2; 20]%Z); (1%Z, [])])
  /\ physical_mean (map D_of_Z [2; 20]%Z) = D_of_Z 2.
Proof. split; vm_compute; reflexivity. Qed.

(** ** SpacePointCharge and SpacePointTime *)

Lemma fold_left_Dadd_map {A : Type} (g : A -> double) (l : list A) :
  forall acc,
    fold_left (fun sum a => Dadd sum (g a)) l acc = fold_left Dadd (map g l) acc.
Proof. induction l as [|a l IH]; intros acc; cbn [fold_left map]; [reflexivity|apply IH]. Qed.

(** C10.  Over the hits associated with the spacepoint, both functions
    return the arithmetic mean of the integrals (of the peak times); the
    divisor [(float)hits.size()] is zero exactly when there is no hit, and
    then the quotient 0/0 is what comes back, which is not a number. *)
Theorem SpacePointCharge_Time_mean_unless_no_hit
  (sp : SpacePointPtr) (fmh : FindManyP) (hits : list HitPtr) :
  nth_error fmh (key sp) = Some hits ->
  SpacePointCharge sp fmh
    = Value (arithmetic_mean (map (fun hit => float_to_double (Integral (get hit))) hits))
  /\ SpacePointTime sp fmh
    = Value (arithmetic_mean (map (fun hit => float_to_double (PeakTime (get hit))) hits))
  /\ (feq (float_to_double (F_of_nat (length hits))) (D_of_Z 0) = true <-> hits = [])
  /\ (hits = [] ->
      SpacePointCharge sp fmh = Value NaN /\ SpacePointTime sp fmh = Value NaN).
Proof.
  intros Hat.
  assert (HC : SpacePointCharge sp fmh
    = Value (arithmetic_mean (map (fun hit => float_to_double (Integral (get hit))) hits))).
  { unfold SpacePointCharge, fmh_at, arithmetic_mean. rewrite Hat. cbn [bind].
    now rewrite fold_left_Dadd_map, length_map. }
  assert (HT : SpacePointTime sp fmh
    = Value (arithmetic_mean (map (fun hit => float_to_double (PeakTime (get hit))) hits))).
  { unfold SpacePointTime, fmh_at, arithmetic_mean. rewrite Hat. cbn [bind].
    now rewrite fold_left_Dadd_map, length_map. }
  repeat split; try assumption.
  - intros H. apply F_of_nat_zero_iff in H. now apply length_zero_iff_nil.
  - intros ->. reflexivity.
  - subst hits. rewrite HC. reflexivity.
  - subst hits. rewrite HT. reflexivity.
Qed.

Lemma SpacePointCharge_Time_mean_unless_no_hit_witness :
  let sp : SpacePointPtr := spacepoint_at 0 1 2 3 in
  let hits := [hit_with 0 4 10; hit_with 1 8 30] in
  SpacePointCharge sp [hits] = Value (D_of_Z 6)
  /\ SpacePointTime sp [hits] = Value (D_of_Z 20).
Proof.
  intros sp hits.
  destruct (SpacePointCharge_Time_mean_unless_no_hit sp [hits] hits eq_refl)
    as (HC & HT & _).
  split; [rewrite HC|rewrite HT]; vm_compute; reflexivity.
Defined.

(** ** ShowerCentre, all-plane averaging *)

Section ShowerCentre_facts.

Variables (sampling_rate ElectronLifetime : double) (std_exp : double -> double).

Local Abbreviation trim :=
  (ShowerCentre_trim sampling_rate ElectronLifetime std_exp).

(** The trimming loop only ever counts up, and a count of zero means that
    nothing was added to the charge. *)
Lemma ShowerCentre_trim_count (mean rms : float) (hits : list HitPtr) :
  forall charge n,
    n <= snd (trim mean rms hits charge n) /\
    (snd (trim mean rms hits charge n) = 0 ->
     fst (trim mean rms hits charge n) = charge).
Proof.
  induction hits as [|hit rest IH]; intros charge n; cbn [ShowerCentre_trim].
  - cbn [fst snd]. split; [lia|reflexivity].
  - destruct (_ && _).
    + destruct (IH (double_to_float
                      (Dadd (float_to_double charge)
                            (corrected_integral sampling_rate ElectronLifetime std_exp hit)))
                   (S n)) as [Hle _].
      split; [lia|intros H0; lia].
    + apply IH.
Qed.

End ShowerCentre_facts.

(** C2, as the code runs it.  When no hit of a spacepoint passes the trim,
    the warning is logged and the charge is then divided by the count 0:
    the spacepoint's charge is 0/0, not a number, rather than zero.  For a
    shower of this one spacepoint the call returns, but the centre and the
    total charge are not numbers either, and the zero-charge warning is not
    logged. *)
Theorem ShowerCentre_charge_nothing_within_trim
  (sampling_rate ElectronLifetime : double) (std_exp : double -> double)
  (hits : list HitPtr) (sp : SpacePointPtr) :
  ShowerCentre_trimmed_count false sampling_rate ElectronLifetime std_exp hits = 0 ->
  key sp = 0 ->
  ShowerCentre_charge false sampling_rate ElectronLifetime std_exp hits
    = (NaN, [no_points_warning])
  /\ ShowerCentre false sampling_rate ElectronLifetime std_exp [sp] [hits] (F_of_Z 0)
    = Value (mkXYZ NaN NaN NaN, NaN, [no_points_warning]).
Proof.
  intros Hn Hk.
  assert (Hcharge : ShowerCentre_charge false sampling_rate ElectronLifetime std_exp hits
                    = (NaN, [no_points_warning])).
  { revert Hn. unfold ShowerCentre_trimmed_count, ShowerCentre_charge.
    destruct (ShowerCentre_sums false sampling_rate ElectronLifetime std_exp hits
                (F_of_Z 0) (F_of_Z 0)) as [charge charge2].
    cbv beta iota.
    set (mean := Fdiv charge (F_of_nat (length hits))).
    set (rms := ShowerCentre_rms (length hits) charge charge2).
    intros Hn.
    destruct (ShowerCentre_trim_count sampling_rate ElectronLifetime std_exp
                mean rms hits (F_of_Z 0) 0) as [_ Hc].
    specialize (Hc Hn).
    destruct (ShowerCentre_trim sampling_rate ElectronLifetime std_exp
                mean rms hits (F_of_Z 0) 0) as [c n].
    cbn [fst snd] in Hn, Hc. subst c n. reflexivity. }
  split; [exact Hcharge|].
  unfold ShowerCentre. cbn [ShowerCentre_loop]. rewrite Hk.
  cbn [fmh_at nth_error bind]. rewrite Hcharge. reflexivity.
Qed.

(** Two hits with corrected integrals 1 and 3 on one spacepoint: the spread
    is not a number, so no hit passes the trim. *)
Lemma ShowerCentre_charge_nothing_within_trim_witness :
  let hits := [hit_with 0 1 0; hit_with 1 3 0] in
  ShowerCentre_charge false (D_of_Z 1) (D_of_Z 1) (fun _ => D_of_Z 1) hits
    = (NaN, [no_points_warning])
  /\ ShowerCentre false (D_of_Z 1) (D_of_Z 1) (fun _ => D_of_Z 1)
                  [spacepoint_at 0 1 2 3] [hits] (F_of_Z 0)
    = Value (mkXYZ NaN NaN NaN, NaN, [no_points_warning]).
Proof.
  intros hits.
  apply (ShowerCentre_charge_nothing_within_trim
           (D_of_Z 1) (D_of_Z 1) (fun _ => D_of_Z 1) hits (spacepoint_at 0 1 2 3)).
  - vm_compute. reflexivity.
  - reflexivity.
Defined.

(** C3, as the code runs it.  For two hits with corrected integrals 1 and
    3 the code takes the square root of (1 + 9 - 4 * 4) / 1 = -6, so the
    spread is not a number; the unbiased sample standard deviation of 1
    and 3 is the square root of 2. *)
Theorem ShowerCentre_spread_not_sample_deviation
  (sampling_rate ElectronLifetime : double) (std_exp : double -> double)
  (hit1 hit2 : HitPtr) :
  corrected_integral sampling_rate ElectronLifetime std_exp hit1 = D_of_Z 1 ->
  corrected_integral sampling_rate ElectronLifetime std_exp hit2 = D_of_Z 3 ->
  ShowerCentre_spread false sampling_rate ElectronLifetime std_exp [hit1; hit2] = NaN
  /\ unbiased_sample_sd [D_of_Z 1; D_of_Z 3] = Dsqrt (D_of_Z 2).
Proof.
  intros H1 H2. split.
  - unfold ShowerCentre_spread. cbn [ShowerCentre_sums]. rewrite H1, H2.
    vm_compute. reflexivity.
  - vm_compute. reflexivity.
Qed.

Lemma ShowerCentre_spread_not_sample_deviation_witness :
  ShowerCentre_spread false (D_of_Z 1) (D_of_Z 1) (fun _ => D_of_Z 1)
                      [hit_with 0 1 0; hit_with 1 3 0] = NaN
  /\ unbiased_sample_sd [D_of_Z 1; D_of_Z 3] = Dsqrt (D_of_Z 2).
Proof.
  apply (ShowerCentre_spread_not_sample_deviation
           (D_of_Z 1) (D_of_Z 1) (fun _ => D_of_Z 1)
           (hit_with 0 1 0) (hit_with 1 3 0)); vm_compute; reflexivity.
Defined.

(** ** SpacePointProjection and SpacePointPerpendicular *)

(** In [double] arithmetic a square root is never below zero, so neither is
    a perpendicular distance (it may fail to be a number). *)
Lemma binary_round_aux_sign (prec emax : Z) (s : bool) (m e : Z) (l : location) :
  match binary_round_aux prec emax s m e l with
  | S754_zero s' | S754_infinity s' | S754_finite s' _ _ => s' = s
  | S754_nan => True
  end.
Proof.
  unfold binary_round_aux.
  destruct (shr_fexp prec emax m e l) as [mrs' e'].
  destruct (shr_fexp prec emax _ e' loc_Exact) as [mrs'' e''].
  destruct (shr_m mrs''); [reflexivity| |exact I].
  destruct (Z.leb e'' (emax - prec)); reflexivity.
Qed.

Lemma Dsqrt_not_negative (x : double) : flt (Dsqrt x) (D_of_Z 0) = false.
Proof.
  unfold Dsqrt, SFsqrt.
  destruct x as [s|s| |s m e];
    [destruct s; reflexivity|destruct s; reflexivity|reflexivity|].
  destruct s; [reflexivity|].
  destruct (SFsqrt_core_binary 53 1024 (Z.pos m) e) as [[mz ez] lz].
  pose proof (binary_round_aux_sign 53 1024 false mz ez lz) as H.
  destruct (binary_round_aux 53 1024 false mz ez lz) as [s'|s'| |s' m' e'];
    try subst s'; reflexivity.
Qed.


(** ** RMSShowerGradient *)

(** C5.  A segment count of 0 throws whatever the spacepoints are; with a
    positive segment count, fewer than three spacepoints give the value 0
    and leave the spacepoints as they were. *)
Theorem RMSShowerGradient_guards
  (ShowerCentre : Point_t) (Direction : Vector_t)
  (sps : list SpacePointPtr) (nSegments : nat) :
  RMSShowerGradient ShowerCentre Direction sps 0
    = Exception "Unable to calculate RMS Shower Gradient with 0 segments"
  /\ (nSegments <> 0 -> length sps < 3 ->
      RMSShowerGradient ShowerCentre Direction sps nSegments
        = Value (D_of_Z 0, sps)).
Proof.
  split; [reflexivity|].
  intros Hn Hlen. unfold RMSShowerGradient.
  destruct (Nat.eqb_spec nSegments 0) as [?|_]; [contradiction|].
  destruct (Nat.ltb_spec (length sps) 3) as [_|?]; [reflexivity|lia].
Qed.

(** With a segment count of 2, two spacepoints give the value 0. *)
Lemma RMSShowerGradient_guards_witness :
  let centre : Point_t := mkXYZ (D_of_Z 0) (D_of_Z 0) (D_of_Z 0) in
  let axis : Vector_t := mkXYZ (D_of_Z 1) (D_of_Z 0) (D_of_Z 0) in
  let sps := [spacepoint_at 0 1 1 0; spacepoint_at 1 2 0 1] in
  RMSShowerGradient centre axis sps 2 = Value (D_of_Z 0, sps).
Proof.
  intros centre axis sps.
  apply (proj2 (RMSShowerGradient_guards centre axis sps 2)).
  - discriminate.
  - cbn. lia.
Defined.

(** ** std::map *)

Section StdMap_facts.

Context {K V : Type} (less : K -> K -> bool).

(** Where an entry of [m[k] = f(m[k])] comes from: it was there before, or
    it is the new entry for [k], or it is the entry found for [k], whose key
    is neither less nor greater than [k]. *)
Lemma subscript_update_In (k : K) (f : option V -> V) (m : list (K * V)) :
  forall k' v,
    In (k', v) (subscript_update less k f m) ->
    In (k', v) m
    \/ (k' = k /\ v = f None)
    \/ (exists v0, In (k', v0) m /\ v = f (Some v0)
                   /\ less k' k = false /\ less k k' = false).
Proof.
  induction m as [|[k1 v1] m IH]; intros k' v Hin; cbn [subscript_update] in Hin.
  - destruct Hin as [Heq|[]]. inversion Heq; subst. right; left; auto.
  - destruct (less k1 k) eqn:E1.
    + destruct Hin as [Heq|Hin]; [left; left; exact Heq|].
      destruct (IH _ _ Hin) as [H|[H|(v0 & H & Hv & Hl)]].
      * left; right; exact H.
      * right; left; exact H.
      * right; right. exists v0. split; [right; exact H|auto].
    + destruct (less k k1) eqn:E2.
      * destruct Hin as [Heq|Hin]; [|left; exact Hin].
        inversion Heq; subst. right; left; auto.
      * destruct Hin as [Heq|Hin]; [|left; right; exact Hin].
        inversion Heq; subst. right; right. exists v1.
        split; [left; reflexivity|auto].
Qed.

(** No key is lost. *)
Lemma subscript_update_keeps_keys (k : K) (f : option V -> V) (m : list (K * V)) :
  forall k' v, In (k', v) m -> exists v', In (k', v') (subscript_update less k f m).
Proof.
  induction m as [|[k1 v1] m IH]; intros k' v Hin; [destruct Hin|].
  cbn [subscript_update].
  destruct (less k1 k) eqn:E1.
  - destruct Hin as [Heq|Hin].
    + exists v. left; exact Heq.
    + destruct (IH _ _ Hin) as [v' Hv']. exists v'. right; exact Hv'.
  - destruct (less k k1) eqn:E2.
    + exists v. right; exact Hin.
    + destruct Hin as [Heq|Hin].
      * inversion Heq; subst. exists (f (Some v)). left; reflexivity.
      * exists v. right; exact Hin.
Qed.

(** After [m[k] = ...] there is an entry for [k]: under [k] itself or under
    a key that is neither less nor greater. *)
Lemma subscript_update_has_key (k : K) (f : option V -> V) (m : list (K * V)) :
  exists k' v,
    In (k', v) (subscript_update less k f m)
    /\ (k' = k \/ (less k' k = false /\ less k k' = false)).
Proof.
  induction m as [|[k1 v1] m IH]; cbn [subscript_update].
  - exists k, (f None). split; [left; reflexivity|left; reflexivity].
  - destruct (less k1 k) eqn:E1.
    + destruct IH as (k' & v & Hin & Hk). exists k', v. split; [right; exact Hin|exact Hk].
    + destruct (less k k1) eqn:E2.
      * exists k, (f None). split; [left; reflexivity|left; reflexivity].
      * exists k1, (f (Some v1)). split; [left; reflexivity|right; auto].
Qed.

Lemma subscript_update_not_empty (k : K) (f : option V -> V) (m : list (K * V)) :
  subscript_update less k f m <> [].
Proof.
  destruct m as [|[k1 v1] m]; cbn [subscript_update]; [discriminate|].
  destruct (less k1 k); [discriminate|]. destruct (less k k1); discriminate.
Qed.

Hypothesis less_trans :
  forall x y z, less x y = true -> less y z = true -> less x z = true.

(** The entries stay in ascending key order. *)
Lemma subscript_update_ascending (k : K) (f : option V -> V) (m : list (K * V)) :
  keys_ascending less m -> keys_ascending less (subscript_update less k f m).
Proof.
  unfold keys_ascending.
  induction m as [|[k1 v1] m IH]; intros Hs; cbn [subscript_update].
  - repeat constructor.
  - apply StronglySorted_inv in Hs. destruct Hs as [Hs Hall].
    destruct (less k1 k) eqn:E1.
    + constructor; [apply IH; exact Hs|].
      apply Forall_forall. intros [k' v'] Hin. cbn [fst].
      destruct (subscript_update_In _ _ _ _ _ Hin) as [H|[[-> _]|(v0 & H & _)]].
      * rewrite Forall_forall in Hall. apply (Hall _ H).
      * exact E1.
      * rewrite Forall_forall in Hall. apply (Hall _ H).
    + destruct (less k k1) eqn:E2.
      * constructor; [constructor; assumption|].
        constructor; [exact E2|].
        rewrite Forall_forall in *. intros [k' v'] Hin. cbn [fst].
        apply less_trans with k1; [exact E2|]. apply (Hall _ Hin).
      * constructor; assumption.
Qed.

End StdMap_facts.

(** ** OrderShowerSpacePoints *)

(** Type abbreviations are unfolded before arithmetic is decided, so that
    equal lengths are recognised as such. *)
Ltac unalias :=
  cbv beta delta [std_map double float SpacePointPtr HitPtr Point_t Vector_t
                  FindManyP PlaneSnippets OrganizedHits] in *.

Lemma StronglySorted_nth_error {A : Type} (R : A -> A -> Prop) (l : list A) :
  StronglySorted R l ->
  forall i j a b, i < j -> nth_error l i = Some a -> nth_error l j = Some b -> R a b.
Proof.
  induction 1 as [|x l Hs IH Hall]; intros i j a b Hij Ha Hb.
  - destruct i; discriminate Ha.
  - destruct j as [|j]; [lia|]. cbn [nth_error] in Hb.
    destruct i as [|i]; cbn [nth_error] in Ha.
    + inversion Ha; subst. rewrite Forall_forall in Hall.
      apply Hall. eapply nth_error_In; eassumption.
    + apply (IH i j); [lia|assumption|assumption].
Qed.

Section order_by_facts.

Variable len_of : SpacePointPtr -> double.

Lemma order_by_snoc (l : list SpacePointPtr) (sp : SpacePointPtr) :
  order_by len_of (l ++ [sp])
  = subscript_assign flt (len_of sp) sp (order_by len_of l).
Proof. unfold order_by. now rewrite fold_left_app. Qed.

(** The map built from spacepoints whose ordering value is a number: keys
    ascend, every entry holds one of the spacepoints under a key equal to
    its ordering value, and every ordering value has its entry. *)
Lemma order_by_invariant (l : list SpacePointPtr) :
  (forall sp, In sp l -> is_nan (len_of sp) = false) ->
  keys_ascending flt (order_by len_of l)
  /\ (forall k v, In (k, v) (order_by len_of l) ->
                  In v l /\ feq k (len_of v) = true)
  /\ (forall sp, In sp l ->
                 exists k v, In (k, v) (order_by len_of l)
                             /\ feq k (len_of sp) = true).
Proof.
  induction l as [|sp l IH] using rev_ind; intros Hnan.
  - split; [constructor|]. split; [intros k v []|intros sp []].
  - destruct IH as (Hs & Hv & Hc).
    { intros p Hp. apply Hnan, in_or_app. left; exact Hp. }
    assert (Hsp : is_nan (len_of sp) = false).
    { apply Hnan, in_or_app. right; left; reflexivity. }
    rewrite order_by_snoc. unfold subscript_assign.
    assert (Hv' : forall k v,
               In (k, v) (subscript_update flt (len_of sp) (fun _ => sp)
                                           (order_by len_of l)) ->
               In v (l ++ [sp]) /\ feq k (len_of v) = true).
    { intros k v Hin.
      destruct (subscript_update_In _ _ _ _ _ _ Hin)
        as [H|[[-> ->]|(v0 & H & -> & Hl1 & Hl2)]].
      - destruct (Hv _ _ H) as [H1 H2]. split; [apply in_or_app; left|]; assumption.
      - split; [apply in_or_app; right; left; reflexivity|].
        apply feq_refl; exact Hsp.
      - split; [apply in_or_app; right; left; reflexivity|].
        destruct (Hv _ _ H) as [_ H2]. apply feq_not_nan in H2.
        apply feq_of_not_flt; tauto. }
    split; [apply subscript_update_ascending; [exact flt_trans|exact Hs]|].
    split; [exact Hv'|].
    intros p Hp. apply in_app_or in Hp. destruct Hp as [Hp|[<-|[]]].
    + destruct (Hc _ Hp) as (k & v & Hin & Hk).
      destruct (subscript_update_keeps_keys flt (len_of sp) (fun _ => sp) _ _ _ Hin)
        as [v' Hin'].
      exists k, v'. split; assumption.
    + destruct (subscript_update_has_key flt (len_of sp) (fun _ => sp)
                                         (order_by len_of l))
        as (k & v & Hin & Hk).
      exists k, v. split; [exact Hin|].
      destruct Hk as [->|[Hl1 Hl2]]; [apply feq_refl; exact Hsp|].
      destruct (Hv' _ _ Hin) as [_ H2]. apply feq_not_nan in H2.
      apply feq_of_not_flt; tauto.
Qed.

(** Read off the values: ordering values strictly ascend along the
    result. *)
Lemma mapped_values_ascending (m : list (double * SpacePointPtr)) :
  keys_ascending flt m ->
  (forall k v, In (k, v) m -> feq k (len_of v) = true) ->
  StronglySorted (fun a b => flt (len_of a) (len_of b) = true) (mapped_values m).
Proof.
  unfold keys_ascending, mapped_values.
  induction m as [|[k v] m IH]; intros Hs Hv; cbn [map]; [constructor|].
  apply StronglySorted_inv in Hs. destruct Hs as [Hs Hall].
  constructor.
  - apply IH; [exact Hs|]. intros k' v' Hin. apply Hv. right; exact Hin.
  - rewrite Forall_forall in *. intros v' Hin'.
    apply in_map_iff in Hin'. destruct Hin' as ([k' v''] & Heq & Hin'').
    cbn [snd] in Heq. subst v''.
    specialize (Hall _ Hin''). cbn [fst snd] in *.
    apply feq_flt_trans with k; [apply feq_sym, Hv; left; reflexivity|].
    apply flt_feq_trans with k'; [exact Hall|]. apply Hv. right; exact Hin''.
Qed.

(** Assigning under a key that is already present adds no entry. *)
Lemma subscript_update_present_length (k : double) (f : option SpacePointPtr -> SpacePointPtr)
  (m : list (double * SpacePointPtr)) :
  keys_ascending flt m ->
  (exists k' v, In (k', v) m /\ feq k' k = true) ->
  length (subscript_update flt k f m) = length m.
Proof.
  unfold keys_ascending.
  induction m as [|[k1 v1] m IH]; intros Hs (k' & v & Hin & Hk).
  - destruct Hin.
  - apply StronglySorted_inv in Hs. destruct Hs as [Hs Hall].
    rewrite Forall_forall in Hall.
    cbn [subscript_update].
    destruct (flt k1 k) eqn:E1.
    + cbn [length]. f_equal. apply IH; [exact Hs|].
      destruct Hin as [Heq|Hin]; [|exists k', v; split; assumption].
      inversion Heq; subst. apply flt_not_feq in E1. congruence.
    + destruct (flt k k1) eqn:E2; [exfalso|reflexivity].
      destruct Hin as [Heq|Hin].
      * inversion Heq; subst. apply flt_not_feq in E2. apply feq_sym in Hk. congruence.
      * specialize (Hall _ Hin). cbn [fst] in Hall.
        rewrite (flt_feq_trans _ _ _ Hall Hk) in E1. discriminate.
Qed.

Lemma subscript_update_length_le (k : double) (f : option SpacePointPtr -> SpacePointPtr)
  (m : list (double * SpacePointPtr)) :
  length (subscript_update flt k f m) <= S (length m).
Proof.
  induction m as [|[k1 v1] m IH]; cbn [subscript_update]; [cbn; lia|].
  destruct (flt k1 k); [cbn [length]; lia|].
  destruct (flt k k1); cbn [length]; unalias; lia.
Qed.

(** As soon as two of the spacepoints have equal ordering values, the map
    has fewer entries than there are spacepoints. *)
Lemma order_by_length (l : list SpacePointPtr) :
  (forall sp, In sp l -> is_nan (len_of sp) = false) ->
  length (order_by len_of l) <= length l
  /\ (forall i j a b, i < j -> nth_error l i = Some a -> nth_error l j = Some b ->
                      feq (len_of a) (len_of b) = true ->
                      length (order_by len_of l) < length l).
Proof.
  induction l as [|sp l IH] using rev_ind; intros Hnan.
  - split; [cbn; lia|]. intros i j a b _ Ha. destruct i; discriminate Ha.
  - assert (Hnan' : forall p, In p l -> is_nan (len_of p) = false).
    { intros p Hp. apply Hnan, in_or_app. left; exact Hp. }
    destruct (IH Hnan') as [Hle Hlt].
    destruct (order_by_invariant l Hnan') as (Hs & Hv & Hc).
    rewrite order_by_snoc, length_app. cbn [length]. unfold subscript_assign.
    pose proof (subscript_update_length_le (len_of sp) (fun _ => sp)
                                           (order_by len_of l)) as Hle1.
    unalias.
    split; [lia|].
    intros i j a b Hij Ha Hb Heq.
    assert (Hj : j < length (l ++ [sp])) by (apply nth_error_Some; congruence).
    rewrite length_app in Hj. cbn [length] in Hj.
    destruct (Nat.eq_dec j (length l)) as [->|Hne].
    + rewrite nth_error_app2, Nat.sub_diag in Hb by lia. cbn in Hb.
      inversion Hb; subst b.
      rewrite nth_error_app1 in Ha by lia.
      destruct (Hc a (nth_error_In _ _ Ha)) as (k & v & Hin & Hk).
      rewrite subscript_update_present_length; [unalias; lia|exact Hs|].
      exists k, v. split; [exact Hin|]. apply feq_trans with (len_of a); assumption.
    + rewrite nth_error_app1 in Ha, Hb by lia.
      specialize (Hlt i j a b Hij Ha Hb Heq). lia.
Qed.

End order_by_facts.

(** C8.  For spacepoints whose projections are numbers, the ordered result
    consists of input spacepoints, its projections strictly ascend, every
    projection value of the input is present, and no two positions of the
    result hold equal projections: one spacepoint is kept per distinct
    projection value.  The others are gone: when two input positions have
    equal projections, the result is shorter than the input. *)
Theorem OrderShowerSpacePoints_one_per_projection
  (vertex : Point_t) (direction : Vector_t) (showersps : list SpacePointPtr) :
  let proj := fun sp => SpacePointProjection double_arith sp vertex direction in
  let ordered := OrderShowerSpacePoints vertex direction showersps in
  (forall sp, In sp showersps -> is_nan (proj sp) = false) ->
  (forall sp, In sp ordered -> In sp showersps)
  /\ StronglySorted (fun a b => flt (proj a) (proj b) = true) ordered
  /\ (forall sp, In sp showersps ->
                 exists sp', In sp' ordered /\ feq (proj sp') (proj sp) = true)
  /\ (forall i j a b, i <> j ->
                      nth_error ordered i = Some a -> nth_error ordered j = Some b ->
                      feq (proj a) (proj b) = false)
  /\ (forall i j a b, i < j ->
                      nth_error showersps i = Some a -> nth_error showersps j = Some b ->
                      feq (proj a) (proj b) = true ->
                      length ordered < length showersps).
Proof.
  intros proj ordered Hnan.
  destruct (order_by_invariant proj showersps Hnan) as (Hs & Hv & Hc).
  assert (Hsorted : StronglySorted (fun a b => flt (proj a) (proj b) = true) ordered).
  { apply mapped_values_ascending; [exact Hs|]. intros k v Hin. apply (Hv _ _ Hin). }
  split; [|split; [exact Hsorted|split; [|split]]];
    [| | |unfold ordered, OrderShowerSpacePoints, mapped_values;
          rewrite length_map; apply (order_by_length proj showersps Hnan)].
  - intros sp Hin. apply in_map_iff in Hin. destruct Hin as ([k v] & Heq & Hin).
    cbn [snd] in Heq. subst v. apply (Hv _ _ Hin).
  - intros sp Hin. destruct (Hc _ Hin) as (k & v & Hkv & Hk).
    exists v. split.
    + apply in_map_iff. exists (k, v). split; [reflexivity|exact Hkv].
    + apply feq_trans with k; [apply feq_sym; apply (Hv _ _ Hkv)|exact Hk].
  - intros i j a b Hij Ha Hb.
    destruct (Nat.lt_total i j) as [Hlt|[Heq|Hgt]]; [|contradiction|].
    + apply flt_not_feq.
      apply (StronglySorted_nth_error _ _ Hsorted i j a b Hlt Ha Hb).
    + pose proof (StronglySorted_nth_error _ _ Hsorted j i b a Hgt Hb Ha) as Hlt.
      cbv beta in Hlt. apply flt_not_feq in Hlt.
      destruct (feq (proj a) (proj b)) eqn:E; [|reflexivity].
      apply feq_sym in E. congruence.
Qed.

(** Three spacepoints along x; the first two project onto 1 and only the
    later of them is kept. *)
Lemma OrderShowerSpacePoints_one_per_projection_witness :
  let vertex : Point_t := mkXYZ (D_of_Z 0) (D_of_Z 0) (D_of_Z 0) in
  let direction : Vector_t := mkXYZ (D_of_Z 1) (D_of_Z 0) (D_of_Z 0) in
  let showersps := [spacepoint_at 0 1 5 0; spacepoint_at 1 1 (-2) 7; spacepoint_at 2 (-3) 0 0] in
  OrderShowerSpacePoints vertex direction showersps
    = [spacepoint_at 2 (-3) 0 0; spacepoint_at 1 1 (-2) 7]
  /\ forall sp, In sp (OrderShowerSpacePoints vertex direction showersps) ->
                In sp showersps.
Proof.
  intros vertex direction showersps.
  split; [vm_compute; reflexivity|].
  refine (proj1 (OrderShowerSpacePoints_one_per_projection vertex direction showersps _)).
  intros sp [<-|[<-|[<-|[]]]]; vm_compute; reflexivity.
Defined.

(** ** OrderShowerHits *)

Lemma PlaneID_neq_false (a b : PlaneID) : PlaneID_neq a b = false <-> a = b.
Proof.
  destruct a as [[c1 t1] p1], b as [[c2 t2] p2]. unfold PlaneID_neq.
  rewrite negb_false_iff, !andb_true_iff, !Nat.eqb_eq.
  split; [intros [[-> ->] ->]; reflexivity|intros H; inversion H; auto].
Qed.

Section OrderShowerHits_facts.

Variable WirePitch : PlaneID -> double.
Variable WireCoordinate : Point_t -> PlaneID -> double.
Variable GetIncreasingWireDirection : PlaneID -> Vector_t.
Variable ConvertTicksToX : float -> PlaneID -> double.

Local Abbreviation loop := (OrderShowerHits_loop WirePitch ConvertTicksToX).

(** Every hit that the loop stores is one of the hits it was given and lies
    on the plane of the first hit. *)
Lemma OrderShowerHits_loop_values (startPlane : PlaneID) (start dir : TVector2)
  (hits : list HitPtr) :
  forall OrderedHits hit,
    In hit (mapped_values (loop startPlane start dir hits OrderedHits)) ->
    In hit (mapped_values OrderedHits)
    \/ (In hit hits /\ asPlaneID (hit_WireID (get hit)) = startPlane).
Proof.
  induction hits as [|h rest IH]; intros m hit Hin; cbn [OrderShowerHits_loop] in Hin.
  - left; exact Hin.
  - destruct (PlaneID_neq (asPlaneID (hit_WireID (get h))) startPlane) eqn:E.
    + left; exact Hin.
    + apply PlaneID_neq_false in E.
      destruct (IH _ _ Hin) as [H|[H1 H2]]; [|right; split; [right|]; assumption].
      unfold mapped_values in H. apply in_map_iff in H.
      destruct H as ([k v] & Heq & H). cbn [snd] in Heq. subst v.
      destruct (subscript_update_In _ _ _ _ _ _ H) as [H'|[[_ ->]|(v0 & _ & -> & _)]].
      * left. apply in_map_iff. exists (k, hit). split; [reflexivity|exact H'].
      * right. split; [left; reflexivity|exact E].
      * right. split; [left; reflexivity|exact E].
Qed.

(** The loop never empties the map. *)
Lemma OrderShowerHits_loop_not_empty (startPlane : PlaneID) (start dir : TVector2)
  (hits : list HitPtr) :
  forall OrderedHits,
    OrderedHits <> [] -> loop startPlane start dir hits OrderedHits <> [].
Proof.
  induction hits as [|h rest IH]; intros m Hm; cbn [OrderShowerHits_loop];
    [exact Hm|].
  destruct (PlaneID_neq _ startPlane); [exact Hm|].
  apply IH, subscript_update_not_empty.
Qed.

(** Whatever follows the first hit of another plane is not looked at. *)
Lemma OrderShowerHits_loop_stops (startPlane : PlaneID) (start dir : TVector2)
  (pre : list HitPtr) (other : HitPtr) (tail : list HitPtr) :
  asPlaneID (hit_WireID (get other)) <> startPlane ->
  (forall h, In h pre -> asPlaneID (hit_WireID (get h)) = startPlane) ->
  forall OrderedHits,
    loop startPlane start dir (pre ++ other :: tail) OrderedHits
    = loop startPlane start dir pre OrderedHits.
Proof.
  intros Hother. induction pre as [|h pre IH]; intros Hpre m;
    cbn [app OrderShowerHits_loop].
  - destruct (PlaneID_neq _ startPlane) eqn:E; [reflexivity|].
    apply PlaneID_neq_false in E. contradiction.
  - destruct (PlaneID_neq _ startPlane) eqn:E; [reflexivity|].
    apply IH. intros h' Hh'. apply Hpre. right; exact Hh'.
Qed.

(** C7.  For a hit list that is not empty the call returns; everything it
    returns is a hit of the input on the plane of the first hit; and from
    the first hit of another plane on the input is ignored, so the call
    returns what it returns for the hits before it. *)
Theorem OrderShowerHits_keeps_first_plane_only
  (startHit : HitPtr) (rest : list HitPtr)
  (ShowerStartPosition : Point_t) (ShowerDirection : Vector_t) :
  let order := fun hits =>
    OrderShowerHits WirePitch WireCoordinate GetIncreasingWireDirection
                    ConvertTicksToX hits ShowerStartPosition ShowerDirection in
  let plane_of := fun hit : HitPtr => asPlaneID (hit_WireID (get hit)) in
  (exists showerHits,
      order (startHit :: rest) = Value showerHits
      /\ forall hit, In hit showerHits ->
                     In hit (startHit :: rest) /\ plane_of hit = plane_of startHit)
  /\ (forall pre other tail,
         rest = pre ++ other :: tail ->
         plane_of other <> plane_of startHit ->
         (forall h, In h pre -> plane_of h = plane_of startHit) ->
         order (startHit :: rest) = order (startHit :: pre)).
Proof.
  intros order plane_of. split.
  - unfold order, OrderShowerHits.
    set (planeid := asPlaneID (hit_WireID (get startHit))).
    set (start2D := (Dmul (WireCoordinate ShowerStartPosition planeid) (WirePitch planeid),
                     fX ShowerStartPosition)).
    set (dir2D := TVector2_Unit _).
    set (m := OrderShowerHits_loop _ _ planeid start2D dir2D (startHit :: rest) []).
    assert (Hval : forall hit, In hit (mapped_values m) ->
                               In hit (startHit :: rest) /\ plane_of hit = planeid).
    { intros hit Hin.
      destruct (OrderShowerHits_loop_values planeid start2D dir2D _ _ _ Hin)
        as [[]|H]; exact H. }
    assert (Hne : mapped_values m <> []).
    { unfold mapped_values. intros Hnil. apply map_eq_nil in Hnil. revert Hnil.
      unfold m. cbn [OrderShowerHits_loop].
      replace (PlaneID_neq (asPlaneID (hit_WireID (get startHit))) planeid) with false
        by (symmetry; apply PlaneID_neq_false; reflexivity).
      apply OrderShowerHits_loop_not_empty, subscript_update_not_empty. }
    destruct (mapped_values m) as [|frontHit showerHits] eqn:Em; [contradiction|].
    destruct (rev (frontHit :: showerHits)) as [|backHit others] eqn:Er.
    { apply (f_equal (@length _)) in Er. rewrite length_rev in Er. discriminate Er. }
    destruct (flt _ _).
    + exists (backHit :: others). split; [reflexivity|].
      intros hit Hin. apply Hval. rewrite <- Er in Hin. apply in_rev in Hin. exact Hin.
    + exists (frontHit :: showerHits). split; [reflexivity|exact Hval].
  - intros pre other tail -> Hother Hpre.
    unfold order, OrderShowerHits. cbn [OrderShowerHits_loop].
    replace (PlaneID_neq (asPlaneID (hit_WireID (get startHit)))
                         (asPlaneID (hit_WireID (get startHit)))) with false
      by (symmetry; apply PlaneID_neq_false; reflexivity).
    rewrite (OrderShowerHits_loop_stops _ _ _ pre other tail Hother Hpre).
    reflexivity.
Qed.

End OrderShowerHits_facts.

(** Two hits of plane 0, one of plane 1 and another of plane 0, in a
    geometry of unit wire pitch with wires counted along z. *)
Lemma OrderShowerHits_keeps_first_plane_only_witness :
  let order := fun hits =>
    OrderShowerHits (fun _ => D_of_Z 1) (fun p _ => fZ p)
                    (fun _ => mkXYZ (D_of_Z 0) (D_of_Z 0) (D_of_Z 1))
                    (fun t _ => float_to_double t) hits
                    (mkXYZ (D_of_Z 0) (D_of_Z 0) (D_of_Z 0))
                    (mkXYZ (D_of_Z 0) (D_of_Z 0) (D_of_Z 1)) in
  order [hit_on 0 0 9 5; hit_on 1 0 4 6; hit_on 2 1 1 7; hit_on 3 0 2 8]
    = order [hit_on 0 0 9 5; hit_on 1 0 4 6]
  /\ order [hit_on 0 0 9 5; hit_on 1 0 4 6] = Value [hit_on 1 0 4 6; hit_on 0 0 9 5].
Proof.
  intros order. split; [|vm_compute; reflexivity].
  apply (proj2 (OrderShowerHits_keeps_first_plane_only
                  (fun _ => D_of_Z 1) (fun p _ => fZ p)
                  (fun _ => mkXYZ (D_of_Z 0) (D_of_Z 0) (D_of_Z 1))
                  (fun t _ => float_to_double t)
                  (hit_on 0 0 9 5) [hit_on 1 0 4 6; hit_on 2 1 1 7; hit_on 3 0 2 8]
                  (mkXYZ (D_of_Z 0) (D_of_Z 0) (D_of_Z 0))
                  (mkXYZ (D_of_Z 0) (D_of_Z 0) (D_of_Z 1)))
               [hit_on 1 0 4 6] (hit_on 2 1 1 7) [hit_on 3 0 2 8]).
  - reflexivity.
  - vm_compute. discriminate.
  - intros h [<-|[]]. reflexivity.
Defined.

(** ** OrganizeHits *)

Lemma HitIdentifier_eq_key (a b : HitIdentifier) :
  HitIdentifier_eq a b = true <-> snippet_key a = snippet_key b.
Proof.
  unfold HitIdentifier_eq, snippet_key.
  rewrite !andb_true_iff, !Z.eqb_eq.
  split; [intros [[H1 H2] H3]; congruence|intros H; inversion H; auto].
Qed.

(** The search fails only when no snippet of the plane has the key. *)
Lemma find_snippet_None (i : nat) (id : HitIdentifier) (sn : PlaneSnippets) :
  find_snippet i id sn = None ->
  ~ In (snippet_key id) (map (fun e => snippet_key (snd e)) sn).
Proof.
  induction sn as [|[org ident] sn IH]; cbn [find_snippet map]; intros H.
  - intros [].
  - destruct (HitIdentifier_eq id ident) eqn:E.
    { destruct (HitIdentifier_gt id ident); discriminate H. }
    destruct (find_snippet i id sn); [discriminate H|].
    intros [Hk|Hin]; [|apply IH; [reflexivity|exact Hin]].
    cbn [snd] in Hk. symmetry in Hk. apply HitIdentifier_eq_key in Hk. congruence.
Qed.

(** When it succeeds, one snippet with the key has changed: the hit became
    its primary if its integral is greater, a secondary otherwise. *)
Lemma find_snippet_Some (i : nat) (id : HitIdentifier) (sn found : PlaneSnippets) :
  find_snippet i id sn = Some found ->
  exists pre p secs ident post,
    sn = pre ++ ((p, secs), ident) :: post
    /\ snippet_key ident = snippet_key id
    /\ found = pre ++ (if HitIdentifier_gt id ident
                       then ((i, secs ++ [p]), id)
                       else ((p, secs ++ [i]), ident)) :: post.
Proof.
  revert found.
  induction sn as [|[[p secs] ident] sn IH]; cbn [find_snippet]; intros found H.
  - discriminate H.
  - destruct (HitIdentifier_eq id ident) eqn:E.
    + apply HitIdentifier_eq_key in E.
      exists [], p, secs, ident, sn. cbn [app fst snd] in *.
      split; [reflexivity|]. split; [symmetry; exact E|].
      destruct (HitIdentifier_gt id ident); inversion H; reflexivity.
    + destruct (find_snippet i id sn) as [found'|]; [|discriminate H].
      destruct (IH found' eq_refl) as (pre & p' & secs' & ident' & post & -> & Hk & ->).
      exists ((p, secs, ident) :: pre), p', secs', ident', post.
      cbn [option_map] in H. inversion H. auto.
Qed.

Section organize_facts.

Variable hits : list HitPtr.

(** A snippet that the next hit does not belong to is untouched by it. *)
Lemma snippet_invariant_skip (i pl : nat) (e : OrganizedHits * HitIdentifier) :
  snippet_invariant hits i pl e ->
  ~ on_snippet hits pl (snd e) i ->
  snippet_invariant hits (S i) pl e.
Proof.
  destruct e as [[p secs] ident]. cbn [snd].
  intros (E1 & E2 & E3 & E4) Hnot.
  split; [exact E1|]. split; [exact E2|]. split; [|exact E4].
  intros k. rewrite E3. split.
  - intros [Hk Hon]. split; [lia|exact Hon].
  - intros [Hk Hon]. split; [|exact Hon].
    destruct (Nat.eq_dec k i) as [->|]; [contradiction|lia].
Qed.

(** The snippet that the next hit joins. *)
Lemma snippet_invariant_join (i pl : nat) (hit : HitPtr)
  (p : nat) (secs : list nat) (ident : HitIdentifier) :
  nth_error hits i = Some hit ->
  Plane (hit_WireID (get hit)) = pl ->
  snippet_key ident = snippet_key (HitIdentifier_of (get hit)) ->
  snippet_invariant hits i pl ((p, secs), ident) ->
  snippet_invariant hits (S i) pl
    (if HitIdentifier_gt (HitIdentifier_of (get hit)) ident
     then ((i, secs ++ [p]), HitIdentifier_of (get hit))
     else ((p, secs ++ [i]), ident)).
Proof.
  intros Hi Hpl Hkey (E1 & E2 & E3 & E4).
  assert (Hlt : forall k, In k (p :: secs) -> k < i).
  { intros k Hk. apply E3 in Hk. tauto. }
  assert (Hfresh : ~ In i (p :: secs)).
  { intros H. apply Hlt in H. lia. }
  assert (Hon : on_snippet hits pl ident i).
  { exists hit. repeat split; [exact Hi|exact Hpl|symmetry; exact Hkey]. }
  destruct E1 as (hp & Hp & Hident).
  assert (Hint : integral ident = Integral (get hp)) by (subst ident; reflexivity).
  unfold HitIdentifier_gt. cbn [integral HitIdentifier_of].
  destruct (fgt (Integral (get hit)) (integral ident)) eqn:Egt.
  - (* the hit becomes the primary *)
    split; [exists hit; split; [exact Hi|reflexivity]|].
    split.
    { constructor.
      - intros H. apply Hfresh. apply in_app_or in H.
        destruct H as [H|[<-|[]]]; [right; exact H|left; reflexivity].
      - apply NoDup_cons_iff in E2. destruct E2 as [Hp' Hs].
        apply NoDup_app; [exact Hs|repeat constructor; intros []|].
        intros a Ha [<-|[]]. contradiction. }
    split.
    { intros k. split.
      - intros [<-|H].
        + split; [lia|]. exists hit. repeat split; assumption.
        + assert (Hk : In k (p :: secs)).
          { apply in_app_or in H. destruct H as [H|[<-|[]]]; [right; exact H|left; reflexivity]. }
          apply E3 in Hk. destruct Hk as [Hk (hk & H1 & H2 & H3)].
          split; [lia|]. exists hk. repeat split; try assumption.
          rewrite H3. exact Hkey.
      - intros [Hk (hk & H1 & H2 & H3)].
        destruct (Nat.eq_dec k i) as [->|Hne]; [left; reflexivity|right].
        assert (Hin : In k (p :: secs)).
        { apply E3. split; [lia|]. exists hk. repeat split; try assumption.
          rewrite H3. symmetry. exact Hkey. }
        destruct Hin as [<-|Hin]; apply in_or_app; [right; left; reflexivity|left; exact Hin]. }
    intros s hs Hs Hhs. cbn [integral HitIdentifier_of].
    rewrite fgt_flt in Egt.
    apply in_app_or in Hs. destruct Hs as [Hs|[<-|[]]].
    + destruct (E4 s hs Hs Hhs) as [Hnot _]. rewrite fgt_flt in Hnot.
      split.
      * rewrite fgt_flt. destruct (flt (Integral (get hit)) (Integral (get hs))) eqn:E;
          [|reflexivity].
        rewrite (flt_trans _ _ _ Egt E) in Hnot. discriminate.
      * intros Heq. apply feq_sym in Heq.
        rewrite (flt_feq_trans _ _ _ Egt Heq) in Hnot. discriminate.
    + rewrite Hp in Hhs. inversion Hhs; subst hs. rewrite Hint in Egt.
      split.
      * rewrite fgt_flt. apply flt_asym. exact Egt.
      * intros Heq. apply flt_not_feq in Egt. congruence.
  - (* the hit becomes a secondary *)
    split; [exists hp; split; assumption|].
    split.
    { apply NoDup_cons_iff in E2. destruct E2 as [Hp' Hs].
      constructor.
      - intros H. apply in_app_or in H. destruct H as [H|[<-|[]]]; [contradiction|].
        apply Hfresh. left; reflexivity.
      - apply NoDup_app; [exact Hs|repeat constructor; intros []|].
        intros a Ha [<-|[]]. apply Hfresh. right; exact Ha. }
    split.
    { intros k. split.
      - intros H.
        assert (Hk : In k (p :: secs) \/ k = i).
        { destruct H as [<-|H]; [left; left; reflexivity|].
          apply in_app_or in H. destruct H as [H|[<-|[]]]; [left; right; exact H|right; reflexivity]. }
        destruct Hk as [Hk| ->]; [|split; [lia|exact Hon]].
        apply E3 in Hk. split; [lia|tauto].
      - intros [Hk Hk'].
        destruct (Nat.eq_dec k i) as [->|Hne].
        + right. apply in_or_app. right; left; reflexivity.
        + assert (Hin : In k (p :: secs)) by (apply E3; split; [lia|exact Hk']).
          destruct Hin as [<-|Hin]; [left; reflexivity|right; apply in_or_app; left; exact Hin]. }
    intros s hs Hs Hhs.
    apply in_app_or in Hs. destruct Hs as [Hs|[<-|[]]]; [apply (E4 s hs Hs Hhs)|].
    rewrite Hi in Hhs. inversion Hhs; subst hs.
    split; [exact Egt|]. intros _. apply Hlt. left; reflexivity.
Qed.

(** A hit of another plane leaves the snippets of a plane as they are. *)
Lemma plane_invariant_other (i pl : nat) (hit : HitPtr) (sn : PlaneSnippets) :
  nth_error hits i = Some hit ->
  Plane (hit_WireID (get hit)) <> pl ->
  plane_invariant hits i pl sn ->
  plane_invariant hits (S i) pl sn.
Proof.
  intros Hi Hpl (Hall & Hnd & Hcov).
  split; [|split; [exact Hnd|]].
  - rewrite Forall_forall in *. intros e He.
    apply snippet_invariant_skip; [apply Hall; exact He|].
    intros (hk & H1 & H2 & _). congruence.
  - intros k hk Hk Hhk Hplane.
    destruct (Nat.eq_dec k i) as [->|Hne]; [congruence|].
    apply (Hcov k hk); [lia|assumption|assumption].
Qed.

(** A hit of the plane joins its snippet or opens a new one. *)
Lemma plane_invariant_step (i pl : nat) (hit : HitPtr) (sn : PlaneSnippets) :
  nth_error hits i = Some hit ->
  Plane (hit_WireID (get hit)) = pl ->
  plane_invariant hits i pl sn ->
  plane_invariant hits (S i) pl
    (match find_snippet i (HitIdentifier_of (get hit)) sn with
     | Some found => found
     | None => sn ++ [((i, []), HitIdentifier_of (get hit))]
     end).
Proof.
  intros Hi Hpl (Hall & Hnd & Hcov).
  set (this_ident := HitIdentifier_of (get hit)) in *.
  destruct (find_snippet i this_ident sn) as [found|] eqn:Efind.
  - destruct (find_snippet_Some _ _ _ _ Efind)
      as (pre & p & secs & ident & post & -> & Hkey & ->).
    assert (Hkeys : map (fun e => snippet_key (snd e))
                        (pre ++ (if HitIdentifier_gt this_ident ident
                                 then ((i, secs ++ [p]), this_ident)
                                 else ((p, secs ++ [i]), ident)) :: post)
                    = map (fun e => snippet_key (snd e))
                          (pre ++ ((p, secs), ident) :: post)).
    { rewrite !map_app. cbn [map]. f_equal. f_equal.
      destruct (HitIdentifier_gt this_ident ident); cbn [snd]; congruence. }
    assert (Hother : forall e, In e pre \/ In e post ->
                               snippet_key (snd e) <> snippet_key ident).
    { intros e He Heq. rewrite map_app in Hnd. cbn [map snd] in Hnd.
      apply NoDup_remove_2 in Hnd. apply Hnd. rewrite <- Heq.
      apply in_or_app. destruct He as [He|He]; [left|right];
        apply (in_map (fun e => snippet_key (snd e))); exact He. }
    apply Forall_app in Hall. destruct Hall as [Hpre Hrest].
    apply Forall_cons_iff in Hrest. destruct Hrest as [He Hpost].
    split; [|split].
    + apply Forall_app. split; [|constructor].
      * rewrite Forall_forall in *. intros e Hin.
        apply snippet_invariant_skip; [apply Hpre; exact Hin|].
        intros (hk & H1 & _ & H3). assert (hk = hit) by congruence; subst hk.
        apply (Hother e); [left; exact Hin|].
        transitivity (snippet_key this_ident); [symmetry; exact H3|symmetry; exact Hkey].
      * apply (snippet_invariant_join i pl hit p secs ident Hi Hpl Hkey He).
      * rewrite Forall_forall in *. intros e Hin.
        apply snippet_invariant_skip; [apply Hpost; exact Hin|].
        intros (hk & H1 & _ & H3). assert (hk = hit) by congruence; subst hk.
        apply (Hother e); [right; exact Hin|].
        transitivity (snippet_key this_ident); [symmetry; exact H3|symmetry; exact Hkey].
    + unalias. rewrite Hkeys. exact Hnd.
    + unalias. rewrite Hkeys. intros k hk Hk Hhk Hplane.
      destruct (Nat.eq_dec k i) as [->|Hne]; [|apply (Hcov k hk); [lia|assumption|assumption]].
      rewrite Hi in Hhk. inversion Hhk; subst hk. fold this_ident.
      rewrite <- Hkey, map_app. apply in_or_app. right; left; reflexivity.
  - pose proof (find_snippet_None _ _ _ Efind) as Hfresh.
    split; [|split].
    + apply Forall_app. split; [|constructor; [|constructor]].
      * rewrite Forall_forall in *. intros e Hin.
        apply snippet_invariant_skip; [apply Hall; exact Hin|].
        intros (hk & H1 & _ & H3). assert (hk = hit) by congruence; subst hk.
        apply Hfresh. fold this_ident in H3. rewrite H3.
        apply (in_map (fun e => snippet_key (snd e))). exact Hin.
      * split; [exists hit; split; [exact Hi|reflexivity]|].
        split; [repeat constructor; intros []|].
        split; [|intros s hs []].
        intros k. split.
        -- intros [<-|[]]. split; [lia|]. exists hit. repeat split; assumption.
        -- intros [Hk (hk & H1 & H2 & H3)].
           destruct (Nat.eq_dec k i) as [->|Hne]; [left; reflexivity|exfalso].
           apply Hfresh. rewrite <- H3. apply (Hcov k hk); [lia|assumption|assumption].
    + rewrite map_app. apply NoDup_app; [exact Hnd|repeat constructor; intros []|].
      intros a Ha [<-|[]]. contradiction.
    + intros k hk Hk Hhk Hplane. rewrite map_app. apply in_or_app.
      destruct (Nat.eq_dec k i) as [->|Hne].
      * right. rewrite Hi in Hhk. inversion Hhk; subst hk. left; reflexivity.
      * left. apply (Hcov k hk); [lia|assumption|assumption].
Qed.

(** Replacing the element at one index of a vector. *)
Lemma nth_error_replace {A : Type} (l : list A) (n : nat) (x : A) :
  n < length l ->
  forall k, nth_error (firstn n l ++ x :: skipn (S n) l) k
            = if k =? n then Some x else nth_error l k.
Proof.
  revert n. induction l as [|a l IH]; intros n Hn k; cbn [length] in Hn; [lia|].
  destruct n as [|n]; cbn [firstn skipn app].
  - destruct k; reflexivity.
  - destruct k as [|k]; [reflexivity|]. cbn [nth_error Nat.eqb]. apply IH. lia.
Qed.

Lemma organize_hit_invariant (i : nat) (hit : HitPtr) (org : list PlaneSnippets) :
  nth_error hits i = Some hit ->
  Plane (hit_WireID (get hit)) < nplanes ->
  organize_invariant hits i org ->
  exists org', organize_hit i hit org = Value org'
               /\ organize_invariant hits (S i) org'.
Proof.
  intros Hi Hpl [Hlen Hinv]. unfold organize_hit.
  set (pl := Plane (hit_WireID (get hit))) in *.
  destruct (nth_error org pl) as [sn|] eqn:Epl.
  2:{ apply nth_error_None in Epl. lia. }
  eexists. split; [reflexivity|].
  split.
  - rewrite length_app. cbn [length]. rewrite length_firstn, length_skipn. lia.
  - intros pl' sn' Hsn'. rewrite nth_error_replace in Hsn' by lia.
    destruct (Nat.eqb_spec pl' pl) as [->|Hne].
    + inversion Hsn'; subst sn'.
      apply (plane_invariant_step i pl hit sn Hi eq_refl (Hinv _ _ Epl)).
    + apply (plane_invariant_other i pl' hit sn' Hi); [fold pl; congruence|].
      apply Hinv. exact Hsn'.
Qed.

Lemma organize_loop_invariant (rest : list HitPtr) :
  forall i org,
    (forall j h, nth_error rest j = Some h -> nth_error hits (i + j) = Some h) ->
    (forall h, In h rest -> Plane (hit_WireID (get h)) < nplanes) ->
    organize_invariant hits i org ->
    exists org', organize_loop i rest org = Value org'
                 /\ organize_invariant hits (i + length rest) org'.
Proof.
  induction rest as [|hit rest IH]; intros i org Hnth Hpl Hinv; cbn [organize_loop].
  - exists org. cbn [length]. rewrite Nat.add_0_r. split; [reflexivity|exact Hinv].
  - assert (Hi : nth_error hits i = Some hit).
    { specialize (Hnth 0 hit eq_refl). rewrite Nat.add_0_r in Hnth. exact Hnth. }
    destruct (organize_hit_invariant i hit org Hi (Hpl hit (or_introl eq_refl)) Hinv)
      as (org1 & -> & Hinv1).
    cbn [bind].
    destruct (IH (S i) org1) as (org' & Horg' & Hinv').
    + intros j h Hj. specialize (Hnth (S j) h Hj).
      rewrite Nat.add_succ_r in Hnth. exact Hnth.
    + intros h Hh. apply Hpl. right; exact Hh.
    + exact Hinv1.
    + exists org'. split; [exact Horg'|].
      cbn [length]. rewrite Nat.add_succ_r. exact Hinv'.
Qed.

End organize_facts.

Lemma same_snippet_hit_key (a b : Hit) : same_snippet a b <-> hit_key a = hit_key b.
Proof.
  unfold same_snippet, hit_key, snippet_key, HitIdentifier_of.
  cbn [startTick endTick wire]. split.
  - intros (-> & -> & -> & ->). reflexivity.
  - intros H. inversion H as [[H1 H2 H3 H4]]. apply Nat2Z.inj in H4. auto.
Qed.

Section organize_result.

Variable hits : list HitPtr.

(** The snippet key of the hit at an index, if there is one. *)
Local Abbreviation key_at :=
  (fun k => option_map (fun h : HitPtr => hit_key (get h)) (nth_error hits k)).

(** Every member of a snippet carries the plane and the key of the
    snippet. *)
Lemma snippet_member_key (n pl : nat) (e : OrganizedHits * HitIdentifier) (k : nat) :
  snippet_invariant hits n pl e ->
  In k (members (fst e)) ->
  key_at k = Some (pl, snippet_key (snd e)).
Proof.
  destruct e as [[p secs] ident]. cbn [fst snd members].
  intros (_ & _ & E3 & _) Hk. apply E3 in Hk.
  destruct Hk as [_ (hk & -> & H2 & H3)]. cbn [option_map].
  unfold hit_key. now rewrite H2, H3.
Qed.

(** Across the planes no two snippets have the same plane and key. *)
Lemma organize_keys_NoDup (n : nat) (org : list PlaneSnippets) :
  forall off,
    (forall j sn, nth_error org j = Some sn -> plane_invariant hits n (off + j) sn) ->
    NoDup (map (fun e => key_at (fst (fst e))) (concat org))
    /\ (forall e, In e (concat org) ->
                  exists pl sn, off <= pl /\ plane_invariant hits n pl sn /\ In e sn).
Proof.
  induction org as [|sn org IH]; intros off Hinv; cbn [concat].
  - split; [constructor|intros e []].
  - pose proof (Hinv 0 sn eq_refl) as Hsn. rewrite Nat.add_0_r in Hsn.
    destruct (IH (S off)) as [Hnd Hin].
    { intros j sn' Hj. specialize (Hinv (S j) sn' Hj).
      now rewrite Nat.add_succ_r in Hinv. }
    assert (Hkey : forall e, In e sn ->
                             key_at (fst (fst e)) = Some (off, snippet_key (snd e))).
    { intros e He. destruct Hsn as (Hall & _). rewrite Forall_forall in Hall.
      apply (snippet_member_key n off e); [apply Hall; exact He|left; reflexivity]. }
    split.
    + rewrite map_app. apply NoDup_app; [|exact Hnd|].
      * unalias.
        rewrite (map_ext_in _ (fun e => Some (off, snippet_key (snd e))) _ Hkey).
        destruct Hsn as (_ & Hkeys & _).
        rewrite <- (map_map (fun e => snippet_key (snd e)) (fun k => Some (off, k))).
        apply Injective_map_NoDup; [|exact Hkeys].
        intros x y Hxy. congruence.
      * intros a Ha Ha'. apply in_map_iff in Ha. destruct Ha as (e & <- & He).
        apply in_map_iff in Ha'. destruct Ha' as (e' & Heq & He').
        destruct (Hin e' He') as (pl & sn' & Hpl & (Hall' & _) & Hin').
        rewrite Forall_forall in Hall'.
        pose proof (Hkey e He) as K1.
        pose proof (snippet_member_key n pl e' (fst (fst e')) (Hall' _ Hin')
                                       (or_introl eq_refl)) as K2.
        cbv beta in Heq. unalias.
        rewrite K1, K2 in Heq. inversion Heq. lia.
    + intros e He. apply in_app_or in He. destruct He as [He|He].
      * exists off, sn. split; [lia|split; assumption].
      * destruct (Hin e He) as (pl & sn' & Hpl & H1 & H2).
        exists pl, sn'. split; [lia|split; assumption].
Qed.

(** Before the first hit the invariant holds for the empty planes. *)
Lemma organize_invariant_start : organize_invariant hits 0 (repeat [] nplanes).
Proof.
  split; [apply repeat_length|].
  intros pl sn Hsn. apply nth_error_In, repeat_spec in Hsn. subst sn.
  split; [constructor|]. split; [constructor|]. intros k hk Hk. lia.
Qed.

Hypothesis planes_in_range :
  forall h, In h hits -> Plane (hit_WireID (get h)) < nplanes.

(** The loop runs through and leaves the invariant for all the hits. *)
Lemma organize_loop_result :
  exists org, organize_loop 0 hits (repeat [] nplanes) = Value org
              /\ organize_invariant hits (length hits) org.
Proof.
  destruct (organize_loop_invariant hits hits 0 (repeat [] nplanes))
    as (org & Horg & Hinv).
  - intros j h Hj. exact Hj.
  - exact planes_in_range.
  - exact organize_invariant_start.
  - exists org. split; assumption.
Qed.

End organize_result.

(** Assigning under a key that compares unequal to every key of the map
    adds one entry. *)
Lemma subscript_update_fresh {K V : Type} (less : K -> K -> bool)
  (k : K) (f : option V -> V) (m : list (K * V)) :
  (forall k' v', In (k', v') m -> less k' k = true \/ less k k' = true) ->
  Permutation (subscript_update less k f m) ((k, f None) :: m).
Proof.
  induction m as [|[k1 v1] m IH]; intros Hfresh; cbn [subscript_update].
  - reflexivity.
  - destruct (less k1 k) eqn:E1.
    + rewrite IH; [apply perm_swap|].
      intros k' v' Hin. apply (Hfresh k' v'). right; exact Hin.
    + destruct (Hfresh k1 v1 (or_introl eq_refl)) as [H|H]; [congruence|].
      rewrite H. reflexivity.
Qed.

Lemma NoDup_map_finer {A B C : Type} (g : A -> B) (g' : A -> C) (l : list A) :
  (forall x y, In x l -> In y l -> g' x = g' y -> g x = g y) ->
  NoDup (map g l) -> NoDup (map g' l).
Proof.
  induction l as [|a l IH]; intros Hfiner Hnd; cbn [map] in *; [constructor|].
  apply NoDup_cons_iff in Hnd. destruct Hnd as [Ha Hnd].
  constructor.
  - intros Hin. apply Ha. apply in_map_iff in Hin. destruct Hin as (x & Hx & Hin).
    apply in_map_iff. exists x. split; [|exact Hin].
    apply Hfiner; [right; exact Hin|left; reflexivity|exact Hx].
  - apply IH; [|exact Hnd]. intros x y Hx Hy. apply Hfiner; right; assumption.
Qed.

(** Lists whose elements all carry the key of their list are disjoint as
    soon as the keys of the lists differ. *)
Lemma disjoint_by_key {A B : Type} (g : A -> B) (mem : A -> list nat)
  (key_of : nat -> B) (l : list A) :
  NoDup (map g l) ->
  (forall a k, In a l -> In k (mem a) -> key_of k = g a) ->
  ForallOrdPairs (fun l1 l2 : list nat => forall k, In k l1 -> ~ In k l2) (map mem l).
Proof.
  induction l as [|a l IH]; intros Hnd Hkey; cbn [map] in *; [constructor|].
  apply NoDup_cons_iff in Hnd. destruct Hnd as [Ha Hnd].
  constructor.
  - apply Forall_forall. intros l2 Hl2 k Hk Hk'.
    apply in_map_iff in Hl2. destruct Hl2 as (b & <- & Hb).
    apply Ha. apply in_map_iff. exists b. split; [|exact Hb].
    rewrite <- (Hkey a k (or_introl eq_refl) Hk).
    symmetry. apply Hkey; [right; exact Hb|exact Hk'].
  - apply IH; [exact Hnd|]. intros b k Hb. apply Hkey. right; exact Hb.
Qed.

Section organize_ret_facts.

Variable hits : list HitPtr.

Lemma hits_at_result (ids : list nat) :
  (forall s, In s ids -> s < length hits) ->
  exists hs, hits_at hits ids = Value hs
             /\ Forall2 (fun s h => nth_error hits s = Some h) ids hs.
Proof.
  induction ids as [|s ids IH]; intros Hlt; cbn [hits_at].
  - exists []. split; [reflexivity|constructor].
  - destruct (nth_error hits s) as [h|] eqn:Es.
    2:{ apply nth_error_None in Es. specialize (Hlt s (or_introl eq_refl)). lia. }
    destruct IH as (hs & -> & Hall); [intros s' Hs'; apply Hlt; right; exact Hs'|].
    exists (h :: hs). split; [reflexivity|constructor; assumption].
Qed.

(** Filling the map from snippets whose primaries have pairwise different
    pointer keys: every snippet ends up as an entry of its own. *)
Lemma organize_ret_result (snippets : list OrganizedHits) :
  forall ret0,
    (forall sn s, In sn snippets -> In s (members sn) -> s < length hits) ->
    NoDup (map (fun sn : OrganizedHits => option_map (@key Hit) (nth_error hits (fst sn)))
               snippets) ->
    (forall sn hp v, In sn snippets -> In (hp, v) ret0 ->
                     option_map (@key Hit) (nth_error hits (fst sn)) <> Some (key hp)) ->
    exists ret groups,
      organize_ret hits snippets ret0 = Value ret
      /\ Forall2 (fun (snippet : OrganizedHits) (group : HitPtr * list HitPtr) =>
                    nth_error hits (fst snippet) = Some (fst group)
                    /\ Forall2 (fun s hs => nth_error hits s = Some hs)
                               (snd snippet) (snd group))
                 snippets groups
      /\ Permutation ret (groups ++ ret0).
Proof.
  induction snippets as [|[p secs] snippets IH]; intros ret0 Hlt Hnd Hfresh;
    cbn [organize_ret].
  - exists ret0, []. split; [reflexivity|]. split; [constructor|reflexivity].
  - cbn [fst snd].
    destruct (hits_at_result secs) as (hsecs & -> & Hsecs).
    { intros s Hs. apply (Hlt (p, secs)); [left; reflexivity|right; exact Hs]. }
    cbn [bind].
    destruct (nth_error hits p) as [hp|] eqn:Ep.
    2:{ apply nth_error_None in Ep.
        specialize (Hlt (p, secs) p (or_introl eq_refl) (or_introl eq_refl)). lia. }
    cbn [map fst] in Hnd. rewrite Ep in Hnd. cbn [option_map] in Hnd.
    apply NoDup_cons_iff in Hnd. destruct Hnd as [Hp Hnd].
    assert (Hperm : Permutation (subscript_assign Ptr_less hp hsecs ret0)
                                ((hp, hsecs) :: ret0)).
    { apply (subscript_update_fresh Ptr_less hp (fun _ => hsecs)).
      intros k' v' Hin. unfold Ptr_less.
      assert (Hne : key k' <> key hp).
      { intros Heq. apply (Hfresh (p, secs) k' v' (or_introl eq_refl) Hin).
        cbn [fst]. rewrite Ep. cbn [option_map]. congruence. }
      destruct (Nat.ltb_spec (key k') (key hp)); [left; reflexivity|right].
      apply Nat.ltb_lt. lia. }
    destruct (IH (subscript_assign Ptr_less hp hsecs ret0))
      as (ret & groups & Hret & Hgroups & Hfinal).
    + intros sn s Hsn. apply Hlt. right; exact Hsn.
    + exact Hnd.
    + intros sn hp' v Hsn Hin Heq.
      apply (Permutation_in _ Hperm) in Hin. destruct Hin as [Hin|Hin].
      * inversion Hin; subst hp' v. apply Hp. rewrite <- Heq.
        apply (in_map (fun sn : OrganizedHits =>
                         option_map (@key Hit) (nth_error hits (fst sn)))).
        exact Hsn.
      * apply (Hfresh sn hp' v); [right; exact Hsn|exact Hin|exact Heq].
    + exists ret, ((hp, hsecs) :: groups). split; [exact Hret|]. split.
      * constructor; [|exact Hgroups]. cbn [fst snd]. split; [exact Ep|exact Hsecs].
      * rewrite Hfinal, Hperm. cbn [app]. symmetry. apply Permutation_middle.
Qed.

End organize_ret_facts.

(** C6.  For hits on planes 0 to 5 whose pointers are told apart by their
    keys, the call returns.  The snippets it finds split the hit indices
    among them; the members of a snippet are exactly the hits with the
    plane, wire, start and end tick of its primary; no secondary has a
    greater integral than the primary, and a secondary with an equal
    integral comes after the primary in the input.  The map returned has
    one entry per snippet, from the primary hit to the secondary hits. *)
Theorem OrganizeHits_primary_has_greatest_integral (hits : list HitPtr) :
  (forall h, In h hits -> Plane (hit_WireID (get h)) < nplanes) ->
  (forall a b, In a hits -> In b hits -> key a = key b -> a = b) ->
  exists snippets groups ret,
    OrganizeHits_indices hits = Value snippets
    /\ OrganizeHits hits = Value ret
    /\ Permutation (concat (map members snippets)) (seq 0 (length hits))
    /\ (forall p secs,
          In (p, secs) snippets ->
          exists hp,
            nth_error hits p = Some hp
            /\ (forall k, In k (p :: secs) <->
                          exists hk, nth_error hits k = Some hk
                                     /\ same_snippet (get hk) (get hp))
            /\ (forall s hs,
                   In s secs -> nth_error hits s = Some hs ->
                   fgt (Integral (get hs)) (Integral (get hp)) = false
                   /\ (feq (Integral (get hs)) (Integral (get hp)) = true -> p < s)))
    /\ Forall2 (fun (snippet : OrganizedHits) (group : HitPtr * list HitPtr) =>
                  nth_error hits (fst snippet) = Some (fst group)
                  /\ Forall2 (fun s hs => nth_error hits s = Some hs)
                             (snd snippet) (snd group))
               snippets groups
    /\ Permutation ret groups.
Proof.
  intros Hplanes Hptr.
  destruct (organize_loop_result hits Hplanes) as (org & Horg & Hlen & Hinv).
  destruct (organize_keys_NoDup hits (length hits) org 0) as [Hnd Hin].
  { intros j sn Hj. apply Hinv. exact Hj. }
  (* every snippet found satisfies the invariant of its plane *)
  assert (Hsnip : forall e, In e (concat org) ->
                            exists pl, snippet_invariant hits (length hits) pl e).
  { intros e He. destruct (Hin e He) as (pl & sn & _ & (Hall & _) & Hsn).
    rewrite Forall_forall in Hall. exists pl. apply Hall. exact Hsn. }
  assert (Hmem : forall e k, In e (concat org) -> In k (members (fst e)) ->
                             k < length hits
                             /\ option_map (fun h : HitPtr => hit_key (get h))
                                           (nth_error hits k)
                                = option_map (fun h : HitPtr => hit_key (get h))
                                             (nth_error hits (fst (fst e)))).
  { intros e k He Hk. destruct (Hsnip e He) as [pl Hs].
    rewrite (snippet_member_key hits _ pl e k Hs Hk).
    rewrite (snippet_member_key hits _ pl e (fst (fst e)) Hs (or_introl eq_refl)).
    destruct e as [[p secs] ident]. destruct Hs as (_ & _ & E3 & _).
    apply E3 in Hk. tauto. }
  assert (Hindices : OrganizeHits_indices hits = Value (map fst (concat org))).
  { unfold OrganizeHits_indices. rewrite Horg. reflexivity. }
  destruct (organize_ret_result hits (map fst (concat org)) [])
    as (ret & groups & Hret & Hgroups & Hperm).
  { intros sn s Hsn Hs. apply in_map_iff in Hsn. destruct Hsn as (e & <- & He).
    apply (Hmem e s He Hs). }
  { rewrite map_map.
    apply (NoDup_map_finer
             (fun e : OrganizedHits * HitIdentifier =>
                option_map (fun h : HitPtr => hit_key (get h))
                           (nth_error hits (fst (fst e))))); [|exact Hnd].
    intros x y Hx Hy Heq.
    destruct (Hmem x (fst (fst x)) Hx (or_introl eq_refl)) as [Hlx _].
    destruct (Hmem y (fst (fst y)) Hy (or_introl eq_refl)) as [Hly _].
    destruct (nth_error hits (fst (fst x))) as [hx|] eqn:Ex;
      [|apply nth_error_None in Ex; lia].
    destruct (nth_error hits (fst (fst y))) as [hy|] eqn:Ey;
      [|apply nth_error_None in Ey; lia].
    cbn [option_map] in *. inversion Heq as [Hk].
    rewrite (Hptr hx hy (nth_error_In _ _ Ex) (nth_error_In _ _ Ey) Hk).
    reflexivity. }
  { intros sn hp v _ []. }
  rewrite app_nil_r in Hperm.
  exists (map fst (concat org)), groups, ret.
  split; [exact Hindices|].
  split; [unfold OrganizeHits; rewrite Hindices; exact Hret|].
  split; [|split; [|split; [exact Hgroups|exact Hperm]]].
  - (* the snippets split the indices *)
    apply NoDup_Permutation; [|apply seq_NoDup|].
    + apply NoDup_concat.
      * apply Forall_forall. intros l Hl.
        apply in_map_iff in Hl. destruct Hl as (sn & <- & Hsn).
        apply in_map_iff in Hsn. destruct Hsn as (e & <- & He).
        destruct (Hsnip e He) as [pl Hs]. destruct e as [[p secs] ident].
        destruct Hs as (_ & E2 & _). exact E2.
      * rewrite map_map.
        apply (disjoint_by_key
                 (fun e : OrganizedHits * HitIdentifier =>
                    option_map (fun h : HitPtr => hit_key (get h))
                               (nth_error hits (fst (fst e))))
                 (fun e => members (fst e))
                 (fun k => option_map (fun h : HitPtr => hit_key (get h))
                                      (nth_error hits k))); [exact Hnd|].
        intros e k He Hk. apply (Hmem e k He Hk).
    + intros k. rewrite in_seq, in_concat. split.
      * intros (l & Hl & Hk).
        apply in_map_iff in Hl. destruct Hl as (sn & <- & Hsn).
        apply in_map_iff in Hsn. destruct Hsn as (e & <- & He).
        destruct (Hmem e k He Hk) as [Hlt _]. lia.
      * intros [_ Hk]. cbn [Nat.add] in Hk.
        destruct (nth_error hits k) as [hk|] eqn:Ek;
          [|apply nth_error_None in Ek; lia].
        pose proof (Hplanes hk (nth_error_In _ _ Ek)) as Hpl.
        destruct (nth_error org (Plane (hit_WireID (get hk)))) as [sn|] eqn:Esn;
          [|apply nth_error_None in Esn; lia].
        destruct (Hinv _ _ Esn) as (Hall & _ & Hcov).
        specialize (Hcov k hk Hk Ek eq_refl).
        apply in_map_iff in Hcov. destruct Hcov as (e & Hkey & He).
        rewrite Forall_forall in Hall. specialize (Hall e He).
        exists (members (fst e)). split.
        -- apply in_map, in_map, in_concat. exists sn.
           split; [eapply nth_error_In; exact Esn|exact He].
        -- destruct e as [[p secs] ident]. destruct Hall as (_ & _ & E3 & _).
           apply E3. split; [exact Hk|]. exists hk.
           split; [exact Ek|]. split; [reflexivity|]. symmetry. exact Hkey.
  - (* each snippet: members, primary, ties *)
    intros p secs Hps. apply in_map_iff in Hps. destruct Hps as ([ps ident] & Heq & He).
    cbn [fst] in Heq. subst ps.
    destruct (Hsnip _ He) as [pl (E1 & E2 & E3 & E4)].
    destruct E1 as (hp & Hp & Hident). subst ident.
    assert (Hpl : Plane (hit_WireID (get hp)) = pl).
    { destruct (proj1 (E3 p) (or_introl eq_refl)) as [_ (h' & H1 & H2 & _)].
      congruence. }
    exists hp. split; [exact Hp|]. split.
    + intros k. rewrite E3. split.
      * intros [_ (hk & H1 & H2 & H3)]. exists hk. split; [exact H1|].
        apply same_snippet_hit_key. unfold hit_key. congruence.
      * intros (hk & H1 & H2). apply same_snippet_hit_key in H2.
        pose proof (f_equal fst H2) as H3. pose proof (f_equal snd H2) as H4.
        cbn [fst snd hit_key] in H3, H4.
        split; [apply nth_error_Some; congruence|].
        exists hk. split; [exact H1|]. split; [congruence|exact H4].
    + intros s hs Hs Hhs. apply (E4 s hs Hs Hhs).
Qed.

(** Two hits of one snippet with integrals 5 and 10. *)
Lemma OrganizeHits_primary_has_greatest_integral_witness :
  let hits := [hit_with 0 5 0; hit_with 1 10 0] in
  exists snippets groups ret,
    OrganizeHits_indices hits = Value snippets
    /\ OrganizeHits hits = Value ret
    /\ Permutation (concat (map members snippets)) (seq 0 (length hits))
    /\ Permutation ret groups.
Proof.
  intros hits.
  destruct (OrganizeHits_primary_has_greatest_integral hits)
    as (snippets & groups & ret & H1 & H2 & H3 & _ & _ & H6).
  - intros h [<-|[<-|[]]]; vm_compute; lia.
  - intros a b [<-|[<-|[]]] [<-|[<-|[]]] Hk; try reflexivity;
      vm_compute in Hk; discriminate Hk.
  - exists snippets, groups, ret. auto.
Defined.

(** The worked case of the specification: of two hits on the same snippet
    with integrals 5 and 10 the second is the primary and the first its only
    secondary, in either input order; of two hits with equal integrals the
    one seen first is the primary. *)
Lemma OrganizeHits_two_hits_of_one_snippet :
  OrganizeHits [hit_with 0 5 0; hit_with 1 10 0]
    = Value [(hit_with 1 10 0, [hit_with 0 5 0])]
  /\ OrganizeHits [hit_with 1 10 0; hit_with 0 5 0]
    = Value [(hit_with 1 10 0, [hit_with 0 5 0])]
  /\ OrganizeHits [hit_with 0 5 0; hit_with 1 5 0]
    = Value [(hit_with 0 5 0, [hit_with 1 5 0])]
  /\ OrganizeHits [hit_with 0 5 0; hit_on 1 0 8 0; hit_with 2 10 0]
    = Value [(hit_on 1 0 8 0, []); (hit_with 2 10 0, [hit_with 0 5 0])]
  /\ map_find Ptr_less (hit_with 2 10 0)
               [(hit_on 1 0 8 0, []); (hit_with 2 10 0, [hit_with 0 5 0])]
    = Some [hit_with 0 5 0].
Proof. repeat split; vm_compute; reflexivity. Qed.

(** A hit on a plane number beyond the six planes provided for is an access
    outside the per-plane storage. *)
Lemma OrganizeHits_plane_out_of_range :
  OrganizeHits [hit_on 0 6 1 0] = Undefined.
Proof. reflexivity. Qed.

(** ** Worked examples of the remaining functions *)

(** One hit per spacepoint: the spread is 1, the hit passes the trim and
    the charge-weighted centre of two spacepoints of equal charge is their
    midpoint. *)
Lemma ShowerCentre_two_spacepoints :
  ShowerCentre false (D_of_Z 1) (D_of_Z 1) (fun _ => D_of_Z 1)
               [spacepoint_at 0 0 0 0; spacepoint_at 1 2 4 6]
               [[hit_with 0 4 0]; [hit_with 1 4 0]] (F_of_Z 0)
  = Value (mkXYZ (D_of_Z 1) (D_of_Z 2) (D_of_Z 3), F_of_Z 8, []).
Proof. vm_compute. reflexivity. Qed.

(** A cone along x: spread 0 around x = 0, growing to 2 around x = 4.  The
    spacepoints fall into the segments 0, 1 and 2, of which 1 holds a single
    spacepoint and is left out, and the fitted gradient is positive. *)
Lemma RMSShowerGradient_cone :
  exists gradient sps,
    RMSShowerGradient (mkXYZ (D_of_Z 0) (D_of_Z 0) (D_of_Z 0))
                      (mkXYZ (D_of_Z 1) (D_of_Z 0) (D_of_Z 0))
                      [spacepoint_at 0 0 0 0; spacepoint_at 1 1 0 0;
                       spacepoint_at 2 5 1 0; spacepoint_at 3 8 2 0;
                       spacepoint_at 4 9 0 2] 2
    = Value (gradient, sps)
    /\ fgt gradient (D_of_Z 0) = true
    /\ length sps = 5.
Proof. eexists. eexists. vm_compute. repeat split; reflexivity. Qed.

(** * Further properties of the ordering functions *)

Lemma StronglySorted_snoc {A : Type} (R : A -> A -> Prop) (l : list A) (x : A) :
  StronglySorted R (l ++ [x]) -> StronglySorted R l /\ Forall (fun a => R a x) l.
Proof.
  induction l as [|a l IH]; cbn [app]; intros Hs.
  - split; constructor.
  - apply StronglySorted_inv in Hs. destruct Hs as [Hs Hall].
    destruct (IH Hs) as [Hl Hx]. rewrite Forall_forall in Hall.
    split; constructor; try assumption.
    + apply Forall_forall. intros b Hb. apply Hall, in_or_app. left; exact Hb.
    + apply Hall, in_or_app. right; left; reflexivity.
Qed.

(** A key above every key of the map goes to the end. *)
Lemma subscript_update_append {K V : Type} (less : K -> K -> bool)
  (k : K) (f : option V -> V) (m : list (K * V)) :
  (forall k' v', In (k', v') m -> less k' k = true) ->
  subscript_update less k f m = m ++ [(k, f None)].
Proof.
  induction m as [|[k1 v1] m IH]; intros Hlt; cbn [subscript_update app].
  - reflexivity.
  - rewrite (Hlt k1 v1 (or_introl eq_refl)). f_equal.
    apply IH. intros k' v' Hin. apply (Hlt k' v'). right; exact Hin.
Qed.

(** In a map with ascending keys, equal keys belong to one entry. *)
Lemma keys_ascending_unique {V : Type} (m : list (double * V)) :
  keys_ascending flt m ->
  forall k1 v1 k2 v2,
    In (k1, v1) m -> In (k2, v2) m -> feq k1 k2 = true -> (k1, v1) = (k2, v2).
Proof.
  unfold keys_ascending. induction 1 as [|[k v] m Hs IH Hall];
    intros k1 v1 k2 v2 H1 H2 Heq; [destruct H1|].
  rewrite Forall_forall in Hall.
  destruct H1 as [H1|H1], H2 as [H2|H2].
  - congruence.
  - inversion H1; subst. specialize (Hall _ H2). cbn [fst] in Hall.
    apply flt_not_feq in Hall. congruence.
  - inversion H2; subst. specialize (Hall _ H1). cbn [fst] in Hall.
    apply flt_not_feq in Hall. apply feq_sym in Heq. congruence.
  - apply IH; assumption.
Qed.

(** After [m[k] = v] the value [v] is in the map, under [k] or under a key
    neither less nor greater. *)
Lemma subscript_assign_has_value {K V : Type} (less : K -> K -> bool)
  (k : K) (v : V) (m : list (K * V)) :
  exists k', In (k', v) (subscript_assign less k v m)
             /\ (k' = k \/ (less k' k = false /\ less k k' = false)).
Proof.
  unfold subscript_assign.
  induction m as [|[k1 v1] m IH]; cbn [subscript_update].
  - exists k. split; [left; reflexivity|left; reflexivity].
  - destruct (less k1 k) eqn:E1.
    + destruct IH as (k' & Hin & Hk). exists k'. split; [right; exact Hin|exact Hk].
    + destruct (less k k1) eqn:E2.
      * exists k. split; [left; reflexivity|left; reflexivity].
      * exists k1. split; [left; reflexivity|right; auto].
Qed.

Section order_by_more.

Variable len_of : SpacePointPtr -> double.

(** Spacepoints whose ordering values strictly ascend are entered one after
    the other at the end of the map. *)
Lemma order_by_ascending (l : list SpacePointPtr) :
  StronglySorted (fun a b => flt (len_of a) (len_of b) = true) l ->
  order_by len_of l = map (fun sp => (len_of sp, sp)) l.
Proof.
  induction l as [|sp l IH] using rev_ind; intros Hs; [reflexivity|].
  apply StronglySorted_snoc in Hs. destruct Hs as [Hl Hsp].
  rewrite order_by_snoc, (IH Hl), map_app. cbn [map].
  apply (subscript_update_append flt (len_of sp) (fun _ => sp)).
  intros k' v' Hin. apply in_map_iff in Hin. destruct Hin as (a & Ha & Hin).
  inversion Ha; subst. rewrite Forall_forall in Hsp. apply Hsp. exact Hin.
Qed.

Lemma order_by_values_ascending (l : list SpacePointPtr) :
  StronglySorted (fun a b => flt (len_of a) (len_of b) = true) l ->
  mapped_values (order_by len_of l) = l.
Proof.
  intros Hs. rewrite (order_by_ascending l Hs). unfold mapped_values.
  rewrite map_map. cbn [snd]. apply map_id.
Qed.

(** Of the spacepoints with equal ordering values the map holds the one
    that comes last in the input. *)
Lemma order_by_last_wins (l : list SpacePointPtr) :
  (forall sp, In sp l -> is_nan (len_of sp) = false) ->
  forall k v,
    In (k, v) (order_by len_of l) ->
    exists i, nth_error l i = Some v
              /\ forall j b, i < j -> nth_error l j = Some b ->
                             feq (len_of b) k = false.
Proof.
  induction l as [|sp l IH] using rev_ind; intros Hnan k v Hin; [destruct Hin|].
  assert (Hnan' : forall p, In p l -> is_nan (len_of p) = false).
  { intros p Hp. apply Hnan, in_or_app. left; exact Hp. }
  assert (Hsp : is_nan (len_of sp) = false).
  { apply Hnan, in_or_app. right; left; reflexivity. }
  destruct (order_by_invariant len_of (l ++ [sp]) Hnan) as (Hs' & Hv' & _).
  destruct (order_by_invariant len_of l Hnan') as (Hs & Hv & _).
  destruct (feq k (len_of sp)) eqn:Ek.
  - (* the entry of the new spacepoint *)
    assert (v = sp).
    { rewrite order_by_snoc in Hin, Hs'.
      destruct (subscript_assign_has_value flt (len_of sp) sp (order_by len_of l))
        as (k' & Hin' & Hk').
      assert (Hk : feq k k' = true).
      { destruct Hk' as [->|[H1 H2]]; [exact Ek|].
        apply feq_trans with (len_of sp); [exact Ek|].
        apply feq_sym, feq_of_not_flt; try assumption.
        rewrite <- order_by_snoc in Hin'.
        destruct (Hv' _ _ Hin') as [_ H]. apply feq_not_nan in H. tauto. }
      pose proof (keys_ascending_unique _ Hs' _ _ _ _ Hin Hin' Hk) as Heq.
      congruence. }
    subst v. exists (length l). split.
    + rewrite nth_error_app2, Nat.sub_diag by lia. reflexivity.
    + intros j b Hj Hb.
      assert (j < length (l ++ [sp])) by (apply nth_error_Some; congruence).
      rewrite length_app in H. cbn [length] in H. lia.
  - (* an entry that was there before *)
    assert (Hold : In (k, v) (order_by len_of l)).
    { rewrite order_by_snoc in Hin. unfold subscript_assign in Hin.
      destruct (subscript_update_In _ _ _ _ _ _ Hin)
        as [H|[[-> _]|(v0 & H & _ & H1 & H2)]]; [exact H| |].
      - rewrite feq_refl in Ek by exact Hsp. discriminate.
      - destruct (Hv _ _ H) as [_ Hk]. apply feq_not_nan in Hk.
        rewrite feq_of_not_flt in Ek; [discriminate|tauto|exact Hsp|exact H1|exact H2]. }
    destruct (IH Hnan' k v Hold) as (i & Hi & Hlater).
    assert (Hil : i < length l) by (apply nth_error_Some; congruence).
    exists i. split; [rewrite nth_error_app1 by lia; exact Hi|].
    intros j b Hj Hb.
    destruct (Nat.lt_ge_cases j (length l)) as [Hjl|Hjl].
    + rewrite nth_error_app1 in Hb by lia. apply (Hlater j b Hj Hb).
    + assert (j = length l).
      { assert (j < length (l ++ [sp])) by (apply nth_error_Some; congruence).
        rewrite length_app in H. cbn [length] in H. lia. }
      subst j. rewrite nth_error_app2, Nat.sub_diag in Hb by lia.
      cbn in Hb. inversion Hb; subst b.
      destruct (feq (len_of sp) k) eqn:E; [|reflexivity].
      apply feq_sym in E. congruence.
Qed.

End order_by_more.

(** What ordering by any value does to spacepoints whose values are
    numbers. *)
Lemma order_by_one_per_value (len_of : SpacePointPtr -> double)
  (l : list SpacePointPtr) :
  (forall sp, In sp l -> is_nan (len_of sp) = false) ->
  let ordered := mapped_values (order_by len_of l) in
  (forall sp, In sp ordered -> In sp l)
  /\ StronglySorted (fun a b => flt (len_of a) (len_of b) = true) ordered
  /\ (forall sp, In sp l ->
                 exists sp', In sp' ordered /\ feq (len_of sp') (len_of sp) = true)
  /\ (forall i j a b, i < j ->
                      nth_error l i = Some a -> nth_error l j = Some b ->
                      feq (len_of a) (len_of b) = true ->
                      length ordered < length l).
Proof.
  intros Hnan ordered.
  destruct (order_by_invariant len_of l Hnan) as (Hs & Hv & Hc).
  split; [|split; [|split]].
  - intros sp Hin. apply in_map_iff in Hin. destruct Hin as ([k v] & Heq & Hin).
    cbn [snd] in Heq. subst v. apply (Hv _ _ Hin).
  - apply mapped_values_ascending; [exact Hs|]. intros k v Hin. apply (Hv _ _ Hin).
  - intros sp Hin. destruct (Hc _ Hin) as (k & v & Hkv & Hk).
    exists v. split.
    + apply in_map_iff. exists (k, v). split; [reflexivity|exact Hkv].
    + apply feq_trans with k; [apply feq_sym; apply (Hv _ _ Hkv)|exact Hk].
  - unfold ordered, mapped_values. rewrite length_map.
    apply (order_by_length len_of l Hnan).
Qed.

(** X1.  A spacepoint list whose projections already ascend strictly comes
    back as it is, and ordering twice gives what ordering once gives (for
    projections that are numbers). *)
Theorem OrderShowerSpacePoints_idempotent
  (vertex : Point_t) (direction : Vector_t) (showersps : list SpacePointPtr) :
  let proj := fun sp => SpacePointProjection double_arith sp vertex direction in
  (StronglySorted (fun a b => flt (proj a) (proj b) = true) showersps ->
   OrderShowerSpacePoints vertex direction showersps = showersps)
  /\ ((forall sp, In sp showersps -> is_nan (proj sp) = false) ->
      OrderShowerSpacePoints vertex direction
        (OrderShowerSpacePoints vertex direction showersps)
      = OrderShowerSpacePoints vertex direction showersps).
Proof.
  intros proj. split.
  - intros Hs. apply (order_by_values_ascending proj showersps Hs).
  - intros Hnan. apply (order_by_values_ascending proj).
    apply (order_by_one_per_value proj showersps Hnan).
Qed.

Lemma OrderShowerSpacePoints_idempotent_witness :
  let vertex : Point_t := mkXYZ (D_of_Z 0) (D_of_Z 0) (D_of_Z 0) in
  let direction : Vector_t := mkXYZ (D_of_Z 1) (D_of_Z 0) (D_of_Z 0) in
  let showersps := [spacepoint_at 0 4 5 0; spacepoint_at 1 1 (-2) 7; spacepoint_at 2 4 0 0] in
  OrderShowerSpacePoints vertex direction (OrderShowerSpacePoints vertex direction showersps)
    = OrderShowerSpacePoints vertex direction showersps
  /\ OrderShowerSpacePoints vertex direction [spacepoint_at 1 1 (-2) 7; spacepoint_at 2 4 0 0]
    = [spacepoint_at 1 1 (-2) 7; spacepoint_at 2 4 0 0].
Proof.
  intros vertex direction showersps.
  split.
  - apply (proj2 (OrderShowerSpacePoints_idempotent vertex direction showersps)).
    intros sp [<-|[<-|[<-|[]]]]; vm_compute; reflexivity.
  - apply (proj1 (OrderShowerSpacePoints_idempotent vertex direction
                    [spacepoint_at 1 1 (-2) 7; spacepoint_at 2 4 0 0])).
    repeat constructor.
Defined.

(** X2.  Of the spacepoints with equal projections, the one kept is the
    last of them in the input: every spacepoint of the result stands at an
    input position after which no spacepoint has its projection. *)
Theorem OrderShowerSpacePoints_keeps_last_of_equals
  (vertex : Point_t) (direction : Vector_t) (showersps : list SpacePointPtr) :
  let proj := fun sp => SpacePointProjection double_arith sp vertex direction in
  (forall sp, In sp showersps -> is_nan (proj sp) = false) ->
  forall kept, In kept (OrderShowerSpacePoints vertex direction showersps) ->
    exists i, nth_error showersps i = Some kept
              /\ forall j later, i < j -> nth_error showersps j = Some later ->
                                 feq (proj later) (proj kept) = false.
Proof.
  intros proj Hnan kept Hin.
  apply in_map_iff in Hin. destruct Hin as ([k v] & Heq & Hin).
  cbn [snd] in Heq. subst v.
  destruct (order_by_last_wins proj showersps Hnan k kept Hin) as (i & Hi & Hlater).
  destruct (order_by_invariant proj showersps Hnan) as (_ & Hv & _).
  destruct (Hv _ _ Hin) as [_ Hk].
  exists i. split; [exact Hi|]. intros j later Hj Hl.
  specialize (Hlater j later Hj Hl).
  destruct (feq (proj later) (proj kept)) eqn:E; [|reflexivity].
  rewrite (feq_trans _ _ _ E (feq_sym _ _ Hk)) in Hlater. discriminate.
Qed.

Lemma OrderShowerSpacePoints_keeps_last_of_equals_witness :
  let vertex : Point_t := mkXYZ (D_of_Z 0) (D_of_Z 0) (D_of_Z 0) in
  let direction : Vector_t := mkXYZ (D_of_Z 1) (D_of_Z 0) (D_of_Z 0) in
  let showersps := [spacepoint_at 0 4 5 0; spacepoint_at 1 1 (-2) 7; spacepoint_at 2 4 0 0] in
  exists i, nth_error showersps i = Some (spacepoint_at 2 4 0 0)
            /\ forall j later, i < j -> nth_error showersps j = Some later ->
                 feq (SpacePointProjection double_arith later vertex direction)
                     (SpacePointProjection double_arith (spacepoint_at 2 4 0 0)
                                           vertex direction) = false.
Proof.
  intros vertex direction showersps.
  apply (OrderShowerSpacePoints_keeps_last_of_equals vertex direction showersps).
  - intros sp [<-|[<-|[<-|[]]]]; vm_compute; reflexivity.
  - vm_compute. right; left; reflexivity.
Defined.



(** X4.  Ordering by distance from a vertex (the overload without a
    direction) behaves the same way: strictly ascending distances that are
    never below zero, one spacepoint per distance. *)
Theorem OrderShowerSpacePoints_vertex_one_per_distance
  (vertex : Point_t) (showersps : list SpacePointPtr) :
  let dist := fun sp : SpacePointPtr =>
    Mag double_arith (Minus double_arith (position (get sp)) vertex) in
  let ordered := OrderShowerSpacePoints_vertex vertex showersps in
  (forall sp, In sp showersps -> is_nan (dist sp) = false) ->
  (forall sp, In sp ordered -> In sp showersps /\ flt (dist sp) (D_of_Z 0) = false)
  /\ StronglySorted (fun a b => flt (dist a) (dist b) = true) ordered
  /\ (forall sp, In sp showersps ->
                 exists sp', In sp' ordered /\ feq (dist sp') (dist sp) = true)
  /\ (forall i j a b, i < j ->
                      nth_error showersps i = Some a -> nth_error showersps j = Some b ->
                      feq (dist a) (dist b) = true ->
                      length ordered < length showersps).
Proof.
  intros dist ordered Hnan.
  destruct (order_by_one_per_value dist showersps Hnan) as (H1 & H2 & H3 & H4).
  split; [|split; [exact H2|split; [exact H3|exact H4]]].
  intros sp Hsp. split; [apply H1; exact Hsp|].
  exact (Dsqrt_not_negative
           (Mag2 double_arith (Minus double_arith (position (get sp)) vertex))).
Qed.

Lemma OrderShowerSpacePoints_vertex_one_per_distance_witness :
  let vertex : Point_t := mkXYZ (D_of_Z 1) (D_of_Z 0) (D_of_Z 0) in
  let showersps := [spacepoint_at 0 1 3 4; spacepoint_at 1 1 0 0; spacepoint_at 2 1 (-5) 0] in
  OrderShowerSpacePoints_vertex vertex showersps
    = [spacepoint_at 1 1 0 0; spacepoint_at 2 1 (-5) 0]
  /\ forall sp, In sp (OrderShowerSpacePoints_vertex vertex showersps) ->
                In sp showersps.
Proof.
  intros vertex showersps.
  split; [vm_compute; reflexivity|].
  destruct (OrderShowerSpacePoints_vertex_one_per_distance vertex showersps)
    as (H & _).
  - intros sp [<-|[<-|[<-|[]]]]; vm_compute; reflexivity.
  - intros sp Hsp. apply (H sp Hsp).
Defined.

(** * Further properties of OrderShowerHits *)


Lemma StronglySorted_app {A : Type} (R : A -> A -> Prop) (l1 l2 : list A) :
  StronglySorted R l1 -> StronglySorted R l2 ->
  (forall a b, In a l1 -> In b l2 -> R a b) ->
  StronglySorted R (l1 ++ l2).
Proof.
  induction 1 as [|a l1 Hs IH Hall]; intros H2 Hcross; cbn [app]; [exact H2|].
  constructor.
  - apply IH; [exact H2|]. intros x y Hx Hy. apply Hcross; [right; exact Hx|exact Hy].
  - apply Forall_app. split; [exact Hall|].
    apply Forall_forall. intros y Hy. apply Hcross; [left; reflexivity|exact Hy].
Qed.

Lemma StronglySorted_reverse {A : Type} (R : A -> A -> Prop) (l : list A) :
  StronglySorted R l -> StronglySorted (fun a b => R b a) (rev l).
Proof.
  induction 1 as [|a l Hs IH Hall]; cbn [rev]; [constructor|].
  apply StronglySorted_app; [exact IH|repeat constructor|].
  intros x y Hx [<-|[]]. rewrite Forall_forall in Hall.
  apply Hall, in_rev. exact Hx.
Qed.

(** Values read off a map with ascending keys ascend, when each value is
    stored under a key equal to what it is measured by. *)
Lemma mapped_values_ascending_by {V : Type} (measure : V -> double)
  (m : list (double * V)) :
  keys_ascending flt m ->
  (forall k v, In (k, v) m -> feq k (measure v) = true) ->
  StronglySorted (fun a b => flt (measure a) (measure b) = true) (mapped_values m).
Proof.
  unfold keys_ascending, mapped_values.
  induction m as [|[k v] m IH]; intros Hs Hv; cbn [map]; [constructor|].
  apply StronglySorted_inv in Hs. destruct Hs as [Hs Hall].
  constructor.
  - apply IH; [exact Hs|]. intros k' v' Hin. apply Hv. right; exact Hin.
  - rewrite Forall_forall in *. intros v' Hin'.
    apply in_map_iff in Hin'. destruct Hin' as ([k' v''] & Heq & Hin'').
    cbn [snd] in Heq. subst v''.
    specialize (Hall _ Hin''). cbn [fst snd] in *.
    apply feq_flt_trans with k; [apply feq_sym, Hv; left; reflexivity|].
    apply flt_feq_trans with k'; [exact Hall|]. apply Hv. right; exact Hin''.
Qed.

Section OrderShowerHits_more.

Variable WirePitch : PlaneID -> double.
Variable WireCoordinate : Point_t -> PlaneID -> double.
Variable GetIncreasingWireDirection : PlaneID -> Vector_t.
Variable ConvertTicksToX : float -> PlaneID -> double.

(** The loop keeps the keys ascending and every hit under a key equal to
    its projection. *)
Lemma OrderShowerHits_loop_ascending (startPlane : PlaneID) (start dir : TVector2)
  (hits : list HitPtr) :
  let measure := fun hit =>
    TVector2_dot (TVector2_minus (HitCoordinates WirePitch ConvertTicksToX hit) start)
                 dir in
  (forall hit, In hit hits -> is_nan (measure hit) = false) ->
  forall OrderedHits,
    keys_ascending flt OrderedHits ->
    (forall k v, In (k, v) OrderedHits -> feq k (measure v) = true) ->
    keys_ascending flt
      (OrderShowerHits_loop WirePitch ConvertTicksToX startPlane start dir hits OrderedHits)
    /\ (forall k v,
           In (k, v) (OrderShowerHits_loop WirePitch ConvertTicksToX startPlane
                                           start dir hits OrderedHits) ->
           feq k (measure v) = true).
Proof.
  intros measure. induction hits as [|h rest IH]; intros Hnan m Hs Hv;
    cbn [OrderShowerHits_loop]; [split; assumption|].
  destruct (PlaneID_neq _ startPlane); [split; assumption|].
  apply IH.
  - intros hit Hin. apply Hnan. right; exact Hin.
  - apply subscript_update_ascending; [exact flt_trans|exact Hs].
  - intros k v Hin. unfold subscript_assign in Hin.
    pose proof (Hnan h (or_introl eq_refl)) as Hh.
    destruct (subscript_update_In _ _ _ _ _ _ Hin)
      as [H|[[-> ->]|(v0 & H & -> & H1 & H2)]].
    + apply (Hv _ _ H).
    + apply feq_refl. exact Hh.
    + pose proof (Hv _ _ H) as Hk. apply feq_not_nan in Hk.
      apply feq_of_not_flt; tauto.
Qed.

(** X5.  What the final comparison of [OrderShowerHits] achieves: the
    absolute projection of the last hit returned is not below that of the
    first.  For projections that are numbers the hits returned are strictly
    monotone in projection, ascending or descending. *)
Theorem OrderShowerHits_monotone_outwards
  (startHit : HitPtr) (rest : list HitPtr)
  (ShowerStartPosition : Point_t) (ShowerDirection : Vector_t)
  (showerHits : list HitPtr) :
  let proj := hit_projection WirePitch WireCoordinate GetIncreasingWireDirection
                             ConvertTicksToX startHit
                             ShowerStartPosition ShowerDirection in
  OrderShowerHits WirePitch WireCoordinate GetIncreasingWireDirection
                  ConvertTicksToX (startHit :: rest)
                  ShowerStartPosition ShowerDirection = Value showerHits ->
  (exists front back,
      nth_error showerHits 0 = Some front
      /\ nth_error showerHits (length showerHits - 1) = Some back
      /\ flt (Dabs (proj back)) (Dabs (proj front)) = false)
  /\ ((forall hit, In hit (startHit :: rest) -> is_nan (proj hit) = false) ->
      StronglySorted (fun a b => flt (proj a) (proj b) = true) showerHits
      \/ StronglySorted (fun a b => flt (proj b) (proj a) = true) showerHits).
Proof.
  intros proj. unfold OrderShowerHits.
  set (planeid := asPlaneID (hit_WireID (get startHit))).
  set (start2D := (Dmul (WireCoordinate ShowerStartPosition planeid) (WirePitch planeid),
                   fX ShowerStartPosition)).
  set (dir2D := TVector2_Unit _).
  set (m := OrderShowerHits_loop _ _ planeid start2D dir2D (startHit :: rest) []).
  assert (Hsorted : (forall hit, In hit (startHit :: rest) -> is_nan (proj hit) = false) ->
                    StronglySorted (fun a b => flt (proj a) (proj b) = true)
                                   (mapped_values m)).
  { intros Hnan.
    destruct (OrderShowerHits_loop_ascending planeid start2D dir2D
                (startHit :: rest) Hnan [])
      as [Hs Hv]; [constructor|intros k v []|].
    apply (mapped_values_ascending_by proj); [exact Hs|exact Hv]. }
  destruct (mapped_values m) as [|frontHit others] eqn:Em; [discriminate|].
  destruct (rev (frontHit :: others)) as [|backHit others'] eqn:Er; [discriminate|].
  assert (Hlast : nth_error (frontHit :: others) (length (frontHit :: others) - 1)
                  = Some backHit).
  { rewrite <- (rev_involutive (frontHit :: others)), Er.
    cbn [rev]. rewrite length_app, nth_error_app2; cbn [length]; [|lia].
    replace (length (rev others') + 1 - 1 - length (rev others')) with 0 by lia.
    reflexivity. }
  assert (Hlast' : nth_error (backHit :: others') (length (backHit :: others') - 1)
                   = Some frontHit).
  { rewrite <- Er. cbn [rev]. rewrite length_app, nth_error_app2; cbn [length]; [|lia].
    replace (length (rev others) + 1 - 1 - length (rev others)) with 0 by lia.
    reflexivity. }
  match goal with
  | |- (if ?c then _ else _) = _ -> _ =>
    change c with (flt (Dabs (proj backHit)) (Dabs (proj frontHit)))
  end.
  destruct (flt (Dabs (proj backHit)) (Dabs (proj frontHit))) eqn:Ecmp;
    intros Hout; injection Hout as <-; split.
  - exists backHit, frontHit. split; [reflexivity|]. split; [exact Hlast'|].
    apply flt_asym. exact Ecmp.
  - intros Hnan. right. rewrite <- Er.
    apply (StronglySorted_reverse _ _ (Hsorted Hnan)).
  - exists frontHit, backHit. split; [reflexivity|]. split; [exact Hlast|exact Ecmp].
  - intros Hnan. left. apply (Hsorted Hnan).
Qed.

End OrderShowerHits_more.

Lemma OrderShowerHits_monotone_outwards_witness :
  let proj := hit_projection (fun _ => D_of_Z 1) (fun p _ => fZ p)
                (fun _ => mkXYZ (D_of_Z 0) (D_of_Z 0) (D_of_Z 1))
                (fun t _ => float_to_double t) (hit_on 0 0 9 5)
                (mkXYZ (D_of_Z 0) (D_of_Z 0) (D_of_Z 0))
                (mkXYZ (D_of_Z 0) (D_of_Z 0) (D_of_Z 1)) in
  flt (Dabs (proj (hit_on 0 0 9 5))) (Dabs (proj (hit_on 1 0 4 6))) = false.
Proof.
  intros proj.
  destruct (OrderShowerHits_monotone_outwards
              (fun _ => D_of_Z 1) (fun p _ => fZ p)
              (fun _ => mkXYZ (D_of_Z 0) (D_of_Z 0) (D_of_Z 1))
              (fun t _ => float_to_double t)
              (hit_on 0 0 9 5) [hit_on 1 0 4 6]
              (mkXYZ (D_of_Z 0) (D_of_Z 0) (D_of_Z 0))
              (mkXYZ (D_of_Z 0) (D_of_Z 0) (D_of_Z 1))
              [hit_on 1 0 4 6; hit_on 0 0 9 5])
    as [(front & back & Hfront & Hback & Hcmp) _].
  - vm_compute. reflexivity.
  - injection Hfront as <-. injection Hback as <-. exact Hcmp.
Defined.

(** * Further properties of ShowerCentre *)

Lemma feq_zero_inv (x : float) :
  feq x (F_of_Z 0) = true -> exists s, x = S754_zero s.
Proof.
  destruct x as [s|s| |s m e]; intros H.
  - exists s. reflexivity.
  - destruct s; discriminate H.
  - discriminate H.
  - destruct s; discriminate H.
Qed.

Section ShowerCentre_more.

Variables (fUseCollectionOnly : bool) (sampling_rate ElectronLifetime : double)
          (std_exp : double -> double).

Local Abbreviation centre_loop :=
  (ShowerCentre_loop fUseCollectionOnly sampling_rate ElectronLifetime std_exp).

Lemma ShowerCentre_loop_in_range (fmh : FindManyP) (showersps : list SpacePointPtr) :
  Forall (fun sp => key sp < length fmh) showersps ->
  forall chargePoint totalCharge log,
    exists r, centre_loop fmh showersps chargePoint totalCharge log = Value r.
Proof.
  induction 1 as [|sp rest Hsp _ IH]; intros cp tot log; cbn [ShowerCentre_loop].
  - eexists. reflexivity.
  - unfold fmh_at. destruct (nth_error fmh (key sp)) as [hits|] eqn:E.
    2:{ apply nth_error_None in E. lia. }
    cbn [bind]. destruct (ShowerCentre_charge _ _ _ _ hits) as [charge warned].
    apply IH.
Qed.

Lemma ShowerCentre_loop_out_of_range (fmh : FindManyP) (showersps : list SpacePointPtr) :
  Exists (fun sp => length fmh <= key sp) showersps ->
  forall chargePoint totalCharge log,
    centre_loop fmh showersps chargePoint totalCharge log = Exception "out_of_range".
Proof.
  induction showersps as [|sp rest IH]; intros Hex cp tot log;
    [inversion Hex|].
  cbn [ShowerCentre_loop]. unfold fmh_at.
  destruct (nth_error fmh (key sp)) as [hits|] eqn:E; [|reflexivity].
  cbn [bind]. destruct (ShowerCentre_charge _ _ _ _ hits) as [charge warned].
  apply IH. inversion Hex as [? ? Hsp|? ? Hrest]; subst; [|exact Hrest].
  assert (key sp < length fmh) by (apply nth_error_Some; congruence). lia.
Qed.

(** X6.  The charge-weighted centre is computed exactly when every
    spacepoint has its entry in the association: one spacepoint key beyond
    the association makes the call throw [out_of_range], whatever the other
    spacepoints are. *)
Theorem ShowerCentre_throws_without_association
  (showersps : list SpacePointPtr) (fmh : FindManyP) (totalCharge : float) :
  (Exists (fun sp => length fmh <= key sp) showersps ->
   ShowerCentre fUseCollectionOnly sampling_rate ElectronLifetime std_exp
                showersps fmh totalCharge = Exception "out_of_range")
  /\ (Forall (fun sp => key sp < length fmh) showersps ->
      exists centre total log,
        ShowerCentre fUseCollectionOnly sampling_rate ElectronLifetime std_exp
                     showersps fmh totalCharge = Value (centre, total, log)).
Proof.
  split; intros H; unfold ShowerCentre.
  - rewrite (ShowerCentre_loop_out_of_range fmh showersps H). reflexivity.
  - destruct (ShowerCentre_loop_in_range fmh showersps H
                (mkXYZ (D_of_Z 0) (D_of_Z 0) (D_of_Z 0)) totalCharge [])
      as ([[cp tot] log] & ->).
    cbn [bind]. eexists. eexists. eexists. reflexivity.
Qed.

(** X7.  A total charge of zero leaves no finite centre: the centre is the
    charge-weighted sum times [1 / totalCharge], and every coordinate of it
    is then an infinity or not a number. *)
Theorem ShowerCentre_zero_charge_no_centre
  (showersps : list SpacePointPtr) (fmh : FindManyP) (totalCharge : float)
  (centre : Point_t) (total : float) (log : list String.string) :
  ShowerCentre fUseCollectionOnly sampling_rate ElectronLifetime std_exp
               showersps fmh totalCharge = Value (centre, total, log) ->
  feq total (F_of_Z 0) = true ->
  is_finite (fX centre) = false
  /\ is_finite (fY centre) = false
  /\ is_finite (fZ centre) = false.
Proof.
  unfold ShowerCentre.
  destruct (centre_loop fmh showersps _ totalCharge [])
    as [[[cp tot] log']| |]; cbn [bind]; try discriminate.
  intros Hval Hzero. injection Hval as <- <- <-.
  destruct (feq_zero_inv tot Hzero) as [s ->].
  assert (Hinf : forall x, is_finite
                   (Dmul (float_to_double (Fdiv (F_of_Z 1) (S754_zero s))) x) = false).
  { intros x. destruct s, x as [sx|sx| |sx mx ex]; reflexivity. }
  cbn [Scale fX fY fZ times_of double_arith].
  repeat split; apply Hinf.
Qed.

End ShowerCentre_more.

Lemma ShowerCentre_zero_charge_no_centre_witness :
  exists centre,
    ShowerCentre false (D_of_Z 1) (D_of_Z 1) (fun x => x) [] [] (F_of_Z 0)
      = Value (centre, F_of_Z 0, [])
    /\ is_finite (fX centre) = false
    /\ is_finite (fY centre) = false
    /\ is_finite (fZ centre) = false.
Proof.
  eexists. split; [reflexivity|].
  apply (ShowerCentre_zero_charge_no_centre false (D_of_Z 1) (D_of_Z 1) (fun x => x)
           [] [] (F_of_Z 0) _ (F_of_Z 0) []); reflexivity.
Defined.

(** X8.  In collection-only mode the charge of a spacepoint is the
    lifetime-corrected integral of its first collection-plane hit, later
    hits being ignored, and zero when it has no such hit; nothing is
    averaged and the no-points warning is never logged. *)
Theorem ShowerCentre_charge_collection_only
  (sampling_rate ElectronLifetime : double) (std_exp : double -> double)
  (hits : list HitPtr) :
  ShowerCentre_charge true sampling_rate ElectronLifetime std_exp hits =
  (match find (fun hit => SigType_eqb (SignalType (get hit)) kCollection) hits with
   | Some hit =>
     double_to_float (corrected_integral sampling_rate ElectronLifetime std_exp hit)
   | None => F_of_Z 0
   end, []).
Proof.
  unfold ShowerCentre_charge.
  assert (H : forall charge charge2,
    fst (ShowerCentre_sums true sampling_rate ElectronLifetime std_exp hits charge charge2)
    = match find (fun hit => SigType_eqb (SignalType (get hit)) kCollection) hits with
      | Some hit =>
        double_to_float (corrected_integral sampling_rate ElectronLifetime std_exp hit)
      | None => charge
      end).
  { induction hits as [|hit rest IH]; intros charge charge2;
      cbn [ShowerCentre_sums find]; [reflexivity|].
    destruct (SigType_eqb (SignalType (get hit)) kCollection); [reflexivity|].
    apply IH. }
  specialize (H (F_of_Z 0) (F_of_Z 0)).
  destruct (ShowerCentre_sums true _ _ _ hits _ _) as [charge charge2].
  cbn [fst] in H. rewrite H. reflexivity.
Qed.

(** * Further properties of CalculateRMS and RMSShowerGradient *)

Lemma binary_round_aux_not_negative (prec emax m e : Z) (l : location) :
  not_negative (binary_round_aux prec emax false m e l) = true.
Proof.
  pose proof (binary_round_aux_sign prec emax false m e l) as H.
  destruct (binary_round_aux prec emax false m e l) as [s|s| |s m' e'];
    try subst s; reflexivity.
Qed.

Lemma SFsqrt_not_negative (prec emax : Z) (x : spec_float) :
  not_negative (SFsqrt prec emax x) = true.
Proof.
  unfold SFsqrt.
  destruct x as [s|s| |s m e]; try reflexivity; destruct s; try reflexivity.
  destruct (SFsqrt_core_binary prec emax (Z.pos m) e) as [[mz ez] lz].
  apply binary_round_aux_not_negative.
Qed.

Lemma renorm_not_negative (prec emax : Z) (x : spec_float) :
  not_negative x = true -> not_negative (renorm prec emax x) = true.
Proof.
  destruct x as [s|s| |s m e]; try (intros H; exact H).
  destruct s; [discriminate|]. intros _.
  unfold renorm, binary_normalize, binary_round. cbn [cond_Zopp].
  destruct (shl_align m e _) as [mz ez].
  apply binary_round_aux_not_negative.
Qed.

Lemma not_negative_flt (x : spec_float) :
  not_negative x = true -> flt x (S754_zero false) = false.
Proof.
  destruct x as [s|s| |s m e]; try reflexivity;
    destruct s; try reflexivity; discriminate.
Qed.

(** X9.  CalculateRMS gives a value below zero exactly when it is given
    fewer than two values (its failure value, the lowest [double]); with two
    or more the square root is never below zero, as a [double] and as the
    [float] that RMSShowerGradient stores it in, so that a segment of two or
    more spacepoints is never left out of the regression by the failure
    check. *)
Theorem CalculateRMS_negative_iff_too_few (perps : list float) :
  flt (CalculateRMS perps) (D_of_Z 0) = (length perps <? 2)
  /\ flt (double_to_float (CalculateRMS perps)) (F_of_Z 0) = (length perps <? 2).
Proof.
  unfold CalculateRMS.
  destruct (length perps <? 2); [split; reflexivity|].
  set (sum := fold_left _ perps _).
  pose proof (SFsqrt_not_negative 24 128 (Fdiv sum (F_of_nat (length perps - 1)))) as H.
  fold Fsqrt in H.
  apply (renorm_not_negative 53 1024) in H. fold float_to_double in H.
  split; [exact (not_negative_flt _ H)|].
  apply (renorm_not_negative 24 128) in H. fold double_to_float in H.
  exact (not_negative_flt _ H).
Qed.

Section RMSShowerGradient_more.

Variables (ShowerCentre : Point_t) (Direction : Vector_t).

Lemma to_int_no_exception (z : Z) (what : String.string) :
  to_int z <> Exception what.
Proof. unfold to_int. destruct (_ && _)%bool; discriminate. Qed.

Lemma segment_loop_no_exception (segmentsize : double) (sps : list SpacePointPtr)
  (what : String.string) :
  forall len_segment_map,
    segment_loop ShowerCentre Direction segmentsize sps len_segment_map
    <> Exception what.
Proof.
  induction sps as [|sp rest IH]; intros m; cbn [segment_loop]; [discriminate|].
  destruct (std_round _) as [z|]; [|discriminate].
  unfold to_int. destruct (_ && _)%bool; cbn [bind]; [apply IH|discriminate].
Qed.

Lemma regression_loop_no_exception (segments : list (Z * list float))
  (what : String.string) :
  forall counter sumx sumy sumx2 sumxy,
    regression_loop segments counter sumx sumy sumx2 sumxy <> Exception what.
Proof.
  induction segments as [|segment rest IH]; intros counter sumx sumy sumx2 sumxy;
    cbn [regression_loop]; [discriminate|].
  destruct (length (snd segment) <? 2); [apply IH|].
  destruct (flt _ (F_of_Z 0)); [apply IH|].
  unfold to_int. destruct (_ && _)%bool; cbn [bind]; [apply IH|discriminate].
Qed.

(** X10.  RMSShowerGradient throws in one case only, a segment count of
    zero, and then whatever the spacepoints are; with a positive segment
    count no input makes it throw. *)
Theorem RMSShowerGradient_throws_iff_no_segments
  (sps : list SpacePointPtr) (nSegments : nat) (what : String.string) :
  RMSShowerGradient ShowerCentre Direction sps nSegments = Exception what
  <-> nSegments = 0
      /\ what = "Unable to calculate RMS Shower Gradient with 0 segments".
Proof.
  unfold RMSShowerGradient. split.
  - destruct nSegments as [|n]; cbn [Nat.eqb].
    + intros H. injection H as <-. split; reflexivity.
    + destruct (length sps <? 3); [discriminate|].
      destruct (nth_error _ 0); [|discriminate].
      destruct (nth_error _ _); [|discriminate].
      destruct (flt _ double_epsilon); [discriminate|].
      destruct (segment_loop _ _ _ _ _) as [m| |] eqn:Eseg; cbn [bind];
        [|exfalso; exact (segment_loop_no_exception _ _ _ _ Eseg)|discriminate].
      destruct (regression_loop m _ _ _ _ _) as [[counter [[[sx sy] sx2] sxy]]| |] eqn:Ereg;
        cbn [bind];
        [discriminate|exfalso; exact (regression_loop_no_exception _ _ _ _ _ _ _ Ereg)
        |discriminate].
  - intros [-> ->]. reflexivity.
Qed.

(** X11.  RMSShowerGradient reorders the caller's spacepoints: whenever the
    call returns, also on the early return for too short a shower extent,
    the vector it leaves is the projection-ordered one that
    OrderShowerSpacePoints makes of the input, and only an input of fewer
    than three spacepoints is left as it was. *)
Theorem RMSShowerGradient_leaves_spacepoints_ordered
  (sps : list SpacePointPtr) (nSegments : nat)
  (gradient : double) (sps' : list SpacePointPtr) :
  RMSShowerGradient ShowerCentre Direction sps nSegments = Value (gradient, sps') ->
  sps' = if length sps <? 3 then sps
         else OrderShowerSpacePoints ShowerCentre Direction sps.
Proof.
  unfold RMSShowerGradient.
  destruct (nSegments =? 0); [discriminate|].
  destruct (length sps <? 3); [intros H; injection H as _ <-; reflexivity|].
  destruct (nth_error _ 0); [|discriminate].
  destruct (nth_error _ _); [|discriminate].
  destruct (flt _ double_epsilon); [intros H; injection H as _ <-; reflexivity|].
  destruct (segment_loop _ _ _ _ _) as [m| |]; cbn [bind]; try discriminate.
  destruct (regression_loop m _ _ _ _ _) as [[counter [[[sx sy] sx2] sxy]]| |];
    cbn [bind]; try discriminate.
  intros H; injection H as _ <-; reflexivity.
Qed.

End RMSShowerGradient_more.

Lemma RMSShowerGradient_leaves_spacepoints_ordered_witness :
  exists gradient,
    RMSShowerGradient (mkXYZ (D_of_Z 0) (D_of_Z 0) (D_of_Z 0))
                      (mkXYZ (D_of_Z 1) (D_of_Z 0) (D_of_Z 0))
                      [spacepoint_at 0 9 0 2; spacepoint_at 1 1 0 0;
                       spacepoint_at 2 5 1 0; spacepoint_at 3 1 7 7] 2
    = Value (gradient, [spacepoint_at 3 1 7 7; spacepoint_at 2 5 1 0;
                        spacepoint_at 0 9 0 2]).
Proof.
  destruct (RMSShowerGradient (mkXYZ (D_of_Z 0) (D_of_Z 0) (D_of_Z 0))
                      (mkXYZ (D_of_Z 1) (D_of_Z 0) (D_of_Z 0))
                      [spacepoint_at 0 9 0 2; spacepoint_at 1 1 0 0;
                       spacepoint_at 2 5 1 0; spacepoint_at 3 1 7 7] 2)
    as [[gradient sps']| |] eqn:E; try (vm_compute in E; discriminate E).
  exists gradient.
  rewrite (RMSShowerGradient_leaves_spacepoints_ordered _ _ _ _ _ _ E).
  vm_compute. reflexivity.
Defined.

Lemma feq_finite_inv (a p : double) :
  feq a p = true -> is_finite p = true ->
  (exists s s', a = S754_zero s /\ p = S754_zero s')
  \/ (a = p /\ exists s m e, p = S754_finite s m e).
Proof.
  unfold feq, SFeqb, SFcompare.
  destruct a as [sa|sa| |sa ma ea], p as [sp|sp| |sp mp ep]; intros H Hfin;
    try discriminate Hfin; try discriminate H;
    try (destruct sa; discriminate H); try (destruct sp; discriminate H).
  - left. eauto.
  - right.
    assert (sa = sp /\ ea = ep /\ ma = mp) as (-> & -> & ->).
    { destruct sa, sp; try discriminate H;
        destruct (Z.compare ea ep) eqn:Ee; try discriminate H;
        try change (Pos.compare_cont Eq ma mp) with (Pos.compare ma mp) in H;
        destruct (Pos.compare ma mp) eqn:Em; try discriminate H;
        apply Z.compare_eq_iff in Ee; apply Pos.compare_eq_iff in Em; auto. }
    split; [reflexivity|eauto].
Qed.

Lemma Dsub_of_equals (a b p : double) :
  feq a p = true -> feq b p = true -> is_finite p = true ->
  exists s, Dsub a b = S754_zero s.
Proof.
  intros Ha Hb Hfin.
  destruct (feq_finite_inv a p Ha Hfin) as [(sa & sp & -> & Hp)|(-> & s & m & e & Hp)];
    destruct (feq_finite_inv b p Hb Hfin) as [(sb & sp' & -> & Hp')|(-> & s' & m' & e' & Hp')];
    try congruence.
  - destruct sa, sb; eexists; reflexivity.
  - subst p. unfold Dsub, SFsub. cbv zeta. rewrite Z.sub_diag.
    eexists. reflexivity.
Qed.

Lemma D_of_nat_not_zero (n : nat) :
  n <> 0 ->
  match D_of_nat n with
  | S754_finite _ _ _ | S754_infinity _ => True
  | _ => False
  end.
Proof.
  destruct n as [|n]; [congruence|]. intros _.
  unfold D_of_nat, D_of_Z, binary_normalize. cbn [Z.of_nat].
  pose proof (binary_round_not_zero 53 1024 eq_refl false
                (Pos.of_succ_nat n) 0 ltac:(vm_compute; discriminate)) as H.
  destruct (binary_round 53 1024 false (Pos.of_succ_nat n) 0); tauto.
Qed.

(** X12.  A shower without extent along the direction has gradient zero:
    when at least three spacepoints all project to the same finite value,
    RMSShowerGradient with a positive segment count returns 0, by its
    segment-size check and without fitting anything, and leaves the vector
    ordered. *)
Theorem RMSShowerGradient_without_extent
  (ShowerCentre : Point_t) (Direction : Vector_t)
  (sps : list SpacePointPtr) (nSegments : nat) (p : double) :
  nSegments <> 0 ->
  3 <= length sps ->
  is_finite p = true ->
  (forall sp, In sp sps ->
     feq (SpacePointProjection double_arith sp ShowerCentre Direction) p = true) ->
  RMSShowerGradient ShowerCentre Direction sps nSegments
  = Value (D_of_Z 0, OrderShowerSpacePoints ShowerCentre Direction sps).
Proof.
  intros Hn Hlen Hfin Hp.
  set (proj := fun sp => SpacePointProjection double_arith sp ShowerCentre Direction).
  assert (Hnan : forall sp, In sp sps -> is_nan (proj sp) = false).
  { intros sp Hsp. exact (proj1 (feq_not_nan _ _ (Hp sp Hsp))). }
  destruct (order_by_one_per_value proj sps Hnan) as (Hin & _ & Hcov & _).
  fold (OrderShowerSpacePoints ShowerCentre Direction sps) in Hin, Hcov.
  unfold RMSShowerGradient.
  destruct nSegments as [|n]; [congruence|]. cbn [Nat.eqb].
  destruct (Nat.ltb_spec (length sps) 3) as [Hlt|_]; [lia|].
  set (ordered := OrderShowerSpacePoints ShowerCentre Direction sps) in *.
  assert (Hne : ordered <> []).
  { destruct sps as [|sp0 rest]; [cbn in Hlen; lia|].
    destruct (Hcov sp0 (or_introl eq_refl)) as (sp' & Hsp' & _).
    intros E. change (In sp' ordered) in Hsp'. rewrite E in Hsp'. exact Hsp'. }
  destruct (nth_error ordered 0) as [first|] eqn:Efirst.
  2:{ apply nth_error_None in Efirst. destruct ordered; [congruence|cbn in Efirst; lia]. }
  destruct (nth_error ordered (length ordered - 1)) as [last|] eqn:Elast.
  2:{ apply nth_error_None in Elast. destruct ordered; [congruence|cbn in Elast; lia]. }
  apply nth_error_In, Hin, Hp in Efirst.
  apply nth_error_In, Hin, Hp in Elast.
  destruct (Dsub_of_equals _ _ p Elast Efirst Hfin) as [s ->].
  pose proof (D_of_nat_not_zero (S n) ltac:(discriminate)) as Hd.
  destruct (D_of_nat (S n)) as [s'|s'| |s' m' e']; try contradiction;
    destruct s, s'; reflexivity.
Qed.

Lemma RMSShowerGradient_without_extent_witness :
  RMSShowerGradient (mkXYZ (D_of_Z 0) (D_of_Z 0) (D_of_Z 0))
                    (mkXYZ (D_of_Z 1) (D_of_Z 0) (D_of_Z 0))
                    [spacepoint_at 0 4 0 2; spacepoint_at 1 4 1 0;
                     spacepoint_at 2 4 7 7] 5
  = Value (D_of_Z 0, [spacepoint_at 2 4 7 7]).
Proof.
  rewrite (RMSShowerGradient_without_extent
             (mkXYZ (D_of_Z 0) (D_of_Z 0) (D_of_Z 0))
             (mkXYZ (D_of_Z 1) (D_of_Z 0) (D_of_Z 0))
             [spacepoint_at 0 4 0 2; spacepoint_at 1 4 1 0; spacepoint_at 2 4 7 7]
             5 (D_of_Z 4)).
  - vm_compute. reflexivity.
  - discriminate.
  - cbn [length]. lia.
  - reflexivity.
  - intros sp [<-|[<-|[<-|[]]]]; vm_compute; reflexivity.
Defined.

(** * DistanceBetweenSpacePoints *)

Lemma binary_round_aux_abs (prec emax : Z) (s s' : bool) (m e : Z) (l : location) :
  SFabs (binary_round_aux prec emax s m e l)
  = SFabs (binary_round_aux prec emax s' m e l).
Proof.
  unfold binary_round_aux.
  destruct (shr_fexp prec emax m e l) as [mrs' e'].
  destruct (shr_fexp prec emax _ e' loc_Exact) as [mrs'' e''].
  destruct (shr_m mrs''); [reflexivity| |reflexivity].
  destruct (Z.leb e'' (emax - prec)); reflexivity.
Qed.

Lemma binary_normalize_opp_abs (prec emax z e : Z) (sz sz' : bool) :
  SFabs (binary_normalize prec emax (- z) e sz)
  = SFabs (binary_normalize prec emax z e sz').
Proof.
  destruct z as [|m|m]; cbn [Z.opp]; unfold binary_normalize, binary_round;
    [reflexivity| |];
    destruct (shl_align m e _) as [mz ez]; apply binary_round_aux_abs.
Qed.

(** Swapping the operands of a subtraction changes the sign only. *)
Lemma Dsub_swap_abs (a b : double) : SFabs (Dsub a b) = SFabs (Dsub b a).
Proof.
  unfold Dsub.
  destruct a as [sa|sa| |sa ma ea], b as [sb|sb| |sb mb eb];
    try reflexivity; try (destruct sa, sb; reflexivity).
  unfold SFsub. cbv zeta. rewrite (Z.min_comm eb ea).
  set (x := cond_Zopp sa _). set (y := cond_Zopp sb _).
  replace (x - y)%Z with (- (y - x))%Z by lia.
  apply binary_normalize_opp_abs.
Qed.

Lemma Dmul_square_abs (x y : double) : SFabs x = SFabs y -> Dmul x x = Dmul y y.
Proof.
  unfold Dmul.
  destruct x as [sx|sx| |sx mx ex], y as [sy|sy| |sy my ey]; cbn [SFabs];
    intros H; try discriminate H; try reflexivity;
    try (destruct sx, sy; reflexivity).
  injection H as -> ->. destruct sx, sy; reflexivity.
Qed.

(** X13.  The distance between two spacepoints does not depend on which
    of the two comes first: either way round it is the same number, or
    either way round it is not a number (which NaN, its sign and payload,
    is not modelled here).  It is never below zero. *)
Theorem DistanceBetweenSpacePoints_symmetric (sp_a sp_b : SpacePointPtr) :
  is_nan (DistanceBetweenSpacePoints double_arith sp_a sp_b)
  = is_nan (DistanceBetweenSpacePoints double_arith sp_b sp_a)
  /\ (is_nan (DistanceBetweenSpacePoints double_arith sp_a sp_b) = false ->
      DistanceBetweenSpacePoints double_arith sp_a sp_b
      = DistanceBetweenSpacePoints double_arith sp_b sp_a)
  /\ flt (DistanceBetweenSpacePoints double_arith sp_a sp_b) (D_of_Z 0) = false.
Proof.
  assert (Hsym : DistanceBetweenSpacePoints double_arith sp_a sp_b
                 = DistanceBetweenSpacePoints double_arith sp_b sp_a).
  { unfold DistanceBetweenSpacePoints, Mag, Mag2, Dot, Minus.
    cbn [fX fY fZ plus_of minus_of times_of sqrt_of double_arith].
    rewrite (Dmul_square_abs _ _ (Dsub_swap_abs (fX (position (get sp_a)))
                                                (fX (position (get sp_b))))).
    rewrite (Dmul_square_abs _ _ (Dsub_swap_abs (fY (position (get sp_a)))
                                                (fY (position (get sp_b))))).
    rewrite (Dmul_square_abs _ _ (Dsub_swap_abs (fZ (position (get sp_a)))
                                                (fZ (position (get sp_b))))).
    reflexivity. }
  split; [rewrite Hsym; reflexivity|]. split; [intros _; exact Hsym|].
  exact (Dsqrt_not_negative
           (Mag2 double_arith
                 (Minus double_arith (position (get sp_a)) (position (get sp_b))))).
Qed.

(** The spacepoints (0, 0, 0) and (3, 4, 0) are at distance 5 from each
    other. *)
Lemma DistanceBetweenSpacePoints_symmetric_witness :
  DistanceBetweenSpacePoints double_arith (spacepoint_at 0 0 0 0) (spacepoint_at 1 3 4 0)
  = DistanceBetweenSpacePoints double_arith (spacepoint_at 1 3 4 0) (spacepoint_at 0 0 0 0).
Proof.
  destruct (DistanceBetweenSpacePoints_symmetric
              (spacepoint_at 0 0 0 0) (spacepoint_at 1 3 4 0))
    as (_ & Hnumber & _).
  apply Hnumber. vm_compute. reflexivity.
Defined.

(** * Further properties of OrganizeHits *)

Lemma organize_hit_length (i : nat) (hit : HitPtr) (org org' : list PlaneSnippets) :
  organize_hit i hit org = Value org' -> length org' = length org.
Proof.
  unfold organize_hit.
  destruct (nth_error org (Plane (hit_WireID (get hit)))) as [sn|] eqn:E;
    [|discriminate].
  assert (Hlt : Plane (hit_WireID (get hit)) < length org)
    by (apply nth_error_Some; congruence).
  intros H. injection H as <-.
  rewrite length_app. cbn [length].
  change (match org with [] => [] | _ :: l => skipn (Plane (hit_WireID (get hit))) l end)
    with (skipn (S (Plane (hit_WireID (get hit)))) org).
  rewrite length_firstn, length_skipn. lia.
Qed.

(** One hit on a plane beyond the planes provided for stops the loop at an
    access outside the per-plane vectors. *)
Lemma organize_loop_out_of_range (hits : list HitPtr) :
  Exists (fun h => nplanes <= Plane (hit_WireID (get h))) hits ->
  forall i org, length org = nplanes -> organize_loop i hits org = Undefined.
Proof.
  induction hits as [|hit rest IH]; intros Hex i org Hlen; [inversion Hex|].
  cbn [organize_loop].
  destruct (organize_hit i hit org) as [org'| |] eqn:Ehit; cbn [bind].
  - apply IH; [|rewrite (organize_hit_length _ _ _ _ Ehit); exact Hlen].
    inversion Hex as [? ? Hbad|? ? Hrest]; subst; [|exact Hrest].
    unfold organize_hit in Ehit.
    destruct (nth_error org (Plane (hit_WireID (get hit)))) eqn:E; [|discriminate].
    assert (Plane (hit_WireID (get hit)) < length org)
      by (apply nth_error_Some; congruence).
    lia.
  - unfold organize_hit in Ehit. destruct (nth_error org _); discriminate.
  - reflexivity.
Qed.

Lemma organize_ret_defined (hits : list HitPtr) (snippets : list OrganizedHits) :
  (forall sn s, In sn snippets -> In s (members sn) -> s < length hits) ->
  forall ret0, exists ret, organize_ret hits snippets ret0 = Value ret.
Proof.
  induction snippets as [|[p secs] snippets IH]; intros Hlt ret0; cbn [organize_ret].
  - exists ret0. reflexivity.
  - cbn [fst snd].
    destruct (hits_at_result hits secs) as (hsecs & -> & _).
    { intros s Hs. apply (Hlt (p, secs)); [left; reflexivity|right; exact Hs]. }
    cbn [bind].
    destruct (nth_error hits p) as [hp|] eqn:Ep.
    2:{ apply nth_error_None in Ep.
        specialize (Hlt (p, secs) p (or_introl eq_refl) (or_introl eq_refl)). lia. }
    apply IH. intros sn s Hsn. apply Hlt. right; exact Hsn.
Qed.

(** The indices that the loop files are indices of hits. *)
Lemma organize_loop_indices (hits : list HitPtr) :
  (forall h, In h hits -> Plane (hit_WireID (get h)) < nplanes) ->
  exists org,
    organize_loop 0 hits (repeat [] nplanes) = Value org
    /\ forall sn s, In sn (map fst (concat org)) -> In s (members sn) ->
                    s < length hits.
Proof.
  intros Hplanes.
  destruct (organize_loop_result hits Hplanes) as (org & Horg & Hlen & Hinv).
  destruct (organize_keys_NoDup hits (length hits) org 0) as [_ Hin].
  { intros j sn Hj. apply Hinv. exact Hj. }
  exists org. split; [exact Horg|].
  intros sn s Hsn Hs. apply in_map_iff in Hsn. destruct Hsn as (e & <- & He).
  destruct (Hin e He) as (pl & sn' & _ & (Hall & _) & Hsn').
  rewrite Forall_forall in Hall. specialize (Hall e Hsn').
  destruct e as [[p secs] ident]. destruct Hall as (_ & _ & E3 & _).
  apply E3 in Hs. tauto.
Qed.

Lemma OrganizeHits_in_range (hits : list HitPtr) :
  (forall h, In h hits -> Plane (hit_WireID (get h)) < nplanes) ->
  exists ret, OrganizeHits hits = Value ret.
Proof.
  intros Hplanes.
  destruct (organize_loop_indices hits Hplanes) as (org & Horg & Hlt).
  unfold OrganizeHits, OrganizeHits_indices. rewrite Horg. cbn [bind].
  apply organize_ret_defined. exact Hlt.
Qed.

(** X14.  OrganizeHits stays within its six per-plane vectors exactly when
    every hit lies on a plane below 6: one hit on plane 6 or above makes
    the call index outside the vectors, whatever the other hits are, and
    otherwise the call returns a map.  It never throws. *)
Theorem OrganizeHits_defined_iff_planes_below_six (hits : list HitPtr) :
  (OrganizeHits hits = Undefined
   <-> Exists (fun h => nplanes <= Plane (hit_WireID (get h))) hits)
  /\ ((exists ret, OrganizeHits hits = Value ret)
      <-> Forall (fun h => Plane (hit_WireID (get h)) < nplanes) hits)
  /\ (forall what, OrganizeHits hits <> Exception what).
Proof.
  assert (Hbad : Exists (fun h => nplanes <= Plane (hit_WireID (get h))) hits ->
                 OrganizeHits hits = Undefined).
  { intros Hex. unfold OrganizeHits, OrganizeHits_indices.
    rewrite (organize_loop_out_of_range hits Hex 0 (repeat [] nplanes)
               (repeat_length _ _)).
    reflexivity. }
  assert (Hgood : Forall (fun h => Plane (hit_WireID (get h)) < nplanes) hits ->
                  exists ret, OrganizeHits hits = Value ret).
  { intros Hall. apply OrganizeHits_in_range. apply Forall_forall. exact Hall. }
  assert (Hdec : Forall (fun h => Plane (hit_WireID (get h)) < nplanes) hits
                 \/ Exists (fun h => nplanes <= Plane (hit_WireID (get h))) hits).
  { clear Hbad Hgood. induction hits as [|h rest IH]; [left; constructor|].
    destruct (le_lt_dec nplanes (Plane (hit_WireID (get h)))) as [Hle|Hlt].
    - right. left. exact Hle.
    - destruct IH as [IH|IH].
      + left. constructor; assumption.
      + right. right. exact IH. }
  split; [|split].
  - split; [|exact Hbad]. intros Hundef.
    destruct Hdec as [Hall|Hex]; [|exact Hex].
    destruct (Hgood Hall) as [ret Hret]. congruence.
  - split; [|exact Hgood]. intros [ret Hret].
    destruct Hdec as [Hall|Hex]; [exact Hall|].
    rewrite (Hbad Hex) in Hret. discriminate.
  - intros what Hexc. destruct Hdec as [Hall|Hex].
    + destruct (Hgood Hall) as [ret Hret]. congruence.
    + rewrite (Hbad Hex) in Hexc. discriminate.
Qed.

Lemma Ptr_less_trans {T : Type} (x y z : Ptr T) :
  Ptr_less x y = true -> Ptr_less y z = true -> Ptr_less x z = true.
Proof. unfold Ptr_less. rewrite !Nat.ltb_lt. lia. Qed.

(** Looking up a key of a map with ascending keys finds its entry. *)
Lemma map_find_In {K V : Type} (less : K -> K -> bool) (m : list (K * V)) :
  (forall x, less x x = false) ->
  keys_ascending less m ->
  forall k v, In (k, v) m -> map_find less k m = Some v.
Proof.
  intros Hirr. unfold keys_ascending.
  induction 1 as [|[k1 v1] m Hs IH Hall]; intros k v Hin; [destruct Hin|].
  cbn [map_find]. destruct Hin as [Heq|Hin].
  - injection Heq as -> ->. rewrite Hirr. reflexivity.
  - rewrite Forall_forall in Hall. specialize (Hall _ Hin). cbn [fst] in Hall.
    rewrite Hall. apply IH. exact Hin.
Qed.

(** What a lookup finds is an entry under a key neither less nor greater. *)
Lemma map_find_Some {K V : Type} (less : K -> K -> bool) (m : list (K * V)) :
  forall k v, map_find less k m = Some v ->
              exists k', In (k', v) m /\ less k' k = false /\ less k k' = false.
Proof.
  induction m as [|[k1 v1] m IH]; intros k v Hfind; cbn [map_find] in Hfind;
    [discriminate|].
  destruct (less k1 k) eqn:E1.
  - destruct (IH k v Hfind) as (k' & Hin & Hk). exists k'. split; [right; exact Hin|exact Hk].
  - destruct (less k k1) eqn:E2; [discriminate|].
    injection Hfind as <-. exists k1. split; [left; reflexivity|auto].
Qed.

Lemma organize_ret_ascending (hits : list HitPtr) (snippets : list OrganizedHits) :
  forall ret0 ret,
    keys_ascending Ptr_less ret0 ->
    organize_ret hits snippets ret0 = Value ret ->
    keys_ascending Ptr_less ret.
Proof.
  induction snippets as [|[p secs] snippets IH]; intros ret0 ret Hs; cbn [organize_ret].
  - intros H. injection H as <-. exact Hs.
  - cbn [fst snd]. destruct (hits_at hits secs) as [hsecs| |]; cbn [bind];
      try discriminate.
    destruct (nth_error hits p) as [hp|]; [|discriminate].
    apply IH. apply (subscript_update_ascending Ptr_less); [|exact Hs].
    intros x y z. apply Ptr_less_trans.
Qed.

Lemma Forall2_In_left {A B : Type} (R : A -> B -> Prop) (l1 : list A) (l2 : list B) :
  Forall2 R l1 l2 -> forall a, In a l1 -> exists b, In b l2 /\ R a b.
Proof.
  induction 1 as [|a0 b0 l1 l2 Hab _ IH]; intros a Ha; [destruct Ha|].
  destruct Ha as [<-|Ha].
  - exists b0. split; [left; reflexivity|exact Hab].
  - destruct (IH a Ha) as (b & Hb & Hr). exists b. split; [right; exact Hb|exact Hr].
Qed.

Lemma Forall2_In_right {A B : Type} (R : A -> B -> Prop) (l1 : list A) (l2 : list B) :
  Forall2 R l1 l2 -> forall b, In b l2 -> exists a, In a l1 /\ R a b.
Proof.
  induction 1 as [|a0 b0 l1 l2 Hab _ IH]; intros b Hb; [destruct Hb|].
  destruct Hb as [<-|Hb].
  - exists a0. split; [left; reflexivity|exact Hab].
  - destruct (IH b Hb) as (a & Ha & Hr). exists a. split; [right; exact Ha|exact Hr].
Qed.

(** The snippets found and the entries made of them, for hits on planes 0
    to 5 whose pointers are told apart by their keys. *)
Lemma OrganizeHits_entries (hits : list HitPtr) :
  (forall h, In h hits -> Plane (hit_WireID (get h)) < nplanes) ->
  (forall a b, In a hits -> In b hits -> key a = key b -> a = b) ->
  exists snippets groups ret,
    OrganizeHits_indices hits = Value snippets
    /\ OrganizeHits hits = Value ret
    /\ Forall2 (fun (snippet : OrganizedHits) (group : HitPtr * list HitPtr) =>
                  nth_error hits (fst snippet) = Some (fst group)
                  /\ Forall2 (fun s hs => nth_error hits s = Some hs)
                             (snd snippet) (snd group))
               snippets groups
    /\ Permutation ret groups.
Proof.
  intros Hplanes Hptr.
  destruct (organize_loop_result hits Hplanes) as (org & Horg & Hlen & Hinv).
  destruct (organize_keys_NoDup hits (length hits) org 0) as [Hnd Hin].
  { intros j sn Hj. apply Hinv. exact Hj. }
  assert (Hmem : forall e k, In e (concat org) -> In k (members (fst e)) ->
                             k < length hits).
  { intros e k He Hk.
    destruct (Hin e He) as (pl & sn & _ & (Hall & _) & Hsn).
    rewrite Forall_forall in Hall. specialize (Hall e Hsn).
    destruct e as [[p secs] ident]. destruct Hall as (_ & _ & E3 & _).
    apply E3 in Hk. tauto. }
  assert (Hindices : OrganizeHits_indices hits = Value (map fst (concat org))).
  { unfold OrganizeHits_indices. rewrite Horg. reflexivity. }
  destruct (organize_ret_result hits (map fst (concat org)) [])
    as (ret & groups & Hret & Hgroups & Hperm).
  { intros sn s Hsn Hs. apply in_map_iff in Hsn. destruct Hsn as (e & <- & He).
    apply (Hmem e s He Hs). }
  { rewrite map_map.
    apply (NoDup_map_finer
             (fun e : OrganizedHits * HitIdentifier =>
                option_map (fun h : HitPtr => hit_key (get h))
                           (nth_error hits (fst (fst e))))); [|exact Hnd].
    intros x y Hx Hy Heq.
    pose proof (Hmem x (fst (fst x)) Hx (or_introl eq_refl)) as Hlx.
    pose proof (Hmem y (fst (fst y)) Hy (or_introl eq_refl)) as Hly.
    destruct (nth_error hits (fst (fst x))) as [hx|] eqn:Ex;
      [|apply nth_error_None in Ex; lia].
    destruct (nth_error hits (fst (fst y))) as [hy|] eqn:Ey;
      [|apply nth_error_None in Ey; lia].
    cbn [option_map] in *. inversion Heq as [Hk].
    rewrite (Hptr hx hy (nth_error_In _ _ Ex) (nth_error_In _ _ Ey) Hk).
    reflexivity. }
  { intros sn hp v _ []. }
  rewrite app_nil_r in Hperm.
  exists (map fst (concat org)), groups, ret.
  split; [exact Hindices|].
  split; [unfold OrganizeHits; rewrite Hindices; exact Hret|].
  split; [exact Hgroups|exact Hperm].
Qed.

(** X15.  The map that OrganizeHits returns is keyed by the primary hits
    and iterates in ascending order of their pointer keys, whatever the
    planes and the input order.  For hits on planes 0 to 5 whose pointers
    are told apart by their keys, looking up the primary of a snippet gives
    the snippet's secondary hits in the order they were filed, and whatever
    a lookup finds is the secondaries of a snippet whose primary has the
    pointer key looked up. *)
Theorem OrganizeHits_lookup (hits : list HitPtr) :
  (forall h, In h hits -> Plane (hit_WireID (get h)) < nplanes) ->
  (forall a b, In a hits -> In b hits -> key a = key b -> a = b) ->
  exists snippets ret,
    OrganizeHits_indices hits = Value snippets
    /\ OrganizeHits hits = Value ret
    /\ keys_ascending Ptr_less ret
    /\ (forall p secs,
          In (p, secs) snippets ->
          exists hp hsecs,
            nth_error hits p = Some hp
            /\ Forall2 (fun s hs => nth_error hits s = Some hs) secs hsecs
            /\ map_find Ptr_less hp ret = Some hsecs)
    /\ (forall h hsecs,
          map_find Ptr_less h ret = Some hsecs ->
          exists p secs hp,
            In (p, secs) snippets
            /\ nth_error hits p = Some hp
            /\ key hp = key h
            /\ Forall2 (fun s hs => nth_error hits s = Some hs) secs hsecs).
Proof.
  intros Hplanes Hptr.
  destruct (OrganizeHits_entries hits Hplanes Hptr)
    as (snippets & groups & ret & Hindices & Hret & Hgroups & Hperm).
  assert (Hsorted : keys_ascending Ptr_less ret).
  { unfold OrganizeHits in Hret. rewrite Hindices in Hret. cbn [bind] in Hret.
    apply (organize_ret_ascending hits snippets [] ret); [constructor|exact Hret]. }
  exists snippets, ret.
  split; [exact Hindices|]. split; [exact Hret|]. split; [exact Hsorted|]. split.
  - intros p secs Hps.
    destruct (Forall2_In_left _ _ _ Hgroups (p, secs) Hps) as ([hp hsecs] & Hg & Hp & Hsecs).
    cbn [fst snd] in Hp, Hsecs.
    exists hp, hsecs. split; [exact Hp|]. split; [exact Hsecs|].
    apply (map_find_In Ptr_less ret); [|exact Hsorted|].
    + intros x. unfold Ptr_less. apply Nat.ltb_irrefl.
    + apply (Permutation_in _ (Permutation_sym Hperm)). exact Hg.
  - intros h hsecs Hfind.
    destruct (map_find_Some Ptr_less ret h hsecs Hfind) as (hp & Hin & H1 & H2).
    apply (Permutation_in _ Hperm) in Hin.
    destruct (Forall2_In_right _ _ _ Hgroups (hp, hsecs) Hin)
      as ([p secs] & Hps & Hp & Hsecs).
    cbn [fst snd] in Hp, Hsecs.
    exists p, secs, hp. split; [exact Hps|]. split; [exact Hp|]. split; [|exact Hsecs].
    unfold Ptr_less in H1, H2. apply Nat.ltb_ge in H1, H2. lia.
Qed.

Lemma OrganizeHits_lookup_witness :
  let hits := [hit_with 0 5 0; hit_on 1 0 8 0; hit_with 2 10 0] in
  exists ret,
    OrganizeHits hits = Value ret
    /\ map_find Ptr_less (hit_with 2 10 0) ret = Some [hit_with 0 5 0].
Proof.
  intros hits.
  destruct (OrganizeHits_lookup hits)
    as (snippets & ret & Hindices & Hret & _ & Hfind & _).
  - intros h [<-|[<-|[<-|[]]]]; vm_compute; lia.
  - intros a b [<-|[<-|[<-|[]]]] [<-|[<-|[<-|[]]]] Hk; try reflexivity;
      vm_compute in Hk; discriminate Hk.
  - exists ret. split; [exact Hret|].
    assert (Hs : snippets = [(2, [0]); (1, [])]).
    { vm_compute in Hindices. injection Hindices as <-. reflexivity. }
    destruct (Hfind 2 [0]) as (hp & hsecs & Hp & Hsecs & Hlook).
    { rewrite Hs. left; reflexivity. }
    injection Hp as <-.
    inversion Hsecs as [|s hs ss hss Hs0 Hrest]; subst.
    inversion Hrest; subst. injection Hs0 as <-.
    exact Hlook.
Defined.

(** * Further properties of FinddEdxLength *)

Section FinddEdxLength_more.

Variable fdEdxCut : float.

Lemma FinddEdxLength_loop_prefix (upperbound : bool) (dEdx_vec : list double) :
  forall n dEdx_iter before dEdx_val,
    FinddEdxLength_loop fdEdxCut upperbound dEdx_vec n dEdx_iter (before ++ dEdx_val)
    = before ++ FinddEdxLength_loop fdEdxCut upperbound dEdx_vec n dEdx_iter dEdx_val.
Proof.
  induction n as [|n IH]; intros it before acc; cbn [FinddEdxLength_loop];
    [reflexivity|].
  destruct (if upperbound then _ else _).
  - rewrite <- app_assoc. apply IH.
  - destruct (_ && _)%bool; [apply IH|].
    destruct (_ && _)%bool; [apply IH|reflexivity].
Qed.

(** X16.  What [dEdx_val] held before the call is treated in two ways: the
    early exits for a cut above 10 and for fewer than four values overwrite
    it with the input, while the main path appends to it, so that earlier
    content stays in front of the result. *)
Theorem FinddEdxLength_overwrites_or_appends (dEdx_vec dEdx_val : list double) :
  FinddEdxLength fdEdxCut dEdx_vec dEdx_val
  = if fgt fdEdxCut (F_of_Z 10) || (length dEdx_vec <? 4) then dEdx_vec
    else dEdx_val ++ FinddEdxLength fdEdxCut dEdx_vec [].
Proof.
  unfold FinddEdxLength.
  destruct (fgt fdEdxCut (F_of_Z 10)); [reflexivity|].
  destruct (length dEdx_vec <? 4); [reflexivity|].
  cbn [orb app]. cbv zeta.
  rewrite <- !app_assoc. cbn [app].
  rewrite (FinddEdxLength_loop_prefix _ dEdx_vec _ _ dEdx_val
             [dEdx_at dEdx_vec 0; dEdx_at dEdx_vec 1; dEdx_at dEdx_vec 2]).
  reflexivity.
Qed.

(** The loop keeps, in order, the values on the side of the cut that it
    looks for, up to the value it stops at. *)
Lemma FinddEdxLength_loop_filter (upperbound : bool) (dEdx_vec : list double) :
  let keep := fun dEdx => if upperbound then above_cut fdEdxCut dEdx
                          else below_cut fdEdxCut dEdx in
  forall n dEdx_iter dEdx_val,
    dEdx_iter + n <= length dEdx_vec ->
    exists k,
      k <= n
      /\ FinddEdxLength_loop fdEdxCut upperbound dEdx_vec n dEdx_iter dEdx_val
         = dEdx_val ++ filter keep (firstn k (skipn dEdx_iter dEdx_vec))
      /\ (k < n -> keep (dEdx_at dEdx_vec (dEdx_iter + k)) = false).
Proof.
  intros keep. induction n as [|n IH]; intros it acc Hlen; cbn [FinddEdxLength_loop].
  - exists 0. split; [lia|]. split; [cbn; now rewrite app_nil_r|lia].
  - rewrite (skipn_dEdx_at dEdx_vec it) by lia.
    fold (keep (dEdx_at dEdx_vec it)).
    destruct (keep (dEdx_at dEdx_vec it)) eqn:Ekeep.
    + destruct (IH (S it) (acc ++ [dEdx_at dEdx_vec it])) as (k & Hk & -> & Hstop); [lia|].
      exists (S k). split; [lia|]. split.
      * cbn [firstn filter]. rewrite Ekeep. rewrite <- app_assoc. reflexivity.
      * intros Hlt. rewrite Nat.add_succ_r. apply Hstop. lia.
    + assert (Hcont : exists k,
                k <= S n
                /\ FinddEdxLength_loop fdEdxCut upperbound dEdx_vec n (S it) acc
                   = acc ++ filter keep
                              (firstn k (dEdx_at dEdx_vec it :: skipn (S it) dEdx_vec))
                /\ (k < S n -> keep (dEdx_at dEdx_vec (it + k)) = false)).
      { destruct (IH (S it) acc) as (k & Hk & -> & Hstop); [lia|].
        exists (S k). split; [lia|]. split.
        - cbn [firstn filter]. rewrite Ekeep. reflexivity.
        - intros Hlt. rewrite Nat.add_succ_r. apply Hstop. lia. }
      destruct (_ && _)%bool; [exact Hcont|].
      destruct (_ && _)%bool; [exact Hcont|].
      exists 0. split; [lia|]. split.
      * cbn [firstn filter]. now rewrite app_nil_r.
      * intros _. rewrite Nat.add_0_r. exact Ekeep.
Qed.

(** X17.  On its main path (a cut of at most 10, four values or more)
    FinddEdxLength returns the first three values followed by values taken
    in order from the input from its third value on: exactly those on the
    side of the cut chosen by the first three values (above it when two of
    them are above, below it otherwise) among the values before the one the
    loop stops at.  No value on the other side is kept after the first
    three, and the result is at most one entry longer than the input. *)
Theorem FinddEdxLength_keeps_one_side (dEdx_vec : list double) :
  fgt fdEdxCut (F_of_Z 10) = false ->
  4 <= length dEdx_vec ->
  let upperbound :=
    1 <? (if above_cut fdEdxCut (dEdx_at dEdx_vec 0) then 1 else 0) +
         (if above_cut fdEdxCut (dEdx_at dEdx_vec 1) then 1 else 0) +
         (if above_cut fdEdxCut (dEdx_at dEdx_vec 2) then 1 else 0) in
  let keep := fun dEdx => if upperbound then above_cut fdEdxCut dEdx
                          else below_cut fdEdxCut dEdx in
  exists k,
    k <= length dEdx_vec - 2
    /\ FinddEdxLength fdEdxCut dEdx_vec []
       = firstn 3 dEdx_vec ++ filter keep (firstn k (skipn 2 dEdx_vec))
    /\ (k < length dEdx_vec - 2 -> keep (dEdx_at dEdx_vec (2 + k)) = false)
    /\ length (FinddEdxLength fdEdxCut dEdx_vec []) <= length dEdx_vec + 1.
Proof.
  intros Hcut Hlen upperbound keep.
  unfold FinddEdxLength. rewrite Hcut.
  destruct (Nat.ltb_spec (length dEdx_vec) 4) as [?|_]; [lia|].
  cbv zeta. fold upperbound.
  destruct (FinddEdxLength_loop_filter upperbound dEdx_vec (length dEdx_vec - 2) 2
              ((([] ++ [dEdx_at dEdx_vec 0]) ++ [dEdx_at dEdx_vec 1])
                 ++ [dEdx_at dEdx_vec 2]))
    as (k & Hk & Hloop & Hstop); [lia|].
  exists k. split; [exact Hk|].
  assert (Hfirst : (([] ++ [dEdx_at dEdx_vec 0]) ++ [dEdx_at dEdx_vec 1])
                     ++ [dEdx_at dEdx_vec 2] = firstn 3 dEdx_vec).
  { destruct dEdx_vec as [|a [|b [|c v]]]; cbn [length] in Hlen; try lia. reflexivity. }
  rewrite Hloop, Hfirst.
  split; [reflexivity|]. split; [exact Hstop|].
  rewrite length_app, length_firstn.
  pose proof (filter_length_le keep (firstn k (skipn 2 dEdx_vec))) as Hle.
  rewrite length_firstn, length_skipn in Hle. unfold keep in Hle. lia.
Qed.

End FinddEdxLength_more.

Lemma FinddEdxLength_keeps_one_side_witness :
  exists k,
    k <= 3
    /\ FinddEdxLength (F_of_Z 10) (map D_of_Z [1; 1; 1; 20; 21]%Z) []
       = map D_of_Z [1; 1; 1]%Z
         ++ filter (below_cut (F_of_Z 10)) (firstn k (map D_of_Z [1; 20; 21]%Z)).
Proof.
  destruct (FinddEdxLength_keeps_one_side (F_of_Z 10) (map D_of_Z [1; 1; 1; 20; 21]%Z))
    as (k & Hk & Hval & _).
  - reflexivity.
  - cbn [length map]. lia.
  - exists k. split; [exact Hk|]. exact Hval.
Defined.

(** * The best plane of CalculateElement *)

Local Open Scope Z_scope.

Lemma best_plane_loop_snoc (num_hits : list (Z * Z)) (entry : Z * Z)
  (max_hits best_plane0 : Z) :
  best_plane_loop (num_hits ++ [entry]) max_hits best_plane0
  = let state := best_plane_loop num_hits max_hits best_plane0 in
    if snd entry >? fst state then (snd entry, fst entry) else state.
Proof. unfold best_plane_loop. rewrite fold_left_app. reflexivity. Qed.

(** After the loop either nothing was chosen and no plane has a hit, or the
    state is an entry with the greatest number of hits, the first of
    these. *)
Lemma best_plane_loop_result (num_hits : list (Z * Z)) :
  keys_ascending Z.ltb num_hits ->
  let state := best_plane_loop num_hits 0 (- INT_MAX) in
  (state = (0, - INT_MAX) /\ forall p n, In (p, n) num_hits -> n <= 0)
  \/ (0 < fst state
      /\ In (snd state, fst state) num_hits
      /\ forall p n, In (p, n) num_hits ->
                     n <= fst state /\ (n = fst state -> snd state <= p)).
Proof.
  unfold keys_ascending.
  induction num_hits as [|[p n] l IH] using rev_ind; intros Hs; cbv zeta.
  - left. split; [reflexivity|intros p n []].
  - apply StronglySorted_snoc in Hs. destruct Hs as [Hs Hbelow].
    rewrite Forall_forall in Hbelow.
    rewrite best_plane_loop_snoc. cbv zeta. cbn [fst snd].
    destruct (IH Hs) as [[-> Hnone]|(Hpos & Hin & Hmax)]; cbn [fst snd].
    + destruct (Z.gtb_spec n 0) as [Hn|Hn].
      * right. cbn [fst snd]. split; [lia|].
        split; [apply in_or_app; right; left; reflexivity|].
        intros p' n' Hin. apply in_app_or in Hin. destruct Hin as [Hin|[Heq|[]]].
        -- specialize (Hnone _ _ Hin). lia.
        -- injection Heq as <- <-. lia.
      * left. split; [reflexivity|].
        intros p' n' Hin. apply in_app_or in Hin. destruct Hin as [Hin|[Heq|[]]].
        -- exact (Hnone _ _ Hin).
        -- injection Heq as <- <-. lia.
    + destruct (best_plane_loop l 0 (- INT_MAX)) as [max best] eqn:Est.
      cbn [fst snd] in *.
      destruct (Z.gtb_spec n max) as [Hn|Hn]; right; cbn [fst snd].
      * split; [lia|].
        split; [apply in_or_app; right; left; reflexivity|].
        intros p' n' Hin'. apply in_app_or in Hin'. destruct Hin' as [Hin'|[Heq|[]]].
        -- destruct (Hmax _ _ Hin'). lia.
        -- injection Heq as <- <-. lia.
      * split; [exact Hpos|].
        split; [apply in_or_app; left; exact Hin|].
        intros p' n' Hin'. apply in_app_or in Hin'. destruct Hin' as [Hin'|[Heq|[]]].
        -- exact (Hmax _ _ Hin').
        -- injection Heq as <- <-. split; [lia|]. intros _.
           specialize (Hbelow _ Hin). cbn [fst] in Hbelow.
           apply Z.ltb_lt in Hbelow. lia.
Qed.

(** X18.  The best plane of CalculateElement is a plane with the greatest
    number of hits, and of several such planes the one with the lowest
    plane number; the function gives up with no best plane exactly when no
    plane has a hit. *)
Theorem best_plane_first_with_most_hits (num_hits : list (Z * Z)) :
  keys_ascending Z.ltb num_hits ->
  (forall p n, In (p, n) num_hits -> 0 <= p) ->
  (best_plane num_hits = None <-> forall p n, In (p, n) num_hits -> n <= 0)
  /\ (forall best,
        best_plane num_hits = Some best ->
        exists n,
          In (best, n) num_hits
          /\ 0 < n
          /\ forall p' n', In (p', n') num_hits ->
                           n' <= n /\ (n' = n -> best <= p')).
Proof.
  intros Hs Hkeys. unfold best_plane.
  destruct (best_plane_loop_result num_hits Hs) as [[-> Hnone]|(Hpos & Hin & Hmax)];
    cbn [fst snd].
  - split.
    + split; [intros _; exact Hnone|reflexivity].
    + intros best Hbest. discriminate Hbest.
  - destruct (best_plane_loop num_hits 0 (- INT_MAX)) as [max best0].
    cbn [fst snd] in *.
    pose proof (Hkeys _ _ Hin) as Hkey.
    destruct (Z.ltb_spec best0 0) as [?|_]; [lia|].
    split.
    + split; [discriminate|]. intros Hnone. specialize (Hnone _ _ Hin). lia.
    + intros best Hbest. injection Hbest as <-.
      exists max. split; [exact Hin|]. split; [exact Hpos|exact Hmax].
Qed.

Lemma best_plane_first_with_most_hits_witness :
  best_plane [(0, 3); (1, 5); (2, 5)] = Some 1
  /\ exists n, In (1, n) [(0, 3); (1, 5); (2, 5)] /\ 0 < n.
Proof.
  split; [reflexivity|].
  destruct (best_plane_first_with_most_hits [(0, 3); (1, 5); (2, 5)])
    as [_ Hbest].
  - unfold keys_ascending. repeat constructor.
  - intros p n [H|[H|[H|[]]]]; injection H as <- _; lia.
  - destruct (Hbest 1 eq_refl) as (n & Hin & Hn & _).
    exists n. split; assumption.
Defined.

Local Close Scope Z_scope.

(** * The closest trajectory point of CalculateElement *)

Lemma flt_below_trans x y z :
  flt x y = true -> flt z y = false -> is_nan z = false -> flt x z = true.
Proof. float_cases. Qed.

Section closest_trajectory_point.

Variables (pos : Point_t) (reach : double).

Local Abbreviation dist_of := (traj_dist pos).

(** What the search leaves: no valid point is both within reach and below
    the final [MinDist]; and either nothing was chosen, or the point chosen
    is valid, within reach, below the initial [MinDist], and strictly
    closer than every valid point before it. *)
Lemma closest_loop_result (track : list TrajectoryPoint) :
  forall traj index MinDist,
    let result := closest_loop pos reach track traj index MinDist in
    (forall i other,
        nth_error track i = Some other -> NoPoint other = false ->
        flt (dist_of other) (snd result) && flt (dist_of other) reach = false)
    /\ (result = (index, MinDist)
        \/ exists j point,
             fst result = traj + j
             /\ nth_error track j = Some point
             /\ NoPoint point = false
             /\ snd result = dist_of point
             /\ flt (dist_of point) MinDist = true
             /\ flt (dist_of point) reach = true
             /\ forall i other,
                  i < j -> nth_error track i = Some other ->
                  NoPoint other = false -> is_nan (dist_of other) = false ->
                  flt (dist_of point) (dist_of other) = true).
Proof.
  induction track as [|point rest IH]; intros traj index M; cbv zeta;
    cbn [closest_loop].
  - split; [|left; reflexivity]. intros [|i] other Hi; discriminate Hi.
  - destruct (NoPoint point) eqn:Eno.
    + destruct (IH (S traj) index M) as [H3 H2]. split.
      * intros [|i] other Hi Hvalid; cbn [nth_error] in Hi.
        -- injection Hi as <-. congruence.
        -- exact (H3 i other Hi Hvalid).
      * destruct H2 as [H2|(j & pt & Hidx & Hj & Hv & Hm & Hlt & Hreach & Hearlier)];
          [left; exact H2|right].
        exists (S j), pt. split; [rewrite Hidx; lia|].
        split; [exact Hj|]. split; [exact Hv|]. split; [exact Hm|].
        split; [exact Hlt|]. split; [exact Hreach|].
        intros [|i] other Hlti Hi Hvalid Hnan; cbn [nth_error] in Hi.
        -- injection Hi as <-. congruence.
        -- apply (Hearlier i other); [lia|assumption..].
    + cbv zeta. set (d := dist_of point).
      destruct (flt d M && flt d reach) eqn:Eupd.
      * apply andb_prop in Eupd. destruct Eupd as [Hd1 Hd2].
        destruct (IH (S traj) traj d) as [H3 H2]. split.
        -- intros [|i] other Hi Hvalid; cbn [nth_error] in Hi.
           ++ injection Hi as <-. fold d.
              destruct H2 as [H2|(j & pt & _ & _ & _ & Hm & Hlt & _)].
              ** rewrite H2. cbn [snd]. rewrite flt_irrefl. reflexivity.
              ** rewrite Hm. rewrite (flt_asym _ _ Hlt). reflexivity.
           ++ exact (H3 i other Hi Hvalid).
        -- right.
           destruct H2 as [H2|(j & pt & Hidx & Hj & Hv & Hm & Hlt & Hreach & Hearlier)].
           ++ exists 0, point. rewrite H2. cbn [fst snd nth_error].
              split; [lia|]. split; [reflexivity|]. split; [exact Eno|].
              split; [reflexivity|]. split; [exact Hd1|]. split; [exact Hd2|].
              intros i other Hlti. lia.
           ++ exists (S j), pt. split; [rewrite Hidx; lia|].
              split; [exact Hj|]. split; [exact Hv|]. split; [exact Hm|].
              split; [exact (flt_trans _ _ _ Hlt Hd1)|]. split; [exact Hreach|].
              intros [|i] other Hlti Hi Hvalid Hnan; cbn [nth_error] in Hi.
              ** injection Hi as <-. exact Hlt.
              ** apply (Hearlier i other); [lia|assumption..].
      * destruct (IH (S traj) index M) as [H3 H2]. split.
        -- intros [|i] other Hi Hvalid; cbn [nth_error] in Hi.
           ++ injection Hi as <-. fold d.
              destruct (flt d reach) eqn:Er; [|apply andb_false_r].
              rewrite andb_true_r in *.
              destruct H2 as [H2|(j & pt & _ & _ & _ & Hm & Hlt & _)].
              ** rewrite H2. exact Eupd.
              ** rewrite Hm. destruct (flt d (dist_of pt)) eqn:E; [|reflexivity].
                 pose proof (flt_trans _ _ _ E Hlt). congruence.
           ++ exact (H3 i other Hi Hvalid).
        -- destruct H2 as [H2|(j & pt & Hidx & Hj & Hv & Hm & Hlt & Hreach & Hearlier)];
             [left; exact H2|right].
           exists (S j), pt. split; [rewrite Hidx; lia|].
           split; [exact Hj|]. split; [exact Hv|]. split; [exact Hm|].
           split; [exact Hlt|]. split; [exact Hreach|].
           intros [|i] other Hlti Hi Hvalid Hnan; cbn [nth_error] in Hi.
           ++ injection Hi as <-. fold d in Hnan |- *.
              destruct (flt d M) eqn:E1.
              ** cbn [andb] in Eupd. exact (flt_below_trans _ _ _ Hreach Eupd Hnan).
              ** exact (flt_below_trans _ _ _ Hlt E1 Hnan).
           ++ apply (Hearlier i other); [lia|assumption..].
Qed.

End closest_trajectory_point.

(** X19.  The trajectory point that CalculateElement matches a spacepoint
    with is a valid point (its NoPoint flag is not set) closer than
    [MaxDist * wirepitch] and closer than 999; no valid point of the track
    is closer, and every valid point before it is strictly farther, so of
    several nearest points the first is taken. *)
Theorem closest_trajectory_point_is_nearest
  (MaxDist : float) (wirepitch : double) (pos : Point_t)
  (track : list TrajectoryPoint) (index : nat) :
  closest_trajectory_point MaxDist wirepitch pos track = Some index ->
  exists point,
    nth_error track index = Some point
    /\ NoPoint point = false
    /\ flt (traj_dist pos point) (D_of_Z 999) = true
    /\ flt (traj_dist pos point) (Dmul (float_to_double MaxDist) wirepitch) = true
    /\ (forall i other,
          nth_error track i = Some other -> NoPoint other = false ->
          flt (traj_dist pos other) (traj_dist pos point) = false)
    /\ (forall i other,
          i < index -> nth_error track i = Some other ->
          NoPoint other = false -> is_nan (traj_dist pos other) = false ->
          flt (traj_dist pos point) (traj_dist pos other) = true).
Proof.
  unfold closest_trajectory_point.
  destruct (closest_loop_result pos (Dmul (float_to_double MaxDist) wirepitch)
              track 0 999 (D_of_Z 999))
    as [H3 H2].
  destruct (fst (closest_loop pos _ track 0 999 (D_of_Z 999)) =? 999) eqn:E999;
    [discriminate|].
  intros H. injection H as <-.
  destruct H2 as [H2|(j & pt & Hidx & Hj & Hv & Hm & Hlt & Hreach & Hearlier)].
  { rewrite H2 in E999. discriminate E999. }
  cbn [Nat.add] in Hidx. rewrite Hidx.
  exists pt. split; [exact Hj|]. split; [exact Hv|]. split; [exact Hlt|].
  split; [exact Hreach|]. split; [|exact Hearlier].
  intros i other Hi Hvalid. specialize (H3 i other Hi Hvalid). rewrite Hm in H3.
  destruct (flt (traj_dist pos other) (traj_dist pos pt)) eqn:E; [|reflexivity].
  rewrite (flt_trans _ _ _ E Hreach) in H3. discriminate H3.
Qed.

(** X20.  For a track of at most 999 trajectory points a spacepoint is left
    without a matching point exactly when no valid point is both closer
    than [MaxDist * wirepitch] and closer than 999: a point at a distance
    of 999 or more is never matched, however large [MaxDist] is. *)
Theorem closest_trajectory_point_none_iff_out_of_reach
  (MaxDist : float) (wirepitch : double) (pos : Point_t)
  (track : list TrajectoryPoint) :
  length track <= 999 ->
  (closest_trajectory_point MaxDist wirepitch pos track = None
   <-> forall i other,
         nth_error track i = Some other -> NoPoint other = false ->
         flt (traj_dist pos other) (D_of_Z 999)
         && flt (traj_dist pos other) (Dmul (float_to_double MaxDist) wirepitch)
         = false).
Proof.
  intros Hlen. unfold closest_trajectory_point.
  destruct (closest_loop_result pos (Dmul (float_to_double MaxDist) wirepitch)
              track 0 999 (D_of_Z 999))
    as [H3 H2].
  destruct H2 as [H2|(j & pt & Hidx & Hj & Hv & Hm & Hlt & Hreach & _)].
  - rewrite H2 in *. cbn [fst snd Nat.eqb] in *.
    split; [intros _; exact H3|reflexivity].
  - assert (Hjlt : j < length track) by (apply nth_error_Some; congruence).
    cbn [Nat.add] in Hidx. rewrite Hidx.
    destruct (Nat.eqb_spec j 999) as [?|_]; [lia|].
    split; [discriminate|].
    intros Hnone. specialize (Hnone j pt Hj Hv).
    rewrite Hlt, Hreach in Hnone. discriminate Hnone.
Qed.

Lemma closest_trajectory_point_is_nearest_witness :
  let origin := mkXYZ (D_of_Z 0) (D_of_Z 0) (D_of_Z 0) in
  let at_x := fun x => mkTrajectoryPoint false (mkXYZ (D_of_Z x) (D_of_Z 0) (D_of_Z 0))
                                         (mkXYZ (D_of_Z 1) (D_of_Z 0) (D_of_Z 0)) in
  exists point,
    nth_error [at_x 5%Z; at_x 2%Z; at_x 2%Z] 1 = Some point
    /\ flt (traj_dist origin point)
           (Dmul (float_to_double (F_of_Z 4)) (D_of_Z 1)) = true.
Proof.
  intros origin at_x.
  destruct (closest_trajectory_point_is_nearest (F_of_Z 4) (D_of_Z 1) origin
              [at_x 5%Z; at_x 2%Z; at_x 2%Z] 1)
    as (point & Hpoint & _ & _ & Hreach & _).
  - vm_compute. reflexivity.
  - exists point. split; [exact Hpoint|exact Hreach].
Defined.

Lemma closest_trajectory_point_none_iff_out_of_reach_witness :
  let origin := mkXYZ (D_of_Z 0) (D_of_Z 0) (D_of_Z 0) in
  let far := mkTrajectoryPoint false (mkXYZ (D_of_Z 1000) (D_of_Z 0) (D_of_Z 0))
                               (mkXYZ (D_of_Z 1) (D_of_Z 0) (D_of_Z 0)) in
  closest_trajectory_point (F_of_Z 5000) (D_of_Z 1) origin [far] = None.
Proof.
  intros origin far.
  apply (closest_trajectory_point_none_iff_out_of_reach
           (F_of_Z 5000) (D_of_Z 1) origin [far]).
  - cbn [length]. lia.
  - intros [|[|i]] other Hi Hvalid; cbn [nth_error] in Hi; try discriminate Hi.
    injection Hi as <-. vm_compute. reflexivity.
Defined.

(** * Further properties of the dE/dx aggregation of CalculateElement *)

Lemma dEdx_values_errors (fUseMedian : bool) (median : list double -> double)
  (dEdx_vec_cut : PlaneProfile) :
  forall dEdx_val dEdx_valErr,
    snd (dEdx_values fUseMedian median dEdx_vec_cut dEdx_val dEdx_valErr)
    = dEdx_valErr ++
      repeat (D_of_Z (-999))
             (length (filter (fun dEdx_plane : Z * list double =>
                                match snd dEdx_plane with [] => true | _ => false end)
                             dEdx_vec_cut)).
Proof.
  induction dEdx_vec_cut as [|[plane v] rest IH]; intros val err;
    cbn [dEdx_values filter snd].
  - cbn [length repeat]. now rewrite app_nil_r.
  - destruct v as [|d v]; [|destruct fUseMedian]; rewrite IH; [|reflexivity..].
    cbn [length repeat]. rewrite <- app_assoc. reflexivity.
Qed.

(** X21.  The two vectors that CalculateElement stores for the planes are
    not aligned: [dEdx_val] gets one value per plane, while [dEdx_valErr]
    gets an entry, -999, only for a plane without values.  The two have the
    same length only when every plane is without values. *)
Theorem dEdx_values_errors_only_for_empty_planes
  (fUseMedian : bool) (median : list double -> double) (dEdx_vec_cut : PlaneProfile) :
  let empty_planes :=
    filter (fun dEdx_plane : Z * list double =>
              match snd dEdx_plane with [] => true | _ => false end) dEdx_vec_cut in
  let result := dEdx_values fUseMedian median dEdx_vec_cut [] [] in
  length (fst result) = length dEdx_vec_cut
  /\ snd result = repeat (D_of_Z (-999)) (length empty_planes)
  /\ (length (snd result) = length (fst result)
      <-> Forall (fun dEdx_plane => snd dEdx_plane = []) dEdx_vec_cut).
Proof.
  cbv zeta.
  rewrite dEdx_values_per_plane, dEdx_values_errors. cbn [app].
  rewrite length_map, repeat_length.
  split; [reflexivity|]. split; [reflexivity|].
  induction dEdx_vec_cut as [|[plane v] rest IH]; cbn [filter snd length].
  - split; [constructor|reflexivity].
  - pose proof (filter_length_le
                  (fun dEdx_plane : Z * list double =>
                     match snd dEdx_plane with [] => true | _ => false end) rest) as Hle.
    destruct v as [|d v]; cbn [length].
    + split.
      * intros Hlen. constructor; [reflexivity|]. apply IH. unalias. lia.
      * intros Hall. apply Forall_inv_tail in Hall. apply IH in Hall.
        unalias. lia.
    + split.
      * intros Hlen. unalias. lia.
      * intros Hall. apply Forall_inv in Hall. discriminate Hall.
Qed.

Local Open Scope Z_scope.

(** [m[k]] and [m.find(k)] on a map with integer keys. *)
Lemma map_find_update_same {V : Type} (k : Z) (f : option V -> V) (m : list (Z * V)) :
  map_find Z.ltb k (subscript_update Z.ltb k f m) = Some (f (map_find Z.ltb k m)).
Proof.
  induction m as [|[k1 v1] m IH]; cbn [subscript_update map_find].
  - rewrite Z.ltb_irrefl. reflexivity.
  - destruct (Z.ltb_spec k1 k) as [H1|H1]; cbn [map_find].
    + destruct (Z.ltb_spec k1 k); [exact IH|lia].
    + destruct (Z.ltb_spec k k1) as [H2|H2]; cbn [map_find].
      * rewrite Z.ltb_irrefl. reflexivity.
      * destruct (Z.ltb_spec k1 k); [lia|].
        destruct (Z.ltb_spec k k1); [lia|reflexivity].
Qed.

Lemma map_find_update_other {V : Type} (k k' : Z) (f : option V -> V)
  (m : list (Z * V)) :
  k <> k' ->
  map_find Z.ltb k (subscript_update Z.ltb k' f m) = map_find Z.ltb k m.
Proof.
  intros Hne.
  induction m as [|[k1 v1] m IH]; cbn [subscript_update map_find].
  - destruct (Z.ltb_spec k' k); [reflexivity|].
    destruct (Z.ltb_spec k k'); [reflexivity|lia].
  - destruct (Z.ltb_spec k1 k') as [H1|H1]; cbn [map_find].
    + destruct (Z.ltb_spec k1 k); [exact IH|reflexivity].
    + destruct (Z.ltb_spec k' k1) as [H2|H2]; cbn [map_find].
      * destruct (Z.ltb_spec k' k) as [H3|H3].
        -- reflexivity.
        -- destruct (Z.ltb_spec k k'); [|lia].
           destruct (Z.ltb_spec k1 k); [lia|].
           destruct (Z.ltb_spec k k1); [reflexivity|lia].
      * destruct (Z.ltb_spec k1 k); [reflexivity|].
        destruct (Z.ltb_spec k k1); [reflexivity|lia].
Qed.

Section trim_planes_more.

Variable fdEdxCut : float.

Local Abbreviation trim_step :=
  (fun (cut : PlaneProfile) (dEdx_plane : Z * list double) =>
     subscript_update Z.ltb (fst dEdx_plane)
       (fun dEdx_val =>
          FinddEdxLength fdEdxCut (snd dEdx_plane)
            (match dEdx_val with Some v => v | None => [] end))
       cut).

(** The map with an empty entry for every plane of the geometry. *)
Lemma empty_planes_find (planes : list Z) (p : Z) :
  map_find Z.ltb p
    (fold_left (fun cut plane => subscript_assign Z.ltb plane ([] : list double) cut)
               planes [])
  = if existsb (Z.eqb p) planes then Some [] else None.
Proof.
  induction planes as [|plane planes IH] using rev_ind; [reflexivity|].
  rewrite fold_left_app, existsb_app. cbn [fold_left existsb].
  unfold subscript_assign. rewrite orb_false_r.
  destruct (Z.eqb_spec p plane) as [->|Hne].
  - rewrite map_find_update_same, orb_true_r. reflexivity.
  - rewrite map_find_update_other by exact Hne. rewrite orb_false_r. exact IH.
Qed.

Lemma trim_other_plane (dEdx_vec : list (Z * list double)) (p : Z) :
  ~ In p (map fst dEdx_vec) ->
  forall cut, map_find Z.ltb p (fold_left trim_step dEdx_vec cut) = map_find Z.ltb p cut.
Proof.
  induction dEdx_vec as [|[k v] rest IH]; intros Hnot cut; cbn [fold_left];
    [reflexivity|].
  cbn [map fst In] in Hnot.
  rewrite IH by tauto. cbn [fst snd].
  apply map_find_update_other. intros ->. tauto.
Qed.

Lemma trim_this_plane (dEdx_vec : list (Z * list double)) (p : Z) (v : list double) :
  keys_ascending Z.ltb dEdx_vec ->
  In (p, v) dEdx_vec ->
  forall cut,
    map_find Z.ltb p (fold_left trim_step dEdx_vec cut)
    = Some (FinddEdxLength fdEdxCut v
              (match map_find Z.ltb p cut with Some old => old | None => [] end)).
Proof.
  unfold keys_ascending.
  induction 1 as [|[k w] rest Hs IH Hall]; intros Hin cut; [destruct Hin|].
  cbn [fold_left fst snd]. rewrite Forall_forall in Hall.
  destruct Hin as [Heq|Hin].
  - injection Heq as -> ->.
    rewrite trim_other_plane.
    + exact (map_find_update_same p
               (fun dEdx_val : option (list double) =>
                  FinddEdxLength fdEdxCut v
                    (match dEdx_val with Some old => old | None => [] end)) cut).
    + intros Hp. apply in_map_iff in Hp. destruct Hp as ([k' w'] & Hk & Hin').
      cbn [fst] in Hk. subst k'. specialize (Hall _ Hin'). cbn [fst] in Hall.
      apply Z.ltb_lt in Hall. lia.
  - rewrite (IH Hin). rewrite map_find_update_other; [reflexivity|].
    specialize (Hall _ Hin). cbn [fst] in Hall. apply Z.ltb_lt in Hall. lia.
Qed.

(** X22.  CalculateElement trims every plane on its own and from scratch:
    in the stored [dEdx_vec_cut] a plane of [dEdx_vec] holds what
    FinddEdxLength makes of the plane's values starting from an empty
    vector, and a plane of the geometry that has no entry in [dEdx_vec]
    holds an empty vector. *)
Theorem trim_planes_per_plane (planes : list Z) (dEdx_vec : PlaneProfile) :
  keys_ascending Z.ltb dEdx_vec ->
  (forall p v, In (p, v) dEdx_vec ->
               map_find Z.ltb p (trim_planes fdEdxCut planes dEdx_vec)
               = Some (FinddEdxLength fdEdxCut v []))
  /\ (forall p, ~ In p (map fst dEdx_vec) ->
                map_find Z.ltb p (trim_planes fdEdxCut planes dEdx_vec)
                = if existsb (Z.eqb p) planes then Some [] else None).
Proof.
  intros Hs. unfold trim_planes. cbv zeta. split.
  - intros p v Hin.
    rewrite (trim_this_plane dEdx_vec p v Hs Hin), empty_planes_find.
    destruct (existsb (Z.eqb p) planes); reflexivity.
  - intros p Hnot.
    rewrite (trim_other_plane dEdx_vec p Hnot). apply empty_planes_find.
Qed.

End trim_planes_more.

Lemma trim_planes_per_plane_witness :
  map_find Z.ltb 1
    (trim_planes (F_of_Z 10) [0; 1; 2]
                 [(0, []); (1, map D_of_Z [1; 1; 1; 20; 21]); (2, [])])
  = Some (map D_of_Z [1; 1; 1; 1]).
Proof.
  rewrite (proj1 (trim_planes_per_plane (F_of_Z 10) [0; 1; 2]
                    [(0, []); (1, map D_of_Z [1; 1; 1; 20; 21]); (2, [])]
                    ltac:(unfold keys_ascending; repeat constructor))
                 1 (map D_of_Z [1; 1; 1; 20; 21])
                 ltac:(right; left; reflexivity)).
  vm_compute. reflexivity.
Defined.

Local Close Scope Z_scope.

(** * SCECorrectPitch and SCECorrectEField without distortion *)

Lemma Dsub_same_finite (x : double) :
  is_finite x = true -> Dsub x x = S754_zero false.
Proof.
  unfold Dsub. destruct x as [s|s| |s m e]; try discriminate; intros _.
  - destruct s; reflexivity.
  - unfold SFsub. cbv zeta. rewrite Z.sub_diag. reflexivity.
Qed.

Lemma Dadd_zero_right_abs (x : double) (s : bool) :
  SFabs (Dadd x (S754_zero s)) = SFabs x.
Proof. destruct x as [sx|sx| |sx m e], s; try destruct sx; reflexivity. Qed.

Lemma Dadd_zero_left_abs (x : double) (s : bool) :
  SFabs (Dadd (S754_zero s) x) = SFabs x.
Proof. destruct x as [sx|sx| |sx m e], s; try destruct sx; reflexivity. Qed.

Lemma Dmul_abs_left (a b e : double) :
  SFabs a = SFabs b -> SFabs (Dmul a e) = SFabs (Dmul b e).
Proof.
  unfold Dmul.
  destruct a as [sa|sa| |sa ma ea], b as [sb|sb| |sb mb eb]; cbn [SFabs];
    intros H; try discriminate H; try reflexivity;
    try (destruct e as [se|se| |se me ee]; reflexivity).
  injection H as -> ->.
  destruct e as [se|se| |se me ee]; try reflexivity.
  unfold SFmul. apply binary_round_aux_abs.
Qed.

(** X23.  A distortion that is the same at both ends of the step leaves
    the pitch alone: when the calibration offsets at the uncorrected
    position and one pitch further along the direction are the same finite
    vector, SCECorrectPitch returns the length of [pitch * dir], the very
    value computed without the offsets. *)
Theorem SCECorrectPitch_uniform_offsets
  (sce : SpaceCharge) (pitch : double) (pos : Point_t) (dir : Vector_t) (TPC : nat) :
  let uncorrectedPos := Plus pos (GetPosOffsets sce pos TPC) in
  let nextPos := Plus uncorrectedPos (Scale double_arith pitch dir) in
  let posOffset := GetCalPosOffsets sce uncorrectedPos TPC in
  EnableCalSpatialSCE sce = true ->
  GetCalPosOffsets sce nextPos TPC = posOffset ->
  is_finite (fX posOffset) = true ->
  is_finite (fY posOffset) = true ->
  is_finite (fZ posOffset) = true ->
  SCECorrectPitch (Some sce) pitch pos dir TPC
  = Value (Mag double_arith (Scale double_arith pitch dir)).
Proof.
  intros uncorrectedPos nextPos posOffset Hon Hsame Hx Hy Hz.
  unfold SCECorrectPitch. rewrite Hon. cbv zeta.
  fold uncorrectedPos. fold nextPos. rewrite Hsame. fold posOffset.
  rewrite (Dsub_same_finite _ Hx), (Dsub_same_finite _ Hy), (Dsub_same_finite _ Hz).
  f_equal. unfold Mag, Mag2, Dot, Scale.
  cbn [fX fY fZ plus_of times_of sqrt_of double_arith].
  rewrite (Dmul_square_abs _ _ (Dadd_zero_right_abs (Dmul pitch (fX dir)) false)).
  rewrite (Dmul_square_abs _ _ (Dadd_zero_right_abs (Dmul pitch (fY dir)) false)).
  rewrite (Dmul_square_abs _ _ (Dadd_zero_right_abs (Dmul pitch (fZ dir)) false)).
  reflexivity.
Qed.

Lemma SCECorrectPitch_uniform_offsets_witness :
  let shift := mkXYZ (D_of_Z 1) (D_of_Z (-2)) (D_of_Z 0) in
  let sce := mkSpaceCharge true false (fun _ _ => shift) (fun _ _ => shift)
                           (fun _ _ => shift) in
  SCECorrectPitch (Some sce) (D_of_Z 3)
                  (mkXYZ (D_of_Z 0) (D_of_Z 0) (D_of_Z 0))
                  (mkXYZ (D_of_Z 0) (D_of_Z 0) (D_of_Z 1)) 0
  = Value (D_of_Z 3).
Proof.
  intros shift sce.
  rewrite (SCECorrectPitch_uniform_offsets sce (D_of_Z 3)
             (mkXYZ (D_of_Z 0) (D_of_Z 0) (D_of_Z 0))
             (mkXYZ (D_of_Z 0) (D_of_Z 0) (D_of_Z 1)) 0);
    try reflexivity.
Defined.

(** X24.  Without a field distortion the corrected field is the nominal
    one: when the service reports E-field offsets that are all zero,
    SCECorrectEField returns the length of the nominal field direction
    scaled by [EField]. *)
Theorem SCECorrectEField_no_distortion
  (sce : SpaceCharge) (EField : double) (pos : Point_t)
  (NomEfieldDir : nat -> Vector_t) (TPC : nat) :
  EnableSimEfieldSCE sce = true ->
  feq (fX (GetEfieldOffsets sce pos TPC)) (D_of_Z 0) = true ->
  feq (fY (GetEfieldOffsets sce pos TPC)) (D_of_Z 0) = true ->
  feq (fZ (GetEfieldOffsets sce pos TPC)) (D_of_Z 0) = true ->
  SCECorrectEField (Some sce) EField pos NomEfieldDir TPC
  = Value (Mag double_arith
             (mkXYZ (Dmul (fX (NomEfieldDir TPC)) EField)
                    (Dmul (fY (NomEfieldDir TPC)) EField)
                    (Dmul (fZ (NomEfieldDir TPC)) EField))).
Proof.
  intros Hon Hx Hy Hz.
  unfold SCECorrectEField. rewrite Hon. cbv zeta.
  destruct (feq_zero_inv _ Hx) as [sx Ex].
  destruct (feq_zero_inv _ Hy) as [sy Ey].
  destruct (feq_zero_inv _ Hz) as [sz Ez].
  f_equal. unfold Mag, Mag2, Dot, Plus.
  cbn [fX fY fZ plus_of times_of sqrt_of double_arith].
  rewrite Ex, Ey, Ez.
  rewrite (Dmul_square_abs _ _
             (Dmul_abs_left _ _ EField (Dadd_zero_left_abs (fX (NomEfieldDir TPC)) sx))).
  rewrite (Dmul_square_abs _ _
             (Dmul_abs_left _ _ EField (Dadd_zero_left_abs (fY (NomEfieldDir TPC)) sy))).
  rewrite (Dmul_square_abs _ _
             (Dmul_abs_left _ _ EField (Dadd_zero_left_abs (fZ (NomEfieldDir TPC)) sz))).
  reflexivity.
Qed.

Lemma SCECorrectEField_no_distortion_witness :
  let none := mkXYZ (D_of_Z 0) (D_of_Z 0) (D_of_Z 0) in
  let sce := mkSpaceCharge false true (fun _ _ => none) (fun _ _ => none)
                           (fun _ _ => none) in
  SCECorrectEField (Some sce) (D_of_Z 5) none
                   (fun _ => mkXYZ (D_of_Z 1) (D_of_Z 0) (D_of_Z 0)) 0
  = Value (D_of_Z 5).
Proof.
  intros none sce.
  rewrite (SCECorrectEField_no_distortion sce (D_of_Z 5) none
             (fun _ => mkXYZ (D_of_Z 1) (D_of_Z 0) (D_of_Z 0)) 0);
    try reflexivity.
Defined.

(** A spacepoint with key 5 and an association with a single entry. *)
Lemma ShowerCentre_throws_without_association_witness :
  ShowerCentre false (D_of_Z 1) (D_of_Z 1) (fun x => x)
               [spacepoint_at 0 1 2 3; spacepoint_at 5 0 0 0]
               [[hit_with 0 4 0]] (F_of_Z 0)
  = Exception "out_of_range".
Proof.
  apply (proj1 (ShowerCentre_throws_without_association
                  false (D_of_Z 1) (D_of_Z 1) (fun x => x)
                  [spacepoint_at 0 1 2 3; spacepoint_at 5 0 0 0]
                  [[hit_with 0 4 0]] (F_of_Z 0))).
  right. left. cbn. lia.
Defined.

(** * SpacePointPerpendicular in [double] arithmetic *)

Local Open Scope Z_scope.






Local Close Scope Z_scope.








